(** * GoxLang parser (v3/GOX_parser.py): shallow embedding and properties

    The parser of [GOX_parser.py] is a Python class whose methods mutate a
    cursor ([pos], [current_token]) and append to a shared error handler.
    It is embedded here as a state-and-exception monad over a record holding
    exactly these fields.  Python exceptions ([AttributeError] from reading
    [.type]/[.value] of [None], [ValueError] from [int()]/[float()]) are
    explicit outcomes.  Recursion and [while] loops are driven by a fuel
    argument; running out of fuel is a separate outcome, and the termination
    theorem shows it never happens once the fuel exceeds the input length.
    Token and node objects are plain class instances, hence truthy in a
    Python condition; [None] and [False] are not. *)

From Stdlib Require Import List String Ascii ZArith Bool Arith Lia.
Import ListNotations.
Local Open Scope string_scope.

(** ** Tokens (GOX_lexer.Token, consumed only) *)

(** Modelled from the spec: the [Token] class of GOX_lexer is not part of the
    sources; section 3 of the specification gives it a type tag, a literal or
    identifier text and a line number, and the parser reads the attributes
    [type], [value] and [lineno]. *)
Record Token : Type := mkToken {
  type : string;
  value : string;
  lineno : Z
}.

(** The second component of a diagnostic: [add_error] receives either the
    token's [lineno] or the text ["End of file"]. *)
Inductive line_info : Type :=
| LineNo (n : Z)
| LineText (s : string).

Definition diagnostic : Type := (string * line_info)%type.

(** Modelled from the spec: the [ErrorHandler] class of GOX_error_handler is
    not part of the sources; section 4.2 says that recording appends a
    (message, line) pair in detection order and that [has_errors] tells
    whether any diagnostic was recorded. *)
Definition add_error_list (errors : list diagnostic) (message : string)
    (line : line_info) : list diagnostic :=
  errors ++ [(message, line)].

Definition has_errors (errors : list diagnostic) : bool :=
  match errors with
  | [] => false
  | _ :: _ => true
  end.

(** [x in [a, b, ...]] on strings. *)
Definition str_in (x : string) (l : list string) : bool :=
  existsb (String.eqb x) l.

(** [str.lower()] on the ASCII letters; the parser only compares the result
    with ["true"]. *)
Definition lower_ascii (c : ascii) : ascii :=
  let n := nat_of_ascii c in
  if (Nat.leb 65 n && Nat.leb n 90)%bool then ascii_of_nat (n + 32) else c.

Fixpoint lower (s : string) : string :=
  match s with
  | EmptyString => EmptyString
  | String.String c s' => String.String (lower_ascii c) (lower s')
  end.

(** ** A host instance for the closed examples

    The examples below only carry integer literals written with ASCII
    digits, on which [int()] is the decimal reading; every other text is
    rejected here.  A float literal [digits.digits] is kept as its exact
    decimal value (mantissa and number of fractional digits). *)
Module Host.

Definition digit_of (c : ascii) : option Z :=
  let n := nat_of_ascii c in
  if (Nat.leb 48 n && Nat.leb n 57)%bool then Some (Z.of_nat (n - 48)) else None.

Fixpoint read_digits (acc : Z) (s : string) : option Z :=
  match s with
  | EmptyString => Some acc
  | String.String c s' =>
      match digit_of c with
      | Some d => read_digits (10 * acc + d) s'
      | None => None
      end
  end.

Definition py_int (s : string) : option Z :=
  match s with
  | EmptyString => None
  | _ => read_digits 0 s
  end.

Definition PyFloat : Type := (Z * nat)%type.

Fixpoint split_dot (s : string) : option (string * string) :=
  match s with
  | EmptyString => None
  | String.String c s' =>
      if Ascii.eqb c "."%char then Some (EmptyString, s')
      else match split_dot s' with
           | Some (a, b) => Some (String.String c a, b)
           | None => None
           end
  end.

Definition py_float (s : string) : option PyFloat :=
  match split_dot s with
  | Some (a, b) =>
      match py_int a, py_int b with
      | Some _, Some _ =>
          match read_digits 0 (a ++ b) with
          | Some m => Some (m, String.length b)
          | None => None
          end
      | _, _ => None
      end
  | None => None
  end.

End Host.

(** ** Outcomes of a run *)

(** The Python exceptions the parser can raise. *)
Inductive exn : Type := AttributeError | ValueError.

Inductive outcome (A : Type) : Type :=
| Ret (a : A)
| Raise (e : exn)
| OutOfFuel.
Arguments Ret {A} a.
Arguments Raise {A} e.
Arguments OutOfFuel {A}.

(** ** Sample token sequences *)

Definition tok (ty v : string) (line : Z) : Token := mkToken ty v line.

(** [1 + 2 * 3] *)
Definition tokens_precedence : list Token :=
  [tok "INTEGER" "1" 1; tok "PLUS" "+" 1; tok "INTEGER" "2" 1;
   tok "TIMES" "*" 1; tok "INTEGER" "3" 1].

(** [var x = 1;] *)
Definition tokens_declaration : list Token :=
  [tok "VAR" "var" 1; tok "ID" "x" 1; tok "ASSIGN" "=" 1;
   tok "INTEGER" "1" 1; tok "SEMI" ";" 1].

(** [; print 1;] *)
Definition tokens_stray_semi : list Token :=
  [tok "SEMI" ";" 1; tok "PRINT" "print" 1; tok "INTEGER" "1" 1;
   tok "SEMI" ";" 1].

(** [print] at the end of the input *)
Definition tokens_print_eof : list Token := [tok "PRINT" "print" 1].

(** [var] at the end of the input *)
Definition tokens_var_eof : list Token := [tok "VAR" "var" 1].

(** [f(] at the end of the input *)
Definition tokens_call_eof : list Token :=
  [tok "ID" "f" 1; tok "LPAREN" "(" 1].

(** [if x { ; }] on three lines *)
Definition tokens_if_stray : list Token :=
  [tok "IF" "if" 1; tok "ID" "x" 1; tok "LBRACE" "{" 1; tok "SEMI" ";" 2;
   tok "RBRACE" "}" 3].

(** [while x { ; }] with the stray [;] on line 2 *)
Definition tokens_while_stray : list Token :=
  [tok "WHILE" "while" 1; tok "ID" "x" 1; tok "LBRACE" "{" 1;
   tok "SEMI" ";" 2; tok "RBRACE" "}" 3].

(** [func f() { ; }] with the stray [;] on line 2 *)
Definition tokens_func_stray : list Token :=
  [tok "FUNC" "func" 1; tok "ID" "f" 1; tok "LPAREN" "(" 1;
   tok "RPAREN" ")" 1; tok "LBRACE" "{" 1; tok "SEMI" ";" 2;
   tok "RBRACE" "}" 3].

(** [print 1;] *)
Definition tokens_print : list Token :=
  [tok "PRINT" "print" 1; tok "INTEGER" "1" 1; tok "SEMI" ";" 1].

Section GoxLang.

(** The host conversions [int(text)] and [float(text)]: [None] stands for the
    [ValueError] the built-in raises on a text it rejects.  [PyFloat] is the
    host's double. *)
Context {PyFloat : Type}.
Variable py_int : string -> option Z.
Variable py_float : string -> option PyFloat.

(** ** AST nodes (GOX_AST_nodes, plain data carriers)

    Attribute names are the ones the parser and the serializer use.  A child
    that the parser may leave as [None] is an [option].  [Parameter_] is the
    class [Parameter], a reserved word here. *)
Unset Elimination Schemes.
Inductive node : Type :=
| Program (statements : list (option node))
| Integer (value : Z)
| Float (value : PyFloat)
| Boolean (value : bool)
| String (value : string)
| BinOp (op : string) (left right : option node)
| UnaryOp (op : string) (operand : option node)
| Location (name : string)
| FunctionCall (name : string) (args : list (option node))
| Print (expr : option node)
| Assignment (location : option node) (expr : option node)
| If (test : option node) (consequence alternative : list (option node))
| While (test : option node) (body : list (option node))
| VariableDecl (name : string) (var_type : option string) (value : option node)
| ConstantDecl (name : string) (value : option node)
| FunctionDecl (name : string) (params : list (option node))
    (return_type : option string) (body : list (option node))
| Return (expr : option node)
| Parameter_ (name : string) (param_type : option string)
| ImportDecl (module_name : string).
Set Elimination Schemes.

(** ** Parser state and the state-and-exception monad *)

Variable tokens : list Token.

Record Parser : Type := mkParser {
  pos : nat;
  current_token : option Token;
  errors : list diagnostic
}.

(** [Parser.__init__] *)
Definition Parser_init (error_handler : list diagnostic) : Parser :=
  {| pos := 0;
     current_token := match tokens with [] => None | t :: _ => Some t end;
     errors := error_handler |}.

Definition M (A : Type) : Type := Parser -> outcome A * Parser.

Definition ret {A} (a : A) : M A := fun self => (Ret a, self).

Definition bind {A B} (m : M A) (f : A -> M B) : M B :=
  fun self =>
    match m self with
    | (Ret a, self') => f a self'
    | (Raise e, self') => (Raise e, self')
    | (OutOfFuel, self') => (OutOfFuel, self')
    end.

Definition raise {A} (e : exn) : M A := fun self => (Raise e, self).
Definition out_of_fuel {A} : M A := fun self => (OutOfFuel, self).

(** Reads [self.current_token]. *)
Definition cur : M (option Token) := fun self => (Ret (current_token self), self).

(** Reads an attribute of [self.current_token]; [None] has no attributes. *)
Definition cur_attr {A} (attr : Token -> A) : M A :=
  fun self =>
    match current_token self with
    | Some t => (Ret (attr t), self)
    | None => (Raise AttributeError, self)
    end.

Definition add_error (message : string) (line : line_info) : M unit :=
  fun self =>
    (Ret tt, {| pos := pos self;
                current_token := current_token self;
                errors := add_error_list (errors self) message line |}).

Notation "x <- m ;; k" := (bind m (fun x => k))
  (at level 100, m at next level, right associativity).
Notation "m ;;; k" := (bind m (fun _ => k))
  (at level 100, right associativity).

(** [self.current_token and self.current_token.type == ty] *)
Definition cur_is (ty : string) (self : Parser) : bool :=
  match current_token self with
  | Some t => String.eqb (type t) ty
  | None => false
  end.

(** [self.current_token and self.current_token.type in tys] *)
Definition cur_in (tys : list string) (self : Parser) : bool :=
  match current_token self with
  | Some t => str_in (type t) tys
  | None => false
  end.

(** [self.current_token and self.current_token.type != ty] *)
Definition cur_is_not (ty : string) (self : Parser) : bool :=
  match current_token self with
  | Some t => negb (String.eqb (type t) ty)
  | None => false
  end.

Definition advance : M unit :=
  fun self =>
    let pos' := S (pos self) in
    (Ret tt, {| pos := pos';
                current_token :=
                  if Nat.ltb pos' (List.length tokens) then nth_error tokens pos'
                  else None;
                errors := errors self |}).

Definition peek (offset : nat) (self : Parser) : option Token :=
  let peek_pos := pos self + offset in
  if Nat.ltb peek_pos (List.length tokens) then nth_error tokens peek_pos else None.

(** [err_msg or f"Expected {token_type}"]: an absent or empty message gives
    the default. *)
Definition expect_message (token_type : string) (err_msg : option string) : string :=
  match err_msg with
  | Some (String.String c s) => String.String c s
  | _ => "Expected " ++ token_type
  end.

(** [expect]: the token on success, [None] for the [False] it returns on
    failure. *)
Definition expect (token_type : string) (err_msg : option string) : M (option Token) :=
  fun self =>
    if cur_is token_type self then
      (token <- cur ;; advance ;;; ret token) self
    else
      let err := expect_message token_type err_msg in
      match current_token self with
      | Some t => (add_error err (LineNo (lineno t)) ;;; ret None) self
      | None => (add_error err (LineText "End of file") ;;; ret None) self
      end.

(** ** Expressions *)

(** The argument list read after ["("], the same text in [parse_primary]
    (lines 169-174) and in [parse_function_call] (lines 262-267):
    [while self.current_token and self.current_token.type == 'COMMA'] *)
Fixpoint parse_more_args (parse_expression : M (option node)) (fuel : nat)
    (args : list (option node)) : M (list (option node)) :=
  fun self =>
    if cur_is "COMMA" self then
      match fuel with
      | O => (OutOfFuel, self)
      | S fuel' =>
          (advance ;;;
           e <- parse_expression ;;
           parse_more_args parse_expression fuel' (args ++ [e])) self
      end
    else (Ret args, self).

Definition parse_args (parse_expression : M (option node)) (fuel : nat)
    : M (list (option node)) :=
  ty <- cur_attr type ;;
  if negb (String.eqb ty "RPAREN") then
    e <- parse_expression ;;
    parse_more_args parse_expression fuel [e]
  else ret [].

Definition parse_primary (parse_expression : M (option node)) (fuel : nat)
    : M (option node) :=
  fun self =>
    match current_token self with
    | None => (Raise AttributeError, self)
    | Some token =>
        if String.eqb (type token) "INTEGER" then
          (advance ;;;
           match py_int (value token) with
           | Some z => ret (Some (Integer z))
           | None => raise ValueError
           end) self
        else if String.eqb (type token) "FLOAT" then
          (advance ;;;
           match py_float (value token) with
           | Some f => ret (Some (Float f))
           | None => raise ValueError
           end) self
        else if String.eqb (type token) "LPAREN" then
          (advance ;;;
           e <- parse_expression ;;
           expect "RPAREN" (Some "Missing closing parenthesis") ;;;
           ret e) self
        else if String.eqb (type token) "ID" then
          (advance ;;;
           fun self1 =>
             if cur_is "LPAREN" self1 then
               (advance ;;;
                args <- parse_args parse_expression fuel ;;
                expect "RPAREN" (Some "Expected ')' after function arguments") ;;;
                ret (Some (FunctionCall (value token) args))) self1
             else (Ret (Some (Location (value token))), self1)) self
        else if str_in (type token) ["TRUE"; "FALSE"] then
          (advance ;;;
           ret (Some (Boolean (String.eqb (lower (value token)) "true")))) self
        else if String.eqb (type token) "STRING" then
          (advance ;;; ret (Some (String (value token)))) self
        else
          (add_error "Invalid expression" (LineNo (lineno token)) ;;;
           advance ;;;
           ret None) self
    end.

Definition parse_unary (parse_expression : M (option node)) (fuel : nat)
    : M (option node) :=
  fun self =>
    if cur_in ["PLUS"; "MINUS"; "NOT"; "DEREF"] self then
      (op <- cur_attr value ;;
       advance ;;;
       e <- parse_primary parse_expression fuel ;;
       ret (Some (UnaryOp op e))) self
    else parse_primary parse_expression fuel self.

(** The loop shared by the five binary layers:
    [while self.current_token and self.current_token.type in ops:
       op = value; advance(); right = sub(); node = BinOp(op, node, right)] *)
Fixpoint binop_loop (ops : list string) (sub : M (option node)) (fuel : nat)
    (nd : option node) : M (option node) :=
  fun self =>
    if cur_in ops self then
      match fuel with
      | O => (OutOfFuel, self)
      | S fuel' =>
          (op <- cur_attr value ;;
           advance ;;;
           right <- sub ;;
           binop_loop ops sub fuel' (Some (BinOp op nd right))) self
      end
    else (Ret nd, self).

Definition binop_layer (ops : list string) (sub : M (option node)) (fuel : nat)
    : M (option node) :=
  nd <- sub ;; binop_loop ops sub fuel nd.

Definition parse_factor (parse_expression : M (option node)) (fuel : nat) :=
  binop_layer ["TIMES"; "DIVIDE"; "MOD"; "INT_DIV"]
    (parse_unary parse_expression fuel) fuel.

Definition parse_term (parse_expression : M (option node)) (fuel : nat) :=
  binop_layer ["PLUS"; "MINUS"] (parse_factor parse_expression fuel) fuel.

Definition parse_comparison (parse_expression : M (option node)) (fuel : nat) :=
  binop_layer ["LT"; "GT"; "LE"; "GE"; "EQ"; "NE"]
    (parse_term parse_expression fuel) fuel.

Definition parse_logic_and (parse_expression : M (option node)) (fuel : nat) :=
  binop_layer ["LAND"] (parse_comparison parse_expression fuel) fuel.

Definition parse_logic_or (parse_expression : M (option node)) (fuel : nat) :=
  binop_layer ["LOR"] (parse_logic_and parse_expression fuel) fuel.

(** [parse_expression] with [fuel] levels of recursion left. *)
Fixpoint parse_expression (fuel : nat) : M (option node) :=
  match fuel with
  | O => out_of_fuel
  | S fuel' => parse_logic_or (parse_expression fuel') fuel'
  end.

(** ** Statements *)

Definition parse_location : M (option node) :=
  ident <- cur_attr value ;;
  expect "ID" None ;;;
  ret (Some (Location ident)).

Definition parse_print (parse_expression : M (option node)) : M (option node) :=
  expect "PRINT" None ;;;
  e <- parse_expression ;;
  expect "SEMI" (Some "Missing ';' after print statement") ;;;
  ret (Some (Print e)).

Definition parse_assignment (parse_expression : M (option node)) : M (option node) :=
  loc <- parse_location ;;
  expect "ASSIGN" (Some "Missing '=' in assignment") ;;;
  e <- parse_expression ;;
  expect "SEMI" (Some "Missing ';' after assignment") ;;;
  ret (Some (Assignment loc e)).

(** [while self.current_token and self.current_token.type != 'RBRACE':
       body.append(self.parse_statement())], the loop of [parse_if] (twice),
    [parse_while] and [parse_function]. *)
Fixpoint parse_block (parse_statement : M (option node)) (fuel : nat)
    (body : list (option node)) : M (list (option node)) :=
  fun self =>
    if cur_is_not "RBRACE" self then
      match fuel with
      | O => (OutOfFuel, self)
      | S fuel' =>
          (s <- parse_statement ;;
           parse_block parse_statement fuel' (body ++ [s])) self
      end
    else (Ret body, self).

Definition parse_if (parse_expression parse_statement : M (option node))
    (fuel : nat) : M (option node) :=
  expect "IF" None ;;;
  test <- parse_expression ;;
  expect "LBRACE" (Some "Missing '{' after if condition") ;;;
  consequence <- parse_block parse_statement fuel [] ;;
  expect "RBRACE" (Some "Missing '}' at the end of if block") ;;;
  fun self =>
    if cur_is "ELSE" self then
      (advance ;;;
       expect "LBRACE" (Some "Missing '{' after else") ;;;
       alternative <- parse_block parse_statement fuel [] ;;
       expect "RBRACE" (Some "Missing '}' at the end of else block") ;;;
       ret (Some (If test consequence alternative))) self
    else (Ret (Some (If test consequence [])), self).

Definition parse_while (parse_expression parse_statement : M (option node))
    (fuel : nat) : M (option node) :=
  expect "WHILE" None ;;;
  test <- parse_expression ;;
  expect "LBRACE" (Some "Missing '{' after while condition") ;;;
  body <- parse_block parse_statement fuel [] ;;
  expect "RBRACE" (Some "Missing '}' at the end of while block") ;;;
  ret (Some (While test body)).

Definition parse_declaration (parse_expression : M (option node)) : M node :=
  ty <- cur_attr type ;;
  let is_const := String.eqb ty "CONST" in
  advance ;;;
  ident <- cur_attr value ;;
  expect "ID" (Some "Expected identifier in declaration") ;;;
  var_type <- (fun self =>
                 if cur_is "ID" self then
                   (v <- cur_attr value ;; advance ;;; ret (Some v)) self
                 else (Ret None, self)) ;;
  val <- (fun self =>
            if cur_is "ASSIGN" self then (advance ;;; parse_expression) self
            else (Ret None, self)) ;;
  (fun self => if cur_is "SEMI" self then advance self else (Ret tt, self)) ;;;
  ret (if is_const then ConstantDecl ident val
       else VariableDecl ident var_type val).

Definition parse_function_call (parse_expression : M (option node)) (fuel : nat)
    : M (option node) :=
  name <- cur_attr value ;;
  expect "ID" (Some "Expected function name") ;;;
  expect "LPAREN" (Some "Expected '(' after function name") ;;;
  args <- parse_args parse_expression fuel ;;
  expect "RPAREN" (Some "Expected ')' after function arguments") ;;;
  expect "SEMI" (Some "Missing ';' after function call") ;;;
  ret (Some (FunctionCall name args)).

(** [while self.current_token and self.current_token.type == 'COMMA'] of
    [parse_function]. *)
Fixpoint parse_more_params (fuel : nat) (params : list (option node))
    : M (list (option node)) :=
  fun self =>
    if cur_is "COMMA" self then
      match fuel with
      | O => (OutOfFuel, self)
      | S fuel' =>
          (advance ;;;
           param_name <- cur_attr value ;;
           expect "ID" (Some "Expected parameter name") ;;;
           parse_more_params fuel' (params ++ [Some (Parameter_ param_name None)])) self
      end
    else (Ret params, self).

Definition parse_function (parse_statement : M (option node)) (fuel : nat)
    : M (option node) :=
  expect "FUNC" None ;;;
  name <- cur_attr value ;;
  expect "ID" (Some "Expected function name after FUNC keyword") ;;;
  expect "LPAREN" (Some "Expected '(' after function name in declaration") ;;;
  ty <- cur_attr type ;;
  params <- (if negb (String.eqb ty "RPAREN") then
               param_name <- cur_attr value ;;
               expect "ID" (Some "Expected parameter name") ;;;
               parse_more_params fuel [Some (Parameter_ param_name None)]
             else ret []) ;;
  expect "RPAREN" (Some "Expected ')' after parameters in function declaration") ;;;
  expect "LBRACE" (Some "Expected '{' to start function body") ;;;
  body <- parse_block parse_statement fuel [] ;;
  expect "RBRACE" (Some "Expected '}' to end function body") ;;;
  ret (Some (FunctionDecl name params None body)).

Definition parse_return (parse_expression : M (option node)) : M (option node) :=
  expect "RETURN" None ;;;
  e <- parse_expression ;;
  expect "SEMI" (Some "Missing ';' after return statement") ;;;
  ret (Some (Return e)).

Definition parse_import : M (option node) :=
  expect "IMPORT" None ;;;
  module_token <- expect "ID" (Some "Expected module name after IMPORT") ;;
  match module_token with
  | None => ret None
  | Some tk =>
      expect "SEMI" (Some "Missing ';' after import declaration") ;;;
      ret (Some (ImportDecl (value tk)))
  end.

(** [self.peek() and self.peek().type == 'LPAREN'] *)
Definition peek_is_lparen (self : Parser) : bool :=
  match peek 1 self with
  | Some t => String.eqb (type t) "LPAREN"
  | None => false
  end.

(** The body of [parse_statement]; the recursive calls are the arguments. *)
Definition parse_statement_body (parse_expression parse_statement : M (option node))
    (fuel : nat) : M (option node) :=
  fun self =>
    match current_token self with
    | None => (Ret None, self)
    | Some t =>
        if String.eqb (type t) "IMPORT" then parse_import self
        else if str_in (type t) ["VAR"; "CONST"] then
          (stmt <- parse_declaration parse_expression ;;
           expect "SEMI" (Some "Missing ';' after declaration") ;;;
           ret (Some stmt)) self
        else if String.eqb (type t) "PRINT" then parse_print parse_expression self
        else if String.eqb (type t) "IF" then
          parse_if parse_expression parse_statement fuel self
        else if String.eqb (type t) "WHILE" then
          parse_while parse_expression parse_statement fuel self
        else if String.eqb (type t) "FUNC" then
          parse_function parse_statement fuel self
        else if String.eqb (type t) "RETURN" then parse_return parse_expression self
        else if String.eqb (type t) "ID" then
          if peek_is_lparen self then parse_function_call parse_expression fuel self
          else parse_assignment parse_expression self
        else
          (add_error ("Unexpected token type: " ++ type t) (LineNo (lineno t)) ;;;
           advance ;;;
           ret None) self
    end.

Fixpoint parse_statement (fuel : nat) : M (option node) :=
  match fuel with
  | O => out_of_fuel
  | S fuel' =>
      parse_statement_body (parse_expression fuel) (parse_statement fuel') fuel'
  end.

(** The loop of [parse]: [while self.current_token: ...].  A statement
    object is truthy, [None] is not. *)
Fixpoint parse_loop (stmt_fuel fuel : nat) (statements : list (option node))
    : M (list (option node)) :=
  fun self =>
    match current_token self with
    | Some _ =>
        match fuel with
        | O => (OutOfFuel, self)
        | S fuel' =>
            (stmt <- parse_statement stmt_fuel ;;
             match stmt with
             | Some s => parse_loop stmt_fuel fuel' (statements ++ [Some s])
             | None => advance ;;; parse_loop stmt_fuel fuel' statements
             end) self
        end
    | None => (Ret statements, self)
    end.

Definition parse (fuel : nat) : M node :=
  statements <- parse_loop fuel fuel [] ;;
  ret (Program statements).

(** ** Serialization *)

(** The JSON-compatible values [_serialize_ast] builds.  A Python [dict]
    keeps insertion order, and assigning to a key that is present replaces
    the value in place. *)
Unset Elimination Schemes.
Inductive json : Type :=
| JNull
| JBool (b : bool)
| JInt (z : Z)
| JFloat (f : PyFloat)
| JStr (s : string)
| JList (items : list json)
| JDict (fields : list (string * json)).
Set Elimination Schemes.

Fixpoint dict_set (d : list (string * json)) (k : string) (v : json)
    : list (string * json) :=
  match d with
  | [] => [(k, v)]
  | (k', v') :: d' =>
      if String.eqb k' k then (k, v) :: d' else (k', v') :: dict_set d' k v
  end.

Fixpoint dict_get (d : list (string * json)) (k : string) : option json :=
  match d with
  | [] => None
  | (k', v') :: d' => if String.eqb k' k then Some v' else dict_get d' k
  end.

Definition dict_keys (d : list (string * json)) : list string := map fst d.

(** [node.__class__.__name__] *)
Definition class_name (nd : node) : string :=
  match nd with
  | Program _ => "Program"
  | Integer _ => "Integer"
  | Float _ => "Float"
  | Boolean _ => "Boolean"
  | String _ => "String"
  | BinOp _ _ _ => "BinOp"
  | UnaryOp _ _ => "UnaryOp"
  | Location _ => "Location"
  | FunctionCall _ _ => "FunctionCall"
  | Print _ => "Print"
  | Assignment _ _ => "Assignment"
  | If _ _ _ => "If"
  | While _ _ => "While"
  | VariableDecl _ _ _ => "VariableDecl"
  | ConstantDecl _ _ => "ConstantDecl"
  | FunctionDecl _ _ _ _ => "FunctionDecl"
  | Return _ => "Return"
  | Parameter_ _ _ => "Parameter"
  | ImportDecl _ => "ImportDecl"
  end.

(** A plain attribute that holds a text or [None]. *)
Definition json_of_opt_str (o : option string) : json :=
  match o with
  | Some s => JStr s
  | None => JNull
  end.

(** [_serialize_ast] on a node object.  [ser] is the call on an attribute
    that holds a node or [None], [ser_list] the call on a list. *)
Fixpoint _serialize_ast (nd : node) : json :=
  let ser := fun o : option node =>
    match o with
    | Some n => _serialize_ast n
    | None => JNull
    end in
  let ser_list := fun l : list (option node) => JList (map ser l) in
  let data := [("type", JStr (class_name nd))] in
  match nd with
  | Program statements =>
      JDict (dict_set data "statements" (ser_list statements))
  | Integer v => JDict (dict_set data "value" (JInt v))
  | Float v => JDict (dict_set data "value" (JFloat v))
  | Boolean v => JDict (dict_set data "value" (JBool v))
  | String v => JDict (dict_set data "value" (JStr v))
  | BinOp op l r =>
      JDict (dict_set (dict_set (dict_set data "operator" (JStr op))
                         "left" (ser l)) "right" (ser r))
  | UnaryOp op operand =>
      JDict (dict_set (dict_set data "operator" (JStr op)) "operand" (ser operand))
  | Location name => JDict (dict_set data "name" (JStr name))
  | FunctionCall name args =>
      JDict (dict_set (dict_set data "name" (JStr name)) "arguments" (ser_list args))
  | Print e => JDict (dict_set data "expression" (ser e))
  | Assignment loc e =>
      JDict (dict_set (dict_set data "target" (ser loc)) "value" (ser e))
  | If test consequence alternative =>
      JDict (dict_set (dict_set (dict_set data "condition" (ser test))
                         "consequence" (ser_list consequence))
               "alternative" (ser_list alternative))
  | While test body =>
      JDict (dict_set (dict_set data "condition" (ser test)) "body" (ser_list body))
  | VariableDecl name var_type v =>
      JDict (dict_set (dict_set (dict_set data "name" (JStr name))
                         "type" (json_of_opt_str var_type))
               "initial_value" (ser v))
  | ConstantDecl name v =>
      JDict (dict_set (dict_set data "name" (JStr name)) "value" (ser v))
  | FunctionDecl name params return_type body =>
      JDict (dict_set (dict_set (dict_set (dict_set data "name" (JStr name))
                                   "parameters" (ser_list params))
                         "return_type" (json_of_opt_str return_type))
               "body" (ser_list body))
  | Return e => JDict (dict_set data "value" (ser e))
  | Parameter_ name param_type =>
      JDict (dict_set (dict_set data "name" (JStr name))
               "type" (json_of_opt_str param_type))
  | ImportDecl module_name => JDict (dict_set data "module_name" (JStr module_name))
  end.

(** [_serialize_ast] on an attribute that holds a node or [None]. *)
Definition serialize (o : option node) : json :=
  match o with
  | Some n => _serialize_ast n
  | None => JNull
  end.

(** [_serialize_ast] on a list: [[self._serialize_ast(item) for item in node]] *)
Definition serialize_list (l : list (option node)) : json :=
  JList (map serialize l).

(** Modelled from the spec: the entries of [ErrorHandler.errors] are not part
    of the sources; section 6 gives the persisted form of a diagnostic as a
    mapping with the keys ["message"] and ["line"]. *)
Definition json_of_diagnostic (d : diagnostic) : json :=
  JDict [("message", JStr (fst d));
         ("line", match snd d with
                  | LineNo n => JInt n
                  | LineText s => JStr s
                  end)].

Definition to_json (fuel : nat) : M json :=
  ast <- parse fuel ;;
  fun self =>
    if has_errors (errors self) then
      (Ret (JDict [("errors", JList (map json_of_diagnostic (errors self)))]), self)
    else (Ret (_serialize_ast ast), self).

(** [key in document] for the root of an output document. *)
Definition json_has_key (k : string) (d : json) : bool :=
  match d with
  | JDict fields =>
      match dict_get fields k with
      | Some _ => true
      | None => false
      end
  | _ => false
  end.

(** The attribute names of section 3 of the specification, variant by
    variant, in the words of the specification (not the code's). *)
Definition section3_attributes (nd : node) : list string :=
  match nd with
  | Program _ => ["statements"]
  | Integer _ | Float _ | Boolean _ | String _ => ["value"]
  | BinOp _ _ _ => ["operator"; "left"; "right"]
  | UnaryOp _ _ => ["operator"; "operand"]
  | Location _ => ["name"]
  | FunctionCall _ _ => ["name"; "args"]
  | Print _ => ["expr"]
  | Assignment _ _ => ["target"; "expr"]
  | If _ _ _ => ["condition"; "consequence"; "alternative"]
  | While _ _ => ["condition"; "body"]
  | VariableDecl _ _ _ => ["name"; "declared_type"; "initial_value"]
  | ConstantDecl _ _ => ["name"; "value"]
  | FunctionDecl _ _ _ _ => ["name"; "params"; "return_type"; "body"]
  | Return _ => ["expr"]
  | Parameter_ _ _ => ["name"; "declared_type"]
  | ImportDecl _ => ["module_name"]
  end.

(** The serializer as the specification words it: a mapping whose ["type"]
    is the variant name and whose other keys are the attribute names of
    section 3. *)
Definition mirrors_section3 (nd : node) : Prop :=
  exists fields,
    _serialize_ast nd = JDict fields /\
    dict_get fields "type" = Some (JStr (class_name nd)) /\
    dict_keys fields = "type" :: section3_attributes nd.

(** The keys [_serialize_ast] assigns after ["type"], branch by branch. *)
Definition emitted_keys (nd : node) : list string :=
  match nd with
  | Program _ => ["statements"]
  | Integer _ | Float _ | Boolean _ | String _ => ["value"]
  | BinOp _ _ _ => ["operator"; "left"; "right"]
  | UnaryOp _ _ => ["operator"; "operand"]
  | Location _ => ["name"]
  | FunctionCall _ _ => ["name"; "arguments"]
  | Print _ => ["expression"]
  | Assignment _ _ => ["target"; "value"]
  | If _ _ _ => ["condition"; "consequence"; "alternative"]
  | While _ _ => ["condition"; "body"]
  | VariableDecl _ _ _ => ["name"; "initial_value"]
  | ConstantDecl _ _ => ["name"; "value"]
  | FunctionDecl _ _ _ _ => ["name"; "parameters"; "return_type"; "body"]
  | Return _ => ["value"]
  | Parameter_ _ _ => ["name"]
  | ImportDecl _ => ["module_name"]
  end.

(** The two variants with an attribute that is itself stored under the key
    ["type"]. *)
Definition stores_type_attribute (nd : node) : bool :=
  match nd with
  | VariableDecl _ _ _ | Parameter_ _ _ => true
  | _ => false
  end.

(** The token types that select a rule in [parse_statement]. *)
Definition starts_statement (ty : string) : bool :=
  str_in ty ["IMPORT"; "VAR"; "CONST"; "PRINT"; "IF"; "WHILE"; "FUNC";
             "RETURN"; "ID"].

(** ** Trees without failure markers *)

(** A tree in which no operand, condition, argument, target or statement
    entry is [None].  The initial value of a declaration may be absent: the
    parser leaves it [None] when the source has no initializer. *)
Fixpoint clean (nd : node) : bool :=
  let child := fun o : option node =>
    match o with
    | Some n => clean n
    | None => false
    end in
  let optional := fun o : option node =>
    match o with
    | Some n => clean n
    | None => true
    end in
  match nd with
  | Program statements => forallb child statements
  | Integer _ | Float _ | Boolean _ | String _ => true
  | BinOp _ l r => child l && child r
  | UnaryOp _ operand => child operand
  | Location _ => true
  | FunctionCall _ args => forallb child args
  | Print e => child e
  | Assignment loc e => child loc && child e
  | If test consequence alternative =>
      child test && forallb child consequence && forallb child alternative
  | While test body => child test && forallb child body
  | VariableDecl _ _ v => optional v
  | ConstantDecl _ v => optional v
  | FunctionDecl _ params _ body => forallb child params && forallb child body
  | Return e => child e
  | Parameter_ _ _ => true
  | ImportDecl _ => true
  end.

Definition clean_child (o : option node) : bool :=
  match o with
  | Some n => clean n
  | None => false
  end.

Definition clean_optional (o : option node) : bool :=
  match o with
  | Some n => clean n
  | None => true
  end.

Definition clean_list (l : list (option node)) : bool := forallb clean_child l.

(** What a run may do to the parser state: keep the cursor invariant, move
    the cursor forward, append diagnostics. *)
Definition extends (self self' : Parser) : Prop :=
  (current_token self = nth_error tokens (pos self) ->
   current_token self' = nth_error tokens (pos self')) /\
  pos self <= pos self' /\
  exists l, errors self' = (errors self ++ l)%list.

(** A run from [self] with result and final state [run]: the state is
    extended whatever the outcome, and a result returned with the error sink
    as it was satisfies [ok]. *)
Definition sound_run {A} (ok : A -> Prop) (self : Parser)
    (run : outcome A * Parser) : Prop :=
  extends self (snd run) /\
  forall a, fst run = Ret a -> errors (snd run) = errors self -> ok a.

(** The class of the statement that [parse_statement] builds from a leading
    token of type [ty]; [lparen] tells whether the next token is ["("]. *)
Definition statement_class (ty : string) (lparen : bool) : option string :=
  if String.eqb ty "IMPORT" then Some "ImportDecl"
  else if String.eqb ty "VAR" then Some "VariableDecl"
  else if String.eqb ty "CONST" then Some "ConstantDecl"
  else if String.eqb ty "PRINT" then Some "Print"
  else if String.eqb ty "IF" then Some "If"
  else if String.eqb ty "WHILE" then Some "While"
  else if String.eqb ty "FUNC" then Some "FunctionDecl"
  else if String.eqb ty "RETURN" then Some "Return"
  else if String.eqb ty "ID" then
    Some (if lparen then "FunctionCall" else "Assignment")
  else None.

(** [P] holds of every mapping of a document, at any depth. *)
Fixpoint json_all (P : list (string * json) -> bool) (j : json) : bool :=
  match j with
  | JList items => forallb (json_all P) items
  | JDict fields =>
      P fields && forallb (fun kv => json_all P (snd kv)) fields
  | _ => true
  end.

(** A mapping whose first key is ["type"] and that has no key ["errors"]. *)
Definition type_first_no_errors (fields : list (string * json)) : bool :=
  match fields with
  | (k, _) :: _ =>
      String.eqb k "type" &&
      negb (existsb (fun kv => String.eqb (fst kv) "errors") fields)
  | [] => false
  end.

(** [P] holds of the node in [o], if there is one. *)
Definition opt_holds (P : node -> Prop) (o : option node) : Prop :=
  match o with
  | Some n => P n
  | None => True
  end.

(** What a run from [self] returns, when it returns, satisfies [P]. *)
Definition returns_at {A} (P : A -> Prop) (run : outcome A * Parser) : Prop :=
  forall a, fst run = Ret a -> P a.

(** No list of the document, at any depth, has a null element. *)
Fixpoint no_null_items (j : json) : bool :=
  match j with
  | JList items =>
      forallb (fun i => match i with
                        | JNull => false
                        | _ => no_null_items i
                        end) items
  | JDict fields => forallb (fun kv => no_null_items (snd kv)) fields
  | _ => true
  end.

(** The parser state with the cursor on position [p]. *)
Definition at_pos (p : nat) (error_handler : list diagnostic) : Parser :=
  {| pos := p; current_token := nth_error tokens p; errors := error_handler |}.

(** An [INTEGER] token whose text the host reads as [z]. *)
Definition literal_operand (t : Token) (z : Z) : Prop :=
  type t = "INTEGER" /\ py_int (value t) = Some z.

(** The tokens of [operator literal operator literal ...]. *)
Definition chain_tokens (rest : list (Token * (Token * Z))) : list Token :=
  flat_map (fun x => [fst x; fst (snd x)]) rest.

(** [BinOp(op, node, Integer(z))] for each [operator literal] in turn. *)
Definition left_nested (first : option node)
    (rest : list (Token * (Token * Z))) : option node :=
  fold_left (fun acc x => Some (BinOp (value (fst x)) acc
                                  (Some (Integer (snd (snd x))))))
    rest first.

(** An additive operator token followed by an integer literal token. *)
Definition additive_step (x : Token * (Token * Z)) : Prop :=
  str_in (type (fst x)) ["PLUS"; "MINUS"] = true /\
  literal_operand (fst (snd x)) (snd (snd x)).

(** The results of the calls of [parse_statement] that the loop of a block
    makes from [self], in order, until the cursor is on [RBRACE] or past
    the end, and the state the loop ends in. *)
Inductive block_run (parse_statement : M (option node))
    : Parser -> list (option node) -> Parser -> Prop :=
| block_done self :
    cur_is_not "RBRACE" self = false ->
    block_run parse_statement self [] self
| block_step self r s1 l s2 :
    cur_is_not "RBRACE" self = true ->
    parse_statement self = (Ret r, s1) ->
    block_run parse_statement s1 l s2 ->
    block_run parse_statement self (r :: l) s2.

(** The statements of [parse_if] before the loop of the consequence. *)
Definition if_header (parse_expression : M (option node)) : M (option node) :=
  expect "IF" None ;;;
  test <- parse_expression ;;
  expect "LBRACE" (Some "Missing '{' after if condition") ;;;
  ret test.

(** The statements of [parse_if] between [ELSE] and the loop of the
    alternative. *)
Definition else_header : M unit :=
  advance ;;;
  expect "LBRACE" (Some "Missing '{' after else") ;;;
  ret tt.

(** The statements of [parse_while] before the loop of the body. *)
Definition while_header (parse_expression : M (option node))
    : M (option node) :=
  expect "WHILE" None ;;;
  test <- parse_expression ;;
  expect "LBRACE" (Some "Missing '{' after while condition") ;;;
  ret test.

(** The statements of [parse_function] before the loop of the body. *)
Definition function_header (fuel : nat) : M (string * list (option node)) :=
  expect "FUNC" None ;;;
  name <- cur_attr value ;;
  expect "ID" (Some "Expected function name after FUNC keyword") ;;;
  expect "LPAREN" (Some "Expected '(' after function name in declaration") ;;;
  ty <- cur_attr type ;;
  params <- (if negb (String.eqb ty "RPAREN") then
               param_name <- cur_attr value ;;
               expect "ID" (Some "Expected parameter name") ;;;
               parse_more_params fuel [Some (Parameter_ param_name None)]
             else ret []) ;;
  expect "RPAREN" (Some "Expected ')' after parameters in function declaration") ;;;
  expect "LBRACE" (Some "Expected '{' to start function body") ;;;
  ret (name, params).

(** ** Invariant, lexer contract and outcome predicate *)

(** [current_token] is the token under the cursor. *)
Definition wf (self : Parser) : Prop :=
  current_token self = nth_error tokens (pos self).

Definition remaining (self : Parser) : nat := List.length tokens - pos self.

(** The lexer's contract on literals: the text of an [INTEGER] token is one
    that [int()] accepts, the text of a [FLOAT] token one that [float()]
    accepts. *)
Definition literal_ok (t : Token) : Prop :=
  (type t = "INTEGER" -> py_int (value t) <> None) /\
  (type t = "FLOAT" -> py_float (value t) <> None).

Definition literals_ok : Prop := Forall literal_ok tokens.

(** A run that does not exhaust its fuel: a normal return satisfies [Q], an
    [AttributeError] is raised with the cursor at the end of the input, and a
    [ValueError] only if a literal breaks the lexer's contract. *)
Definition res_ok {A} (r : outcome A * Parser) (Q : A -> Parser -> Prop) : Prop :=
  match r with
  | (Ret a, self') => Q a self'
  | (Raise AttributeError, self') => wf self' /\ current_token self' = None
  | (Raise ValueError, _) => ~ literals_ok
  | (OutOfFuel, _) => False
  end.

Definition advanced {A} (self : Parser) : A -> Parser -> Prop :=
  fun _ self' => wf self' /\ pos self < pos self'.

Definition not_back {A} (self : Parser) : A -> Parser -> Prop :=
  fun _ self' => wf self' /\ pos self <= pos self'.

(** ** Basic facts *)

Lemma res_ok_bind {A B} (m : M A) (f : A -> M B) self Q :
  res_ok (m self) (fun a self' => res_ok (f a self') Q) ->
  res_ok (bind m f self) Q.
Proof.
  unfold bind, res_ok.
  destruct (m self) as [[a | [ | ] | ] self']; auto.
Qed.

Lemma res_ok_weaken {A} (r : outcome A * Parser) (Q Q' : A -> Parser -> Prop) :
  res_ok r Q -> (forall a self', Q a self' -> Q' a self') -> res_ok r Q'.
Proof.
  unfold res_ok.
  destruct r as [[a | [ | ] | ] self']; auto.
Qed.

Lemma wf_some self t :
  wf self -> current_token self = Some t ->
  pos self < List.length tokens /\ In t tokens.
Proof.
  unfold wf. intros Hwf Hc. rewrite Hc in Hwf. symmetry in Hwf. split.
  - apply nth_error_Some. congruence.
  - eapply nth_error_In; eauto.
Qed.

Lemma wf_none self :
  wf self -> current_token self = None -> List.length tokens <= pos self.
Proof.
  unfold wf. intros Hwf Hc. rewrite Hc in Hwf. symmetry in Hwf.
  now apply nth_error_None.
Qed.

Lemma wf_init error_handler : wf (Parser_init error_handler).
Proof. unfold wf, Parser_init. simpl. now destruct tokens. Qed.

Lemma advance_eq self :
  advance self =
  (Ret tt, {| pos := S (pos self);
              current_token := nth_error tokens (S (pos self));
              errors := errors self |}).
Proof.
  unfold advance. cbv zeta.
  destruct (Nat.ltb (S (pos self)) (List.length tokens)) eqn:E; auto.
  apply Nat.ltb_ge in E. apply nth_error_None in E. now rewrite E.
Qed.

Lemma advance_ok self :
  res_ok (advance self)
    (fun _ self' => wf self' /\ pos self' = S (pos self) /\ errors self' = errors self).
Proof. rewrite advance_eq. simpl. unfold wf. simpl. auto. Qed.

Lemma cur_is_some ty self :
  cur_is ty self = true -> exists t, current_token self = Some t /\ type t = ty.
Proof.
  unfold cur_is. destruct (current_token self) as [t | ]; [ | discriminate].
  intros H. apply String.eqb_eq in H. eauto.
Qed.

Lemma cur_in_some tys self :
  cur_in tys self = true -> exists t, current_token self = Some t.
Proof.
  unfold cur_in. destruct (current_token self) as [t | ]; [eauto | discriminate].
Qed.

Lemma cur_is_not_some ty self :
  cur_is_not ty self = true -> exists t, current_token self = Some t.
Proof.
  unfold cur_is_not. destruct (current_token self) as [t | ]; [eauto | discriminate].
Qed.

Lemma cur_attr_ok {A} (attr : Token -> A) self :
  wf self ->
  res_ok (cur_attr attr self)
    (fun a self' => self' = self /\ exists t, current_token self = Some t /\ a = attr t).
Proof.
  intros Hwf. unfold cur_attr.
  destruct (current_token self) as [t | ] eqn:E; simpl; eauto.
Qed.

Lemma add_error_ok message line self :
  wf self ->
  res_ok (add_error message line self)
    (fun _ self' => wf self' /\ pos self' = pos self /\
                    current_token self' = current_token self).
Proof. intros Hwf. unfold add_error, wf in *. simpl. auto. Qed.

(** [expect] never moves the cursor back and never raises. *)
Lemma expect_ok ty msg self :
  wf self -> res_ok (expect ty msg self) (not_back self).
Proof.
  intros Hwf. unfold expect.
  destruct (cur_is ty self) eqn:E.
  - unfold bind, cur. rewrite advance_eq. simpl. unfold not_back, wf. simpl. auto.
  - cbv zeta. destruct (current_token self) eqn:Ec;
      unfold bind, add_error, ret; simpl; unfold not_back, wf in *; simpl; auto.
Qed.

(** On a token of the requested type, [expect] moves the cursor forward. *)
Lemma expect_ok_match ty msg self :
  wf self -> cur_is ty self = true ->
  res_ok (expect ty msg self) (advanced self).
Proof.
  intros Hwf E. unfold expect. rewrite E.
  unfold bind, cur. rewrite advance_eq. simpl. unfold advanced, wf. simpl. auto.
Qed.

(** ** Termination and cursor progress: expressions *)

Ltac cursor :=
  unfold advanced, not_back, remaining in *; intuition (subst; auto; try lia).

Ltac bind_with lem :=
  apply res_ok_bind; eapply res_ok_weaken;
  [ apply lem; try solve [cursor] | cbv beta; intros ? ? ? ].

Lemma cur_some_remaining self t :
  wf self -> current_token self = Some t -> 0 < remaining self.
Proof.
  intros Hwf Hc. destruct (wf_some _ _ Hwf Hc). unfold remaining. lia.
Qed.

Section ExpressionProgress.

Variable rec : M (option node).
Variable f : nat.
Hypothesis Hrec :
  forall s, wf s -> remaining s < f -> res_ok (rec s) (advanced s).

Lemma parse_more_args_ok k : forall args self,
  wf self -> remaining self <= k -> remaining self <= f ->
  res_ok (parse_more_args rec k args self) (not_back self).
Proof.
  induction k as [ | k IH]; intros args self Hwf Hk Hf; simpl;
    destruct (cur_is "COMMA" self) eqn:E; try (simpl; cursor; fail).
  - apply cur_is_some in E as (t & Ht & _).
    apply (cur_some_remaining _ _ Hwf) in Ht. lia.
  - apply cur_is_some in E as (t & Ht & _).
    apply (cur_some_remaining _ _ Hwf) in Ht.
    bind_with advance_ok.
    bind_with Hrec.
    eapply res_ok_weaken; [ apply IH | ]; cursor.
Qed.

Lemma parse_args_ok self :
  wf self -> remaining self < f ->
  res_ok (parse_args rec f self) (not_back self).
Proof.
  intros Hwf Hf. unfold parse_args.
  bind_with (@cur_attr_ok string).
  destruct H as (-> & t & Ht & ->).
  destruct (negb (String.eqb (type t) "RPAREN")).
  - bind_with Hrec.
    eapply res_ok_weaken; [ apply parse_more_args_ok | ]; cursor.
  - simpl. cursor.
Qed.

Lemma parse_primary_ok self :
  wf self -> remaining self <= f ->
  res_ok (parse_primary rec f self) (advanced self).
Proof.
  intros Hwf Hf. unfold parse_primary.
  destruct (current_token self) as [token | ] eqn:Hc; [ | simpl; auto].
  pose proof (cur_some_remaining _ _ Hwf Hc) as Hpos.
  destruct (wf_some _ _ Hwf Hc) as [_ Hin].
  destruct (String.eqb (type token) "INTEGER") eqn:E1.
  { bind_with advance_ok.
    destruct (py_int (value token)) eqn:Ei; simpl; [cursor | ].
    intros Hl. unfold literals_ok in Hl. rewrite Forall_forall in Hl.
    apply String.eqb_eq in E1. destruct (Hl _ Hin) as [Hi _]. now apply Hi. }
  destruct (String.eqb (type token) "FLOAT") eqn:E2.
  { bind_with advance_ok.
    destruct (py_float (value token)) eqn:Ei; simpl; [cursor | ].
    intros Hl. unfold literals_ok in Hl. rewrite Forall_forall in Hl.
    apply String.eqb_eq in E2. destruct (Hl _ Hin) as [_ Hi]. now apply Hi. }
  destruct (String.eqb (type token) "LPAREN") eqn:E3.
  { bind_with advance_ok.
    bind_with Hrec.
    bind_with expect_ok.
    simpl. cursor. }
  destruct (String.eqb (type token) "ID") eqn:E4.
  { bind_with advance_ok.
    destruct (cur_is "LPAREN" self') eqn:E5; [ | simpl; cursor].
    apply cur_is_some in E5 as (t1 & Ht1 & _).
    destruct H as (Hwf1 & Hp1 & _).
    pose proof (cur_some_remaining _ _ Hwf1 Ht1).
    bind_with advance_ok.
    bind_with parse_args_ok.
    bind_with expect_ok.
    simpl. cursor. }
  destruct (str_in (type token) ["TRUE"; "FALSE"]) eqn:E6.
  { bind_with advance_ok. simpl. cursor. }
  destruct (String.eqb (type token) "STRING") eqn:E7.
  { bind_with advance_ok. simpl. cursor. }
  bind_with add_error_ok.
  bind_with advance_ok.
  simpl. cursor.
Qed.

Lemma parse_unary_ok self :
  wf self -> remaining self <= f ->
  res_ok (parse_unary rec f self) (advanced self).
Proof.
  intros Hwf Hf. unfold parse_unary.
  destruct (cur_in ["PLUS"; "MINUS"; "NOT"; "DEREF"] self) eqn:E;
    [ | now apply parse_primary_ok].
  bind_with (@cur_attr_ok string).
  destruct H as (-> & t & Ht & ->).
  bind_with advance_ok.
  bind_with parse_primary_ok.
  simpl. cursor.
Qed.

(** One binary layer over a sub-parser that always moves forward. *)
Lemma binop_loop_ok ops (sub : M (option node)) :
  (forall s, wf s -> remaining s <= f -> res_ok (sub s) (advanced s)) ->
  forall k nd self, wf self -> remaining self <= k -> remaining self <= f ->
  res_ok (binop_loop ops sub k nd self) (not_back self).
Proof.
  intros Hsub. induction k as [ | k IH]; intros nd self Hwf Hk Hf; simpl;
    destruct (cur_in ops self) eqn:E; try (simpl; cursor; fail).
  - apply cur_in_some in E as (t & Ht).
    apply (cur_some_remaining _ _ Hwf) in Ht. lia.
  - apply cur_in_some in E as (t & Ht).
    apply (cur_some_remaining _ _ Hwf) in Ht.
    bind_with (@cur_attr_ok string).
    destruct H as (-> & _).
    bind_with advance_ok.
    bind_with Hsub.
    eapply res_ok_weaken; [ apply IH | ]; cursor.
Qed.

Lemma binop_layer_ok ops (sub : M (option node)) :
  (forall s, wf s -> remaining s <= f -> res_ok (sub s) (advanced s)) ->
  forall self, wf self -> remaining self <= f ->
  res_ok (binop_layer ops sub f self) (advanced self).
Proof.
  intros Hsub self Hwf Hf. unfold binop_layer.
  bind_with Hsub.
  eapply res_ok_weaken; [ apply binop_loop_ok | ]; cursor.
Qed.

Lemma parse_logic_or_ok self :
  wf self -> remaining self <= f ->
  res_ok (parse_logic_or rec f self) (advanced self).
Proof.
  revert self. unfold parse_logic_or, parse_logic_and, parse_comparison,
    parse_term, parse_factor.
  repeat (apply binop_layer_ok). apply parse_unary_ok.
Qed.

End ExpressionProgress.

(** [parse_expression] returns or raises whenever its fuel exceeds the
    number of tokens left, and a normal return has consumed a token. *)
Lemma parse_expression_ok : forall fuel self,
  wf self -> remaining self < fuel ->
  res_ok (parse_expression fuel self) (advanced self).
Proof.
  induction fuel as [ | fuel IH]; intros self Hwf Hf; [lia | ].
  simpl. apply parse_logic_or_ok; auto. lia.
Qed.

(** ** Termination and cursor progress: statements *)

Ltac bind_as lem s H :=
  apply res_ok_bind; eapply res_ok_weaken;
  [ apply lem; try solve [cursor] | cbv beta; intros ? s H ].

Lemma cur_is_of_token ty self t :
  current_token self = Some t -> String.eqb (type t) ty = true ->
  cur_is ty self = true.
Proof. intros Hc E. unfold cur_is. now rewrite Hc. Qed.

Lemma cur_is_remaining ty self :
  wf self -> cur_is ty self = true -> 0 < remaining self.
Proof.
  intros Hwf E. apply cur_is_some in E as (t & Ht & _).
  eapply cur_some_remaining; eauto.
Qed.

Section StatementProgress.

Variable pe ps : M (option node).
Variable f : nat.
Hypothesis Hpe :
  forall s, wf s -> remaining s <= f -> res_ok (pe s) (advanced s).
Hypothesis Hps :
  forall s, wf s -> remaining s < f -> current_token s <> None ->
            res_ok (ps s) (advanced s).

Lemma parse_block_ok k : forall body self,
  wf self -> remaining self <= k -> remaining self < f ->
  res_ok (parse_block ps k body self) (not_back self).
Proof.
  induction k as [ | k IH]; intros body self Hwf Hk Hf; simpl;
    destruct (cur_is_not "RBRACE" self) eqn:E; try (simpl; cursor; fail).
  - apply cur_is_not_some in E as (t & Ht).
    apply (cur_some_remaining _ _ Hwf) in Ht. lia.
  - apply cur_is_not_some in E as (t & Ht).
    bind_with Hps; [congruence | ].
    eapply res_ok_weaken; [ apply IH | ]; cursor.
Qed.

Lemma parse_location_ok self :
  wf self -> cur_is "ID" self = true ->
  res_ok (parse_location self) (advanced self).
Proof.
  intros Hwf E. unfold parse_location.
  bind_as (@cur_attr_ok string) s1 H1. destruct H1 as (-> & _).
  bind_with expect_ok_match.
  simpl. cursor.
Qed.

Lemma parse_print_ok self :
  wf self -> remaining self <= f -> cur_is "PRINT" self = true ->
  res_ok (parse_print pe self) (advanced self).
Proof.
  intros Hwf Hf E. unfold parse_print.
  bind_with expect_ok_match.
  bind_with Hpe.
  bind_with expect_ok.
  simpl. cursor.
Qed.

Lemma parse_return_ok self :
  wf self -> remaining self <= f -> cur_is "RETURN" self = true ->
  res_ok (parse_return pe self) (advanced self).
Proof.
  intros Hwf Hf E. unfold parse_return.
  bind_with expect_ok_match.
  bind_with Hpe.
  bind_with expect_ok.
  simpl. cursor.
Qed.

Lemma parse_assignment_ok self :
  wf self -> remaining self <= f -> cur_is "ID" self = true ->
  res_ok (parse_assignment pe self) (advanced self).
Proof.
  intros Hwf Hf E. unfold parse_assignment.
  bind_with parse_location_ok.
  bind_with expect_ok.
  bind_with Hpe.
  bind_with expect_ok.
  simpl. cursor.
Qed.

Lemma parse_import_ok self :
  wf self -> cur_is "IMPORT" self = true ->
  res_ok (parse_import self) (advanced self).
Proof.
  intros Hwf E. unfold parse_import.
  bind_with expect_ok_match.
  bind_with expect_ok.
  destruct a0 as [tk | ]; [ | simpl; cursor].
  bind_with expect_ok.
  simpl. cursor.
Qed.

Lemma parse_if_ok self :
  wf self -> remaining self <= f -> cur_is "IF" self = true ->
  res_ok (parse_if pe ps f self) (advanced self).
Proof.
  intros Hwf Hf E. unfold parse_if.
  pose proof (cur_is_remaining _ _ Hwf E) as Hpos.
  bind_with expect_ok_match.
  bind_with Hpe.
  bind_with expect_ok.
  bind_with parse_block_ok.
  bind_as expect_ok s5 H5.
  destruct (cur_is "ELSE" s5) eqn:E5; [ | simpl; cursor].
  bind_with advance_ok.
  bind_with expect_ok.
  bind_with parse_block_ok.
  bind_with expect_ok.
  simpl. cursor.
Qed.

Lemma parse_while_ok self :
  wf self -> remaining self <= f -> cur_is "WHILE" self = true ->
  res_ok (parse_while pe ps f self) (advanced self).
Proof.
  intros Hwf Hf E. unfold parse_while.
  pose proof (cur_is_remaining _ _ Hwf E) as Hpos.
  bind_with expect_ok_match.
  bind_with Hpe.
  bind_with expect_ok.
  bind_with parse_block_ok.
  bind_with expect_ok.
  simpl. cursor.
Qed.

Lemma parse_declaration_ok self t :
  wf self -> remaining self <= f -> current_token self = Some t ->
  res_ok (parse_declaration pe self) (advanced self).
Proof.
  intros Hwf Hf Hc. unfold parse_declaration.
  bind_as (@cur_attr_ok string) s1 H1. destruct H1 as (-> & _).
  bind_as advance_ok s2 H2.
  bind_as (@cur_attr_ok string) s3 H3. destruct H3 as (-> & _).
  bind_as expect_ok s4 H4.
  apply res_ok_bind.
  apply res_ok_weaken with (Q := not_back s4).
  { destruct (cur_is "ID" s4) eqn:E4; [ | simpl; cursor].
    bind_as (@cur_attr_ok string) s5 H5. destruct H5 as (-> & _).
    bind_with advance_ok. simpl. cursor. }
  cbv beta. intros var_type s6 H6.
  apply res_ok_bind.
  apply res_ok_weaken with (Q := not_back s6).
  { destruct (cur_is "ASSIGN" s6) eqn:E6; [ | simpl; cursor].
    bind_with advance_ok.
    eapply res_ok_weaken; [apply Hpe | ]; cursor. }
  cbv beta. intros val s7 H7.
  apply res_ok_bind.
  apply res_ok_weaken with (Q := not_back s7).
  { destruct (cur_is "SEMI" s7) eqn:E7; [ | simpl; cursor].
    eapply res_ok_weaken; [apply advance_ok | ]; cursor. }
  cbv beta. intros u s8 H8.
  simpl. cursor.
Qed.

Lemma parse_function_call_ok self :
  wf self -> remaining self <= f -> cur_is "ID" self = true ->
  res_ok (parse_function_call pe f self) (advanced self).
Proof.
  intros Hwf Hf E. unfold parse_function_call.
  pose proof (cur_is_remaining _ _ Hwf E) as Hpos.
  bind_as (@cur_attr_ok string) s1 H1. destruct H1 as (-> & _).
  bind_with expect_ok_match.
  bind_with expect_ok.
  bind_with (parse_args_ok pe f); [intros; apply Hpe; cursor | ].
  bind_with expect_ok.
  bind_with expect_ok.
  simpl. cursor.
Qed.

Lemma parse_more_params_ok k : forall params self,
  wf self -> remaining self <= k ->
  res_ok (parse_more_params k params self) (not_back self).
Proof.
  induction k as [ | k IH]; intros params self Hwf Hk; simpl;
    destruct (cur_is "COMMA" self) eqn:E; try (simpl; cursor; fail).
  - apply cur_is_some in E as (t & Ht & _).
    apply (cur_some_remaining _ _ Hwf) in Ht. lia.
  - bind_as advance_ok s1 H1.
    bind_as (@cur_attr_ok string) s2 H2. destruct H2 as (-> & _).
    bind_with expect_ok.
    eapply res_ok_weaken; [ apply IH | ]; cursor.
Qed.

Lemma parse_function_ok self :
  wf self -> remaining self <= f -> cur_is "FUNC" self = true ->
  res_ok (parse_function ps f self) (advanced self).
Proof.
  intros Hwf Hf E. unfold parse_function.
  pose proof (cur_is_remaining _ _ Hwf E) as Hpos.
  bind_as expect_ok_match s1 H1.
  bind_as (@cur_attr_ok string) s2 H2. destruct H2 as (-> & _).
  bind_as expect_ok s3 H3.
  bind_as expect_ok s4 H4.
  bind_as (@cur_attr_ok string) s5 H5. destruct H5 as (-> & t & _ & ->).
  apply res_ok_bind.
  apply res_ok_weaken with (Q := not_back s4).
  { destruct (negb (String.eqb (type t) "RPAREN")); [ | simpl; cursor].
    bind_as (@cur_attr_ok string) s6 H6. destruct H6 as (-> & _).
    bind_with expect_ok.
    eapply res_ok_weaken; [ apply parse_more_params_ok | ]; cursor. }
  cbv beta. intros params s7 H7.
  bind_with expect_ok.
  bind_with expect_ok.
  bind_with parse_block_ok.
  bind_with expect_ok.
  simpl. cursor.
Qed.

Lemma parse_statement_body_ok self :
  wf self -> remaining self <= f -> current_token self <> None ->
  res_ok (parse_statement_body pe ps f self) (advanced self).
Proof.
  intros Hwf Hf Hc. unfold parse_statement_body.
  destruct (current_token self) as [t | ] eqn:Ht; [clear Hc | congruence].
  destruct (String.eqb (type t) "IMPORT") eqn:E1.
  { apply parse_import_ok; eauto using cur_is_of_token. }
  destruct (str_in (type t) ["VAR"; "CONST"]) eqn:E2.
  { bind_with (parse_declaration_ok self t).
    bind_with expect_ok. simpl. cursor. }
  destruct (String.eqb (type t) "PRINT") eqn:E3.
  { apply parse_print_ok; eauto using cur_is_of_token. }
  destruct (String.eqb (type t) "IF") eqn:E4.
  { apply parse_if_ok; eauto using cur_is_of_token. }
  destruct (String.eqb (type t) "WHILE") eqn:E5.
  { apply parse_while_ok; eauto using cur_is_of_token. }
  destruct (String.eqb (type t) "FUNC") eqn:E6.
  { apply parse_function_ok; eauto using cur_is_of_token. }
  destruct (String.eqb (type t) "RETURN") eqn:E7.
  { apply parse_return_ok; eauto using cur_is_of_token. }
  destruct (String.eqb (type t) "ID") eqn:E8.
  { destruct (peek_is_lparen self).
    - apply parse_function_call_ok; eauto using cur_is_of_token.
    - apply parse_assignment_ok; eauto using cur_is_of_token. }
  bind_with add_error_ok.
  bind_with advance_ok.
  simpl. cursor.
Qed.

End StatementProgress.

(** On a token, [parse_statement] returns or raises whenever its fuel
    exceeds the number of tokens left, and a normal return has moved the
    cursor forward. *)
Lemma parse_statement_ok : forall fuel self,
  wf self -> remaining self < fuel -> current_token self <> None ->
  res_ok (parse_statement fuel self) (advanced self).
Proof.
  induction fuel as [ | fuel IH]; intros self Hwf Hf Hc; [lia | ].
  cbn [parse_statement]. apply parse_statement_body_ok; auto; try lia.
  intros s Hs Hr. apply parse_expression_ok; auto. lia.
Qed.

(** ** The top-level loop *)

Lemma parse_loop_ok sf k : forall statements self,
  wf self -> remaining self <= k -> remaining self < sf ->
  res_ok (parse_loop sf k statements self)
    (fun _ self' => wf self' /\ current_token self' = None).
Proof.
  induction k as [ | k IH]; intros statements self Hwf Hk Hsf; simpl;
    destruct (current_token self) as [t | ] eqn:Ht; try (simpl; auto; fail).
  - apply (cur_some_remaining _ _ Hwf) in Ht. lia.
  - pose proof (cur_some_remaining _ _ Hwf Ht) as Hpos.
    bind_as parse_statement_ok s1 H1; [congruence | ].
    destruct a as [stmt | ].
    + apply IH; cursor.
    + bind_as advance_ok s2 H2. apply IH; cursor.
Qed.

Lemma parse_ok fuel self :
  wf self -> remaining self < fuel ->
  res_ok (parse fuel self) (fun _ self' => wf self' /\ current_token self' = None).
Proof.
  intros Hwf Hf. unfold parse.
  bind_with parse_loop_ok.
  simpl. cursor.
Qed.

(** The loop of [parse] only appends statement objects. *)
Lemma parse_loop_no_none sf k : forall statements self r self',
  Forall (fun o => o <> None) statements ->
  parse_loop sf k statements self = (Ret r, self') ->
  Forall (fun o => o <> None) r.
Proof.
  induction k as [ | k IH]; intros statements self r self' Hall; simpl;
    destruct (current_token self) as [t | ]; try congruence.
  all: try (intros H; injection H as <- _; exact Hall).
  unfold bind.
  destruct (parse_statement sf self) as [[[stmt | ] | e | ] s1]; try congruence.
  - apply IH. apply Forall_app. split; [exact Hall | ].
    constructor; [congruence | constructor].
  - destruct (advance s1) as [[[] | e | ] s2]; try congruence.
    now apply IH.
Qed.

(** ** Properties of the parser *)

(** C4: for every token sequence, [parse] with any fuel above the input
    length returns or raises (it never runs out of fuel, so the run is
    bounded by the input size); when the literals respect the lexer's
    contract the cursor is then at the end of the sequence; and every
    statement attempt on a token that returns has moved the cursor strictly
    forward. *)
Theorem parse_terminates_cursor_at_end (error_handler : list diagnostic)
    (fuel : nat) :
  List.length tokens < fuel ->
  let run := parse fuel (Parser_init error_handler) in
  fst run <> OutOfFuel /\
  (literals_ok ->
   current_token (snd run) = None /\ List.length tokens <= pos (snd run)) /\
  (forall fuel' self r self',
     wf self -> remaining self < fuel' -> current_token self <> None ->
     parse_statement fuel' self = (Ret r, self') -> pos self < pos self').
Proof.
  intros Hfuel. cbv zeta.
  pose proof (parse_ok fuel (Parser_init error_handler) (wf_init _)) as H.
  assert (Hr : remaining (Parser_init error_handler) < fuel)
    by (unfold remaining, Parser_init; simpl; lia).
  specialize (H Hr). unfold res_ok in H.
  split; [ | split].
  - destruct (parse _ _) as [[nd | [ | ] | ] s']; simpl; congruence.
  - intros Hlit.
    destruct (parse _ _) as [[nd | [ | ] | ] s']; simpl; try tauto.
    + destruct H as [Hwf Hc]. split; [exact Hc | now apply wf_none].
    + destruct H as [Hwf Hc]. split; [exact Hc | now apply wf_none].
  - intros fuel' self r self' Hwf Hf Hc Hrun.
    pose proof (parse_statement_ok fuel' self Hwf Hf Hc) as H'.
    rewrite Hrun in H'. simpl in H'. apply H'.
Qed.

Lemma parse_returns_program fuel self nd self' :
  parse fuel self = (Ret nd, self') ->
  exists statements,
    nd = Program statements /\
    parse_loop fuel fuel [] self = (Ret statements, self').
Proof.
  unfold parse, bind.
  destruct (parse_loop fuel fuel [] self) as [[statements | e | ] s1];
    try congruence.
  unfold ret. intros H. injection H as <- <-. eauto.
Qed.

(** C5: a document returned by [to_json] has the key ["errors"] exactly
    when the error sink holds a diagnostic after parsing; in that case it is
    the one-key mapping of the diagnostics, otherwise it is the serialized
    [Program], whose keys are ["type"] and ["statements"]; and [to_json]
    returns a document whenever [parse] returns. *)
Theorem to_json_two_shapes (fuel : nat) (self : Parser) :
  (forall d self',
     to_json fuel self = (Ret d, self') ->
     json_has_key "errors" d = has_errors (errors self') /\
     (has_errors (errors self') = true ->
      d = JDict [("errors", JList (map json_of_diagnostic (errors self')))]) /\
     (has_errors (errors self') = false ->
      exists statements,
        parse fuel self = (Ret (Program statements), self') /\
        d = _serialize_ast (Program statements) /\
        d = JDict [("type", JStr "Program");
                   ("statements", serialize_list statements)])) /\
  (forall ast self',
     parse fuel self = (Ret ast, self') ->
     exists d, to_json fuel self = (Ret d, self')).
Proof.
  split.
  - intros d self'. unfold to_json, bind.
    destruct (parse fuel self) as [[ast | e | ] s1] eqn:Hp; try congruence.
    destruct (parse_returns_program _ _ _ _ Hp) as (statements & -> & _).
    destruct (has_errors (errors s1)) eqn:He; intros H; injection H as <- <-;
      rewrite He.
    + repeat split; congruence.
    + repeat split; try congruence. intros _. exists statements.
      repeat split.
  - intros ast self' Hp. unfold to_json, bind. rewrite Hp.
    destruct (has_errors (errors self')); eauto.
Qed.

(** C6: on a current token of the requested type [expect] returns it and
    moves the cursor to the next token; otherwise it returns the failure
    marker, leaves the cursor where it is and appends one diagnostic: the
    given message, or ["Expected <token_type>"] when none is given, with the
    current token's line, or ["End of file"] when no token is left.  It
    never raises. *)
Theorem expect_contract (token_type : string) (err_msg : option string)
    (self : Parser) :
  (forall t, current_token self = Some t -> type t = token_type ->
     expect token_type err_msg self =
     (Ret (Some t),
      {| pos := S (pos self);
         current_token := nth_error tokens (S (pos self));
         errors := errors self |})) /\
  (forall t, current_token self = Some t -> type t <> token_type ->
     expect token_type err_msg self =
     (Ret None,
      {| pos := pos self;
         current_token := current_token self;
         errors := errors self ++
                   [(expect_message token_type err_msg, LineNo (lineno t))] |})) /\
  (current_token self = None ->
     expect token_type err_msg self =
     (Ret None,
      {| pos := pos self;
         current_token := current_token self;
         errors := errors self ++
                   [(expect_message token_type err_msg, LineText "End of file")] |})) /\
  expect_message token_type None = "Expected " ++ token_type /\
  (forall m, m <> "" -> expect_message token_type (Some m) = m).
Proof.
  repeat split.
  - intros t Hc Hty. unfold expect, cur_is. rewrite Hc.
    apply String.eqb_eq in Hty. rewrite Hty.
    unfold bind, cur. rewrite advance_eq. simpl. now rewrite Hc.
  - intros t Hc Hty. destruct self as [p c e]. simpl in *. subst c.
    unfold expect, cur_is. simpl.
    apply String.eqb_neq in Hty. rewrite Hty. reflexivity.
  - intros Hc. destruct self as [p c e]. simpl in *. subst c. reflexivity.
  - intros m Hm. destruct m; [congruence | reflexivity].
Qed.

(** C7 (amended): for every node other than [VariableDecl] and
    [Parameter], the serializer emits a mapping whose ["type"] is the
    variant name and whose other keys are the fixed keys of the variant's
    branch; [Print] stores its [expr] under ["expression"], [FunctionCall]
    its [args] under ["arguments"], [Assignment] its [location] under
    ["target"] and its [expr] under ["value"], [Return] its [expr] under
    ["value"]. *)
Theorem serialize_type_and_keys (nd : node) :
  stores_type_attribute nd = false ->
  exists fields,
    _serialize_ast nd = JDict fields /\
    dict_get fields "type" = Some (JStr (class_name nd)) /\
    dict_keys fields = "type" :: emitted_keys nd /\
    match nd with
    | Print e => dict_get fields "expression" = Some (serialize e)
    | FunctionCall _ args =>
        dict_get fields "arguments" = Some (serialize_list args)
    | Assignment loc e =>
        dict_get fields "target" = Some (serialize loc) /\
        dict_get fields "value" = Some (serialize e)
    | Return e => dict_get fields "value" = Some (serialize e)
    | _ => True
    end.
Proof.
  destruct nd; simpl; intros H; try discriminate H;
    eexists; repeat split; reflexivity.
Qed.

Lemma starts_statement_false ty :
  starts_statement ty = false ->
  String.eqb ty "IMPORT" = false /\ str_in ty ["VAR"; "CONST"] = false /\
  String.eqb ty "PRINT" = false /\ String.eqb ty "IF" = false /\
  String.eqb ty "WHILE" = false /\ String.eqb ty "FUNC" = false /\
  String.eqb ty "RETURN" = false /\ String.eqb ty "ID" = false.
Proof.
  unfold starts_statement, str_in. simpl.
  destruct (String.eqb ty "IMPORT"), (String.eqb ty "VAR"),
    (String.eqb ty "CONST"), (String.eqb ty "PRINT"), (String.eqb ty "IF"),
    (String.eqb ty "WHILE"), (String.eqb ty "FUNC"), (String.eqb ty "RETURN"),
    (String.eqb ty "ID"); simpl; intros H; try discriminate H; tauto.
Qed.

(** A token that selects no rule: one diagnostic, one token skipped, and the
    failure marker. *)
Lemma parse_statement_unexpected fuel self t :
  current_token self = Some t -> starts_statement (type t) = false ->
  parse_statement (S fuel) self =
  (Ret None,
   {| pos := S (pos self);
      current_token := nth_error tokens (S (pos self));
      errors := errors self ++
                [("Unexpected token type: " ++ type t, LineNo (lineno t))] |}).
Proof.
  intros Hc Hs. cbn [parse_statement]. unfold parse_statement_body.
  rewrite Hc.
  destruct (starts_statement_false _ Hs) as (-> & -> & -> & -> & -> & -> & -> & ->).
  unfold bind, add_error. rewrite advance_eq. reflexivity.
Qed.

(** At top level the same token costs two cursor steps: the one of
    [parse_statement] and the one of the loop of [parse]. *)
Lemma parse_loop_unexpected sf fuel statements self t :
  current_token self = Some t -> starts_statement (type t) = false ->
  parse_loop (S sf) (S fuel) statements self =
  parse_loop (S sf) fuel statements
    {| pos := S (S (pos self));
       current_token := nth_error tokens (S (S (pos self)));
       errors := errors self ++
                 [("Unexpected token type: " ++ type t, LineNo (lineno t))] |}.
Proof.
  intros Hc Hs. cbn [parse_loop]. rewrite Hc. unfold bind.
  rewrite (parse_statement_unexpected sf self t Hc Hs).
  rewrite advance_eq. reflexivity.
Qed.

(** ** The error sink only grows, and a silent run builds a clean tree *)

Lemma extends_refl self : extends self self.
Proof. unfold extends. repeat split; auto. exists []. now rewrite app_nil_r. Qed.

Lemma extends_trans s1 s2 s3 : extends s1 s2 -> extends s2 s3 -> extends s1 s3.
Proof.
  intros (Hw1 & Hp1 & l1 & He1) (Hw2 & Hp2 & l2 & He2). repeat split.
  - auto.
  - lia.
  - exists (l1 ++ l2)%list. now rewrite He2, He1, app_assoc.
Qed.

Lemma extends_same_errors s1 s2 s3 :
  extends s1 s2 -> extends s2 s3 -> errors s3 = errors s1 ->
  errors s2 = errors s1 /\ errors s3 = errors s2.
Proof.
  intros (_ & _ & l1 & He1) (_ & _ & l2 & He2) H.
  rewrite He2, He1, <- app_assoc in H.
  rewrite <- (app_nil_r (errors s1)) in H at 2.
  apply app_inv_head in H. apply app_eq_nil in H as [-> ->].
  rewrite app_nil_r in He1. rewrite app_nil_r in He2. auto.
Qed.

Lemma sound_ret {A} (ok : A -> Prop) (a : A) self :
  ok a -> sound_run ok self (Ret a, self).
Proof.
  intros H. split; simpl.
  - apply extends_refl.
  - intros a' Ha _. now injection Ha as <-.
Qed.

Lemma sound_raise {A} (ok : A -> Prop) e self :
  sound_run ok self (@Raise A e, self).
Proof. split; simpl; [apply extends_refl | discriminate]. Qed.

Lemma sound_out_of_fuel {A} (ok : A -> Prop) self :
  sound_run ok self (@OutOfFuel A, self).
Proof. split; simpl; [apply extends_refl | discriminate]. Qed.

Lemma sound_bind {A B} (okA : A -> Prop) (okB : B -> Prop)
    (m : M A) (f : A -> M B) self :
  sound_run okA self (m self) ->
  (forall a s1, sound_run (fun b => okA a -> okB b) s1 (f a s1)) ->
  sound_run okB self (bind m f self).
Proof.
  unfold sound_run, bind. intros [Hext Hok] Hf.
  destruct (m self) as [[a | e | ] s1]; simpl in *.
  - destruct (Hf a s1) as [Hext' Hok'].
    split; [eapply extends_trans; eauto | ].
    intros b Hb He.
    destruct (extends_same_errors _ _ _ Hext Hext' He) as [He1 He2].
    apply (Hok' b Hb He2). now apply Hok.
  - split; [assumption | discriminate].
  - split; [assumption | discriminate].
Qed.

Lemma sound_weaken {A} (ok ok' : A -> Prop) self (run : outcome A * Parser) :
  sound_run ok self run -> (forall a, ok a -> ok' a) -> sound_run ok' self run.
Proof. intros [Hext Hok] H. split; auto. Qed.

Lemma sound_advance self : sound_run (fun _ => True) self (advance self).
Proof.
  unfold sound_run. rewrite advance_eq. simpl. split; [ | auto].
  unfold extends. simpl. repeat split; auto. exists []. now rewrite app_nil_r.
Qed.

(** After [add_error] the sink differs from what it was: nothing has to be
    shown about the rest of the run. *)
Lemma sound_add_error message line self :
  sound_run (fun _ => False) self (add_error message line self).
Proof.
  unfold sound_run, add_error, add_error_list. simpl. split.
  - unfold extends. simpl. repeat split; auto. eauto.
  - intros _ _ H. rewrite <- (app_nil_r (errors self)) in H at 2.
    apply app_inv_head in H. discriminate.
Qed.

Lemma sound_cur_attr {A} (attr : Token -> A) self :
  sound_run (fun _ => True) self (cur_attr attr self).
Proof.
  unfold sound_run, cur_attr. destruct (current_token self); simpl;
    (split; [apply extends_refl | auto]).
Qed.

Ltac sound_step lem :=
  eapply sound_bind; [ apply lem | cbv beta; intros ? ? ].

Lemma clean_unfold nd :
  clean nd =
  match nd with
  | Program statements => clean_list statements
  | Integer _ | Float _ | Boolean _ | String _ => true
  | BinOp _ l r => clean_child l && clean_child r
  | UnaryOp _ operand => clean_child operand
  | Location _ => true
  | FunctionCall _ args => clean_list args
  | Print e => clean_child e
  | Assignment loc e => clean_child loc && clean_child e
  | If test consequence alternative =>
      clean_child test && clean_list consequence && clean_list alternative
  | While test body => clean_child test && clean_list body
  | VariableDecl _ _ v => clean_optional v
  | ConstantDecl _ v => clean_optional v
  | FunctionDecl _ params _ body => clean_list params && clean_list body
  | Return e => clean_child e
  | Parameter_ _ _ => true
  | ImportDecl _ => true
  end.
Proof. destruct nd; reflexivity. Qed.

Lemma clean_list_app l1 l2 :
  clean_list (l1 ++ l2) = clean_list l1 && clean_list l2.
Proof. apply forallb_app. Qed.

Ltac clean_goal :=
  cbn [clean_child clean_optional] in *; try assumption;
  try rewrite clean_unfold;
  cbv beta iota; try rewrite clean_list_app;
  cbn [clean_list forallb clean_child clean_optional];
  repeat match goal with
         | H : False |- _ => destruct H
         | H : _ = true |- _ => rewrite H
         end;
  auto.

Ltac sound_done := apply sound_ret; cbv beta; intros; clean_goal.

Ltac sound_step_as lem x s :=
  eapply sound_bind; [ apply lem | cbv beta; intros x s ].

(** [expect] returns the failure marker only together with a diagnostic. *)
Lemma sound_expect ty msg self :
  sound_run (fun r => r <> None) self (expect ty msg self).
Proof.
  unfold expect. destruct (cur_is ty self) eqn:E.
  - apply cur_is_some in E as (t & Ht & _).
    unfold bind, cur. rewrite advance_eq. simpl. split; simpl.
    + unfold extends. simpl. repeat split; auto. exists [].
      now rewrite app_nil_r.
    + intros a Ha _. injection Ha as <-. congruence.
  - cbv zeta. destruct (current_token self);
      (sound_step sound_add_error; apply sound_ret; tauto).
Qed.

Section ExpressionSound.

Variable rec : M (option node).
Variable f : nat.
Hypothesis Hrec :
  forall s, sound_run (fun r => clean_child r = true) s (rec s).

Lemma parse_more_args_sound k : forall args self,
  sound_run (fun l => clean_list args = true -> clean_list l = true) self
    (parse_more_args rec k args self).
Proof.
  induction k as [ | k IH]; intros args self; simpl;
    destruct (cur_is "COMMA" self);
    try (apply sound_ret; auto; fail);
    try (apply sound_out_of_fuel).
  sound_step sound_advance.
  sound_step Hrec.
  eapply sound_weaken; [apply IH | ].
  cbv beta. intros l Hl He _ Hargs. apply Hl. clean_goal.
Qed.

Lemma parse_args_sound self :
  sound_run (fun l => clean_list l = true) self (parse_args rec f self).
Proof.
  unfold parse_args. sound_step (@sound_cur_attr string).
  destruct (negb (String.eqb a "RPAREN")).
  - sound_step Hrec.
    eapply sound_weaken; [apply parse_more_args_sound | ].
    cbv beta. intros l Hl He _. apply Hl. clean_goal.
  - sound_done.
Qed.

Lemma parse_primary_sound self :
  sound_run (fun r => clean_child r = true) self (parse_primary rec f self).
Proof.
  unfold parse_primary.
  destruct (current_token self) as [token | ]; [ | apply sound_raise].
  destruct (String.eqb (type token) "INTEGER").
  { sound_step sound_advance.
    destruct (py_int (value token)); [sound_done | apply sound_raise]. }
  destruct (String.eqb (type token) "FLOAT").
  { sound_step sound_advance.
    destruct (py_float (value token)); [sound_done | apply sound_raise]. }
  destruct (String.eqb (type token) "LPAREN").
  { sound_step sound_advance.
    sound_step Hrec.
    sound_step sound_expect.
    sound_done. }
  destruct (String.eqb (type token) "ID").
  { sound_step sound_advance.
    destruct (cur_is "LPAREN" s1); [ | apply sound_ret; auto].
    sound_step sound_advance.
    sound_step parse_args_sound.
    sound_step sound_expect.
    sound_done. }
  destruct (str_in (type token) ["TRUE"; "FALSE"]).
  { sound_step sound_advance. sound_done. }
  destruct (String.eqb (type token) "STRING").
  { sound_step sound_advance. sound_done. }
  sound_step sound_add_error.
  sound_step sound_advance.
  sound_done.
Qed.

Lemma parse_unary_sound self :
  sound_run (fun r => clean_child r = true) self (parse_unary rec f self).
Proof.
  unfold parse_unary.
  destruct (cur_in ["PLUS"; "MINUS"; "NOT"; "DEREF"] self);
    [ | apply parse_primary_sound].
  sound_step (@sound_cur_attr string).
  sound_step sound_advance.
  sound_step parse_primary_sound.
  sound_done.
Qed.

Lemma binop_loop_sound ops (sub : M (option node)) :
  (forall s, sound_run (fun r => clean_child r = true) s (sub s)) ->
  forall k nd self,
    sound_run (fun r => clean_child nd = true -> clean_child r = true) self
      (binop_loop ops sub k nd self).
Proof.
  intros Hsub. induction k as [ | k IH]; intros nd self; simpl;
    destruct (cur_in ops self);
    try (apply sound_ret; auto; fail);
    try (apply sound_out_of_fuel).
  sound_step (@sound_cur_attr string).
  sound_step sound_advance.
  sound_step Hsub.
  eapply sound_weaken; [apply IH | ].
  cbv beta. intros r Hr He _ _ Hnd. apply Hr. clean_goal.
Qed.

Lemma binop_layer_sound ops (sub : M (option node)) :
  (forall s, sound_run (fun r => clean_child r = true) s (sub s)) ->
  forall self,
    sound_run (fun r => clean_child r = true) self (binop_layer ops sub f self).
Proof.
  intros Hsub self. unfold binop_layer.
  sound_step Hsub.
  eapply sound_weaken; [apply binop_loop_sound; exact Hsub | ].
  cbv beta. auto.
Qed.

Lemma parse_logic_or_sound self :
  sound_run (fun r => clean_child r = true) self (parse_logic_or rec f self).
Proof.
  revert self. unfold parse_logic_or, parse_logic_and, parse_comparison,
    parse_term, parse_factor.
  repeat (apply binop_layer_sound). apply parse_unary_sound.
Qed.

End ExpressionSound.

Lemma parse_expression_sound : forall fuel self,
  sound_run (fun r => clean_child r = true) self (parse_expression fuel self).
Proof.
  induction fuel as [ | fuel IH]; intros self.
  - apply sound_out_of_fuel.
  - cbn [parse_expression]. apply parse_logic_or_sound. exact IH.
Qed.

Section StatementSound.

Variable pe ps : M (option node).
Variable f : nat.
Hypothesis Hpe :
  forall s, sound_run (fun r => clean_child r = true) s (pe s).
Hypothesis Hps :
  forall s, current_token s <> None ->
            sound_run (fun r => clean_child r = true) s (ps s).

Lemma parse_block_sound k : forall body self,
  sound_run (fun l => clean_list body = true -> clean_list l = true) self
    (parse_block ps k body self).
Proof.
  induction k as [ | k IH]; intros body self; simpl;
    destruct (cur_is_not "RBRACE" self) eqn:E;
    try (apply sound_ret; auto; fail);
    try (apply sound_out_of_fuel).
  apply cur_is_not_some in E as (t & Ht).
  eapply sound_bind; [apply Hps; congruence | cbv beta; intros ? ? ].
  eapply sound_weaken; [apply IH | ].
  cbv beta. intros l Hl He Hbody. apply Hl. clean_goal.
Qed.

Lemma parse_block_sound_nil k self :
  sound_run (fun l => clean_list l = true) self (parse_block ps k [] self).
Proof.
  eapply sound_weaken; [apply parse_block_sound | ]. cbv beta. auto.
Qed.

Lemma parse_location_sound self :
  sound_run (fun r => clean_child r = true) self (parse_location self).
Proof.
  unfold parse_location.
  sound_step (@sound_cur_attr string).
  sound_step sound_expect.
  sound_done.
Qed.

Lemma parse_print_sound self :
  sound_run (fun r => clean_child r = true) self (parse_print pe self).
Proof.
  unfold parse_print.
  sound_step sound_expect.
  sound_step Hpe.
  sound_step sound_expect.
  sound_done.
Qed.

Lemma parse_return_sound self :
  sound_run (fun r => clean_child r = true) self (parse_return pe self).
Proof.
  unfold parse_return.
  sound_step sound_expect.
  sound_step Hpe.
  sound_step sound_expect.
  sound_done.
Qed.

Lemma parse_assignment_sound self :
  sound_run (fun r => clean_child r = true) self (parse_assignment pe self).
Proof.
  unfold parse_assignment.
  sound_step parse_location_sound.
  sound_step sound_expect.
  sound_step Hpe.
  sound_step sound_expect.
  sound_done.
Qed.

Lemma parse_import_sound self :
  sound_run (fun r => clean_child r = true) self (parse_import self).
Proof.
  unfold parse_import.
  sound_step sound_expect.
  sound_step_as sound_expect module_token s2.
  destruct module_token as [tk | ].
  - sound_step sound_expect. sound_done.
  - apply sound_ret. cbv beta. intros H. now destruct H.
Qed.

Lemma parse_if_sound self :
  sound_run (fun r => clean_child r = true) self (parse_if pe ps f self).
Proof.
  unfold parse_if.
  sound_step sound_expect.
  sound_step Hpe.
  sound_step sound_expect.
  sound_step parse_block_sound_nil.
  sound_step_as sound_expect rb s5.
  destruct (cur_is "ELSE" s5); [ | sound_done].
  sound_step sound_advance.
  sound_step sound_expect.
  sound_step parse_block_sound_nil.
  sound_step sound_expect.
  sound_done.
Qed.

Lemma parse_while_sound self :
  sound_run (fun r => clean_child r = true) self (parse_while pe ps f self).
Proof.
  unfold parse_while.
  sound_step sound_expect.
  sound_step Hpe.
  sound_step sound_expect.
  sound_step parse_block_sound_nil.
  sound_step sound_expect.
  sound_done.
Qed.

Lemma parse_declaration_sound self :
  sound_run (fun nd => clean nd = true) self (parse_declaration pe self).
Proof.
  unfold parse_declaration.
  sound_step_as (@sound_cur_attr string) ty s1.
  sound_step sound_advance.
  sound_step (@sound_cur_attr string).
  sound_step_as sound_expect id_token s4.
  eapply sound_bind with (okA := fun _ : option string => True).
  { cbv beta. destruct (cur_is "ID" s4); [ | apply sound_ret; auto].
    sound_step (@sound_cur_attr string).
    sound_step sound_advance.
    apply sound_ret. auto. }
  cbv beta. intros var_type s5.
  eapply sound_bind with (okA := fun v => clean_optional v = true).
  { cbv beta. destruct (cur_is "ASSIGN" s5); [ | apply sound_ret; auto].
    sound_step sound_advance.
    eapply sound_weaken; [apply Hpe | ].
    cbv beta. intros [n | ]; simpl; auto. }
  cbv beta. intros val s6.
  eapply sound_bind with (okA := fun _ : unit => True).
  { cbv beta. destruct (cur_is "SEMI" s6); [ | apply sound_ret; auto].
    apply sound_advance. }
  cbv beta. intros u s7.
  apply sound_ret. cbv beta. intros.
  destruct (String.eqb ty "CONST"); clean_goal.
Qed.

Lemma parse_function_call_sound self :
  sound_run (fun r => clean_child r = true) self
    (parse_function_call pe f self).
Proof.
  unfold parse_function_call.
  sound_step (@sound_cur_attr string).
  sound_step sound_expect.
  sound_step sound_expect.
  sound_step (parse_args_sound pe f Hpe).
  sound_step sound_expect.
  sound_step sound_expect.
  sound_done.
Qed.

Lemma parse_more_params_sound k : forall params self,
  sound_run (fun l => clean_list params = true -> clean_list l = true) self
    (parse_more_params k params self).
Proof.
  induction k as [ | k IH]; intros params self; simpl;
    destruct (cur_is "COMMA" self);
    try (apply sound_ret; auto; fail);
    try (apply sound_out_of_fuel).
  sound_step sound_advance.
  sound_step (@sound_cur_attr string).
  sound_step sound_expect.
  eapply sound_weaken; [apply IH | ].
  cbv beta. intros l Hl _ _ _ Hparams. apply Hl. clean_goal.
Qed.

Lemma parse_function_sound self :
  sound_run (fun r => clean_child r = true) self (parse_function ps f self).
Proof.
  unfold parse_function.
  sound_step sound_expect.
  sound_step (@sound_cur_attr string).
  sound_step sound_expect.
  sound_step sound_expect.
  sound_step_as (@sound_cur_attr string) ty s5.
  eapply sound_bind with (okA := fun l => clean_list l = true).
  { destruct (negb (String.eqb ty "RPAREN")); [ | apply sound_ret; auto].
    sound_step (@sound_cur_attr string).
    sound_step sound_expect.
    eapply sound_weaken; [apply parse_more_params_sound | ].
    cbv beta. intros l Hl _ _. apply Hl. reflexivity. }
  cbv beta. intros params s6.
  sound_step sound_expect.
  sound_step sound_expect.
  sound_step parse_block_sound_nil.
  sound_step sound_expect.
  sound_done.
Qed.

Lemma parse_statement_body_sound self :
  current_token self <> None ->
  sound_run (fun r => clean_child r = true) self
    (parse_statement_body pe ps f self).
Proof.
  intros Hc. unfold parse_statement_body.
  destruct (current_token self) as [t | ]; [clear Hc | congruence].
  destruct (String.eqb (type t) "IMPORT"); [apply parse_import_sound | ].
  destruct (str_in (type t) ["VAR"; "CONST"]).
  { sound_step parse_declaration_sound.
    sound_step sound_expect.
    sound_done. }
  destruct (String.eqb (type t) "PRINT"); [apply parse_print_sound | ].
  destruct (String.eqb (type t) "IF"); [apply parse_if_sound | ].
  destruct (String.eqb (type t) "WHILE"); [apply parse_while_sound | ].
  destruct (String.eqb (type t) "FUNC"); [apply parse_function_sound | ].
  destruct (String.eqb (type t) "RETURN"); [apply parse_return_sound | ].
  destruct (String.eqb (type t) "ID").
  { destruct (peek_is_lparen self);
      [apply parse_function_call_sound | apply parse_assignment_sound]. }
  sound_step sound_add_error.
  sound_step sound_advance.
  sound_done.
Qed.

End StatementSound.

Lemma parse_statement_sound : forall fuel self,
  current_token self <> None ->
  sound_run (fun r => clean_child r = true) self (parse_statement fuel self).
Proof.
  induction fuel as [ | fuel IH]; intros self Hc.
  - apply sound_out_of_fuel.
  - cbn [parse_statement]. apply parse_statement_body_sound; auto.
    apply parse_expression_sound.
Qed.

Lemma parse_loop_sound sf k : forall statements self,
  sound_run (fun l => clean_list statements = true -> clean_list l = true)
    self (parse_loop sf k statements self).
Proof.
  induction k as [ | k IH]; intros statements self; simpl;
    destruct (current_token self) as [t | ] eqn:Ht;
    try (apply sound_ret; auto; fail);
    try (apply sound_out_of_fuel).
  eapply sound_bind; [apply parse_statement_sound; congruence | ].
  cbv beta. intros [stmt | ] s1.
  - eapply sound_weaken; [apply IH | ].
    cbv beta. intros l Hl He Hs. apply Hl. clean_goal.
  - sound_step sound_advance.
    eapply sound_weaken; [apply IH | ].
    cbv beta. intros l Hl _ He. discriminate He.
Qed.

Lemma parse_sound fuel self :
  sound_run (fun nd => clean nd = true) self (parse fuel self).
Proof.
  unfold parse.
  sound_step parse_loop_sound.
  apply sound_ret. cbv beta. intros H. clean_goal.
Qed.

(** From the initial state, whatever the fuel and the outcome (return,
    exception, fuel exhausted), [parse] leaves [current_token] equal to the
    token under the cursor and the earlier diagnostics at the head of the
    error sink, in their order. *)
Theorem parse_keeps_cursor_and_sink (fuel : nat)
    (error_handler : list diagnostic) :
  let self' := snd (parse fuel (Parser_init error_handler)) in
  current_token self' = nth_error tokens (pos self') /\
  exists l, errors self' = (error_handler ++ l)%list.
Proof.
  cbv zeta.
  destruct (parse_sound fuel (Parser_init error_handler))
    as [(Hwf & _ & l & He) _].
  split.
  - apply Hwf. apply wf_init.
  - exists l. exact He.
Qed.

(** A failure marker always comes with a diagnostic: when [parse_statement]
    (on a token) or [parse_expression] returns [None], the error sink has
    grown by at least one entry. *)
Theorem failure_marker_records_diagnostic (fuel : nat) (self self' : Parser) :
  (parse_statement fuel self = (Ret None, self') ->
   current_token self <> None ->
   exists d l, errors self' = (errors self ++ d :: l)%list) /\
  (parse_expression fuel self = (Ret None, self') ->
   exists d l, errors self' = (errors self ++ d :: l)%list).
Proof.
  split.
  - intros Hrun Hc.
    destruct (parse_statement_sound fuel self Hc) as [(_ & _ & l & He) Hok].
    rewrite Hrun in He, Hok. simpl in He, Hok.
    destruct l as [ | d l]; [ | eauto].
    rewrite app_nil_r in He. specialize (Hok None eq_refl He). discriminate.
  - intros Hrun.
    destruct (parse_expression_sound fuel self) as [(_ & _ & l & He) Hok].
    rewrite Hrun in He, Hok. simpl in He, Hok.
    destruct l as [ | d l]; [ | eauto].
    rewrite app_nil_r in He. specialize (Hok None eq_refl He). discriminate.
Qed.

(** A run of [parse] that returns with the error sink as it found it has
    built a tree without failure markers: no statement entry, operand,
    condition, argument or assignment target is [None], at any depth. *)
Theorem silent_parse_is_clean (fuel : nat) (self : Parser) (nd : node)
    (self' : Parser) :
  parse fuel self = (Ret nd, self') ->
  errors self' = errors self ->
  clean nd = true.
Proof.
  intros Hrun He.
  destruct (parse_sound fuel self) as [_ Hok].
  rewrite Hrun in Hok. simpl in Hok. now apply Hok.
Qed.

Lemma to_json_clean_tree fuel self d self' :
  to_json fuel self = (Ret d, self') ->
  json_has_key "errors" d = false ->
  errors self = [] /\
  exists statements,
    d = _serialize_ast (Program statements) /\
    clean (Program statements) = true.
Proof.
  intros Hrun Hkey. unfold to_json, bind in Hrun.
  destruct (parse_sound fuel self) as [(_ & _ & l & He) Hok].
  destruct (parse fuel self) as [[ast | e | ] s1] eqn:Hp; try discriminate Hrun.
  destruct (parse_returns_program _ _ _ _ Hp) as (statements & -> & _).
  simpl in He, Hok.
  destruct (has_errors (errors s1)) eqn:Hh; injection Hrun as <- <-.
  - discriminate Hkey.
  - assert (He' : errors s1 = [])
      by (destruct (errors s1); [reflexivity | discriminate Hh]).
    rewrite He' in He. symmetry in He. apply app_eq_nil in He as [Hs _].
    split; [exact Hs | ].
    exists statements. split; [reflexivity | ].
    apply Hok; [reflexivity | congruence].
Qed.

(** A document of [to_json] without the key ["errors"] is the serialization
    of a tree without failure markers, and the error sink was empty before
    the run. *)
Theorem to_json_document_is_clean (fuel : nat) (self : Parser) (d : json)
    (self' : Parser) :
  to_json fuel self = (Ret d, self') ->
  json_has_key "errors" d = false ->
  errors self = [] /\
  exists statements,
    d = _serialize_ast (Program statements) /\
    clean (Program statements) = true.
Proof. apply to_json_clean_tree. Qed.

(** Diagnostics already in the error sink (those of the tokenizer) suppress
    the tree: a document returned by [to_json] is then the ["errors"]
    mapping, and it lists the earlier diagnostics first. *)
Theorem earlier_diagnostics_suppress_tree (fuel : nat) (self : Parser)
    (d : json) (self' : Parser) :
  errors self <> [] ->
  to_json fuel self = (Ret d, self') ->
  exists l,
    d = JDict [("errors",
                JList (map json_of_diagnostic (errors self ++ l)%list))].
Proof.
  intros Hne Hrun. unfold to_json, bind in Hrun.
  destruct (parse_sound fuel self) as [(_ & _ & l & He) _].
  destruct (parse fuel self) as [[ast | e | ] s1]; try discriminate Hrun.
  simpl in He. exists l.
  destruct (has_errors (errors s1)) eqn:Hh.
  - injection Hrun as <- <-. now rewrite He.
  - rewrite He in Hh. destruct (errors self); [congruence | discriminate Hh].
Qed.

(** ** The statement a leading token selects *)

Lemma returns_bind {A B} (P : B -> Prop) (m : M A) (f : A -> M B) self :
  (forall a s1, m self = (Ret a, s1) -> returns_at P (f a s1)) ->
  returns_at P (bind m f self).
Proof.
  unfold returns_at, bind. intros H b.
  destruct (m self) as [[a | e | ] s1]; simpl; try discriminate.
  now apply H.
Qed.

Lemma returns_ret {A} (P : A -> Prop) (a : A) self :
  P a -> returns_at P (Ret a, self).
Proof. intros H a' Ha. simpl in Ha. now injection Ha as <-. Qed.

Lemma returns_weaken {A} (P Q : A -> Prop) (run : outcome A * Parser) :
  returns_at P run -> (forall a, P a -> Q a) -> returns_at Q run.
Proof. unfold returns_at. auto. Qed.

Ltac returns_step := apply returns_bind; intros ? ? ?.
Ltac returns_done := apply returns_ret; cbv beta; eauto.

Lemma cur_attr_value {A} (attr : Token -> A) self t a s1 :
  current_token self = Some t -> cur_attr attr self = (Ret a, s1) ->
  a = attr t.
Proof.
  unfold cur_attr. intros ->. intros H. now injection H as <- _.
Qed.

Section StatementShape.

Variable pe ps : M (option node).
Variable f : nat.

Lemma parse_import_shape self :
  returns_at (fun r => forall nd, r = Some nd -> class_name nd = "ImportDecl")
    (parse_import self).
Proof.
  unfold parse_import. returns_step. returns_step.
  destruct a0 as [tk | ].
  - returns_step. apply returns_ret. intros nd Hnd. now injection Hnd as <-.
  - apply returns_ret. discriminate.
Qed.

Lemma parse_print_shape self :
  returns_at (fun r => exists e, r = Some (Print e)) (parse_print pe self).
Proof. unfold parse_print. do 3 returns_step. returns_done. Qed.

Lemma parse_return_shape self :
  returns_at (fun r => exists e, r = Some (Return e)) (parse_return pe self).
Proof. unfold parse_return. do 3 returns_step. returns_done. Qed.

Lemma parse_while_shape self :
  returns_at (fun r => exists test body, r = Some (While test body))
    (parse_while pe ps f self).
Proof. unfold parse_while. do 5 returns_step. returns_done. Qed.

Lemma parse_if_shape self :
  returns_at (fun r => exists test c a, r = Some (If test c a))
    (parse_if pe ps f self).
Proof.
  unfold parse_if. do 5 returns_step.
  match goal with
  | |- context [cur_is "ELSE" ?s] => destruct (cur_is "ELSE" s)
  end; [ | returns_done].
  do 4 returns_step. returns_done.
Qed.

Lemma parse_function_shape self :
  returns_at (fun r => exists name params body,
                r = Some (FunctionDecl name params None body))
    (parse_function ps f self).
Proof. unfold parse_function. do 10 returns_step. returns_done. Qed.

Lemma parse_assignment_shape self t :
  current_token self = Some t ->
  returns_at (fun r => exists e,
                r = Some (Assignment (Some (Location (value t))) e))
    (parse_assignment pe self).
Proof.
  intros Hc. unfold parse_assignment, parse_location.
  apply returns_bind. intros loc s1 Hloc.
  assert (Hl : loc = Some (Location (value t))).
  { revert Hloc. unfold bind.
    destruct (cur_attr value self) as [[v | e | ] s0] eqn:Hv; try discriminate.
    apply (cur_attr_value _ _ _ _ _ Hc) in Hv. subst v.
    destruct (expect "ID" None s0) as [[tk | e | ] s0']; try discriminate.
    unfold ret. intros H. now injection H as <- _. }
  subst loc. do 3 returns_step. returns_done.
Qed.

Lemma parse_function_call_shape self t :
  current_token self = Some t ->
  returns_at (fun r => exists args, r = Some (FunctionCall (value t) args))
    (parse_function_call pe f self).
Proof.
  intros Hc. unfold parse_function_call.
  apply returns_bind. intros name s1 Hname.
  apply (cur_attr_value _ _ _ _ _ Hc) in Hname. subst name.
  do 5 returns_step. returns_done.
Qed.

Lemma parse_declaration_shape self t :
  current_token self = Some t ->
  returns_at (fun nd => class_name nd =
                        if String.eqb (type t) "CONST" then "ConstantDecl"
                        else "VariableDecl")
    (parse_declaration pe self).
Proof.
  intros Hc. unfold parse_declaration.
  apply returns_bind. intros ty s1 Hty.
  apply (cur_attr_value _ _ _ _ _ Hc) in Hty. subst ty.
  do 6 returns_step. apply returns_ret.
  destruct (String.eqb (type t) "CONST"); reflexivity.
Qed.

End StatementShape.

(** The class of the statement that [parse_statement] returns is fixed by
    the type of the leading token (and, for an identifier, by whether ["("]
    follows); a call carries the identifier as its name, an assignment as
    its target, and a function declaration never has a return type. *)
Theorem statement_dispatch (fuel : nat) (self : Parser) (t : Token)
    (nd : node) (self' : Parser) :
  current_token self = Some t ->
  parse_statement fuel self = (Ret (Some nd), self') ->
  statement_class (type t) (peek_is_lparen self) = Some (class_name nd) /\
  (forall name args, nd = FunctionCall name args -> name = value t) /\
  (forall loc e, nd = Assignment loc e -> loc = Some (Location (value t))) /\
  (forall name params return_type body,
     nd = FunctionDecl name params return_type body -> return_type = None).
Proof.
  intros Hc Hrun. destruct fuel as [ | fuel]; [discriminate Hrun | ].
  cbn [parse_statement] in Hrun. unfold parse_statement_body in Hrun.
  rewrite Hc in Hrun. unfold statement_class, str_in in *. simpl in Hrun.
  destruct (String.eqb (type t) "IMPORT") eqn:E1.
  { pose proof (parse_import_shape self _ (f_equal fst Hrun) nd eq_refl) as H.
    rewrite H. repeat split; intros; subst nd; discriminate H. }
  destruct (String.eqb (type t) "VAR") eqn:E2.
  { simpl in Hrun. revert Hrun. unfold bind.
    destruct (parse_declaration _ self) as [[stmt | e | ] s1] eqn:Hd;
      try discriminate.
    pose proof (parse_declaration_shape _ self t Hc _ (f_equal fst Hd)) as H.
    apply String.eqb_eq in E2. rewrite E2 in H. simpl in H.
    destruct (expect "SEMI" _ s1) as [[tk | e | ] s2]; try discriminate.
    unfold ret. intros Hr. injection Hr as <- _.
    rewrite H. repeat split; intros; subst stmt; discriminate H. }
  destruct (String.eqb (type t) "CONST") eqn:E3.
  { simpl in Hrun. revert Hrun. unfold bind.
    destruct (parse_declaration _ self) as [[stmt | e | ] s1] eqn:Hd;
      try discriminate.
    pose proof (parse_declaration_shape _ self t Hc _ (f_equal fst Hd)) as H.
    rewrite E3 in H.
    destruct (expect "SEMI" _ s1) as [[tk | e | ] s2]; try discriminate.
    unfold ret. intros Hr. injection Hr as <- _.
    rewrite H. repeat split; intros; subst stmt; discriminate H. }
  simpl in Hrun.
  destruct (String.eqb (type t) "PRINT") eqn:E4.
  { destruct (parse_print_shape _ self _ (f_equal fst Hrun)) as (e & He).
    injection He as ->. repeat split; intros; discriminate. }
  destruct (String.eqb (type t) "IF") eqn:E5.
  { destruct (parse_if_shape _ _ _ self _ (f_equal fst Hrun))
      as (test & c & a & He).
    injection He as ->. repeat split; intros; discriminate. }
  destruct (String.eqb (type t) "WHILE") eqn:E6.
  { destruct (parse_while_shape _ _ _ self _ (f_equal fst Hrun))
      as (test & body & He).
    injection He as ->. repeat split; intros; discriminate. }
  destruct (String.eqb (type t) "FUNC") eqn:E7.
  { destruct (parse_function_shape _ _ self _ (f_equal fst Hrun))
      as (name & params & body & He).
    injection He as ->. repeat split; intros; try discriminate.
    congruence. }
  destruct (String.eqb (type t) "RETURN") eqn:E8.
  { destruct (parse_return_shape _ self _ (f_equal fst Hrun)) as (e & He).
    injection He as ->. repeat split; intros; discriminate. }
  destruct (String.eqb (type t) "ID") eqn:E9.
  { destruct (peek_is_lparen self).
    - destruct (parse_function_call_shape _ _ self t Hc _ (f_equal fst Hrun))
        as (args & He).
      injection He as ->. repeat split; intros; try discriminate. congruence.
    - destruct (parse_assignment_shape _ self t Hc _ (f_equal fst Hrun))
        as (e & He).
      injection He as ->. repeat split; intros; try discriminate. congruence. }
  revert Hrun. unfold bind, add_error. rewrite advance_eq. discriminate.
Qed.

(** ** The documents of the serializer *)

(** Induction on a tree, through the lists and optional children. *)
Lemma node_nested_ind (P : node -> Prop) :
  (forall statements, Forall (opt_holds P) statements -> P (Program statements)) ->
  (forall v, P (Integer v)) ->
  (forall v, P (Float v)) ->
  (forall v, P (Boolean v)) ->
  (forall v, P (String v)) ->
  (forall op l r, opt_holds P l -> opt_holds P r -> P (BinOp op l r)) ->
  (forall op operand, opt_holds P operand -> P (UnaryOp op operand)) ->
  (forall name, P (Location name)) ->
  (forall name args, Forall (opt_holds P) args -> P (FunctionCall name args)) ->
  (forall e, opt_holds P e -> P (Print e)) ->
  (forall loc e, opt_holds P loc -> opt_holds P e -> P (Assignment loc e)) ->
  (forall test c a,
     opt_holds P test -> Forall (opt_holds P) c -> Forall (opt_holds P) a ->
     P (If test c a)) ->
  (forall test body,
     opt_holds P test -> Forall (opt_holds P) body -> P (While test body)) ->
  (forall name ty v, opt_holds P v -> P (VariableDecl name ty v)) ->
  (forall name v, opt_holds P v -> P (ConstantDecl name v)) ->
  (forall name params rt body,
     Forall (opt_holds P) params -> Forall (opt_holds P) body ->
     P (FunctionDecl name params rt body)) ->
  (forall e, opt_holds P e -> P (Return e)) ->
  (forall name ty, P (Parameter_ name ty)) ->
  (forall m, P (ImportDecl m)) ->
  forall nd, P nd.
Proof.
  intros HProgram HInteger HFloat HBoolean HString HBinOp HUnaryOp HLocation
    HCall HPrint HAssign HIf HWhile HVar HConst HFunc HReturn HParam HImport.
  fix IH 1. intros nd.
  destruct nd as [statements | v | v | v | v | op l r | op operand | name
                 | name args | e | loc e | test c a | test body | name ty v
                 | name v | name params rt body | e | name ty | m].
  - apply HProgram.
    induction statements as [ | o l' IHl]; constructor;
      [destruct o; simpl; [apply IH | exact I] | exact IHl].
  - apply HInteger.
  - apply HFloat.
  - apply HBoolean.
  - apply HString.
  - apply HBinOp; [destruct l | destruct r]; simpl; try apply IH; exact I.
  - apply HUnaryOp. destruct operand; simpl; [apply IH | exact I].
  - apply HLocation.
  - apply HCall.
    induction args as [ | o l' IHl]; constructor;
      [destruct o; simpl; [apply IH | exact I] | exact IHl].
  - apply HPrint. destruct e; simpl; [apply IH | exact I].
  - apply HAssign; [destruct loc | destruct e]; simpl; try apply IH; exact I.
  - apply HIf.
    + destruct test; simpl; [apply IH | exact I].
    + induction c as [ | o l' IHl]; constructor;
        [destruct o; simpl; [apply IH | exact I] | exact IHl].
    + induction a as [ | o l' IHl]; constructor;
        [destruct o; simpl; [apply IH | exact I] | exact IHl].
  - apply HWhile.
    + destruct test; simpl; [apply IH | exact I].
    + induction body as [ | o l' IHl]; constructor;
        [destruct o; simpl; [apply IH | exact I] | exact IHl].
  - apply HVar. destruct v; simpl; [apply IH | exact I].
  - apply HConst. destruct v; simpl; [apply IH | exact I].
  - apply HFunc.
    + induction params as [ | o l' IHl]; constructor;
        [destruct o; simpl; [apply IH | exact I] | exact IHl].
    + induction body as [ | o l' IHl]; constructor;
        [destruct o; simpl; [apply IH | exact I] | exact IHl].
  - apply HReturn. destruct e; simpl; [apply IH | exact I].
  - apply HParam.
  - apply HImport.
Qed.

(** The mapping of each variant, key by key in insertion order.  For
    [VariableDecl] and [Parameter] the assignment to ["type"] replaces the
    class name. *)
Lemma serialize_unfold nd :
  _serialize_ast nd =
  match nd with
  | Program statements =>
      JDict [("type", JStr "Program");
             ("statements", serialize_list statements)]
  | Integer v => JDict [("type", JStr "Integer"); ("value", JInt v)]
  | Float v => JDict [("type", JStr "Float"); ("value", JFloat v)]
  | Boolean v => JDict [("type", JStr "Boolean"); ("value", JBool v)]
  | String v => JDict [("type", JStr "String"); ("value", JStr v)]
  | BinOp op l r =>
      JDict [("type", JStr "BinOp"); ("operator", JStr op);
             ("left", serialize l); ("right", serialize r)]
  | UnaryOp op operand =>
      JDict [("type", JStr "UnaryOp"); ("operator", JStr op);
             ("operand", serialize operand)]
  | Location name => JDict [("type", JStr "Location"); ("name", JStr name)]
  | FunctionCall name args =>
      JDict [("type", JStr "FunctionCall"); ("name", JStr name);
             ("arguments", serialize_list args)]
  | Print e => JDict [("type", JStr "Print"); ("expression", serialize e)]
  | Assignment loc e =>
      JDict [("type", JStr "Assignment"); ("target", serialize loc);
             ("value", serialize e)]
  | If test c a =>
      JDict [("type", JStr "If"); ("condition", serialize test);
             ("consequence", serialize_list c);
             ("alternative", serialize_list a)]
  | While test body =>
      JDict [("type", JStr "While"); ("condition", serialize test);
             ("body", serialize_list body)]
  | VariableDecl name ty v =>
      JDict [("type", json_of_opt_str ty); ("name", JStr name);
             ("initial_value", serialize v)]
  | ConstantDecl name v =>
      JDict [("type", JStr "ConstantDecl"); ("name", JStr name);
             ("value", serialize v)]
  | FunctionDecl name params rt body =>
      JDict [("type", JStr "FunctionDecl"); ("name", JStr name);
             ("parameters", serialize_list params);
             ("return_type", json_of_opt_str rt);
             ("body", serialize_list body)]
  | Return e => JDict [("type", JStr "Return"); ("value", serialize e)]
  | Parameter_ name ty =>
      JDict [("type", json_of_opt_str ty); ("name", JStr name)]
  | ImportDecl m => JDict [("type", JStr "ImportDecl"); ("module_name", JStr m)]
  end.
Proof. destruct nd; reflexivity. Qed.

Lemma json_all_serialize P o :
  opt_holds (fun n => json_all P (_serialize_ast n) = true) o ->
  json_all P (serialize o) = true.
Proof. destruct o; simpl; auto. Qed.

Lemma json_all_serialize_list P l :
  Forall (opt_holds (fun n => json_all P (_serialize_ast n) = true)) l ->
  json_all P (serialize_list l) = true.
Proof.
  unfold serialize_list. cbn [json_all].
  induction 1 as [ | o l Ho Hl IH]; simpl; [reflexivity | ].
  now rewrite (json_all_serialize P o Ho), IH.
Qed.

Lemma json_all_opt_str P o : json_all P (json_of_opt_str o) = true.
Proof. destruct o; reflexivity. Qed.

(** In the document of a tree, every mapping, at any depth, has ["type"] as
    its first key and none has a key ["errors"]. *)
Theorem serialized_mappings_are_tagged (nd : node) :
  json_all type_first_no_errors (_serialize_ast nd) = true.
Proof.
  induction nd using node_nested_ind; rewrite serialize_unfold;
    cbn [json_all forallb snd type_first_no_errors existsb fst];
    repeat match goal with
           | H : opt_holds _ _ |- _ =>
               rewrite (json_all_serialize _ _ H); clear H
           | H : Forall _ _ |- _ =>
               rewrite (json_all_serialize_list _ _ H); clear H
           end;
    rewrite ?json_all_opt_str; reflexivity.
Qed.

Lemma serialize_is_mapping nd : exists fields, _serialize_ast nd = JDict fields.
Proof. rewrite serialize_unfold. destruct nd; eauto. Qed.

Lemma no_null_serialize o :
  clean_optional o = true ->
  opt_holds (fun n => clean n = true ->
                      no_null_items (_serialize_ast n) = true) o ->
  no_null_items (serialize o) = true.
Proof. destruct o; simpl; auto. Qed.

Lemma clean_child_optional o : clean_child o = true -> clean_optional o = true.
Proof. destruct o; simpl; auto. Qed.

Lemma no_null_serialize_list l :
  clean_list l = true ->
  Forall (opt_holds (fun n => clean n = true ->
                              no_null_items (_serialize_ast n) = true)) l ->
  no_null_items (serialize_list l) = true.
Proof.
  unfold serialize_list. cbn [no_null_items].
  intros Hc Hall. induction Hall as [ | o l Ho Hl IH]; [reflexivity | ].
  cbn [clean_list forallb] in Hc. apply andb_prop in Hc as [Hc1 Hc2].
  destruct o as [n | ]; [ | discriminate Hc1].
  cbn [map forallb serialize].
  apply andb_true_intro. split; [ | now apply IH].
  pose proof (Ho Hc1) as Hn.
  destruct (serialize_is_mapping n) as (fields & Hd).
  rewrite Hd in *. exact Hn.
Qed.

Ltac split_clean H :=
  repeat match type of H with
         | _ && _ = true =>
             let H1 := fresh "Hc" in
             apply andb_prop in H as [H1 H]; split_clean H1
         end.

(** The document of a tree without failure markers has no null element in
    any of its lists. *)
Lemma clean_tree_has_no_null_items (nd : node) :
  clean nd = true -> no_null_items (_serialize_ast nd) = true.
Proof.
  induction nd using node_nested_ind; intros Hclean;
    rewrite clean_unfold in Hclean; cbv beta iota in Hclean;
    split_clean Hclean;
    rewrite serialize_unfold; cbn [no_null_items forallb snd];
    repeat match goal with
           | Hc : clean_child ?o = true, H : opt_holds _ ?o |- _ =>
               rewrite (no_null_serialize o (clean_child_optional o Hc) H);
               clear H
           | Hc : clean_optional ?o = true, H : opt_holds _ ?o |- _ =>
               rewrite (no_null_serialize o Hc H); clear H
           | Hc : clean_list ?l = true, H : Forall _ ?l |- _ =>
               rewrite (no_null_serialize_list l Hc H); clear H
           end;
    try reflexivity;
    repeat match goal with
           | |- context [json_of_opt_str ?o] => is_var o; destruct o
           end; reflexivity.
Qed.

(** A document of [to_json] without the key ["errors"] has no null element
    in any list, at any depth: a statement, argument or parameter that
    failed to parse never reaches the output. *)
Theorem to_json_lists_have_no_null (fuel : nat) (self : Parser) (d : json)
    (self' : Parser) :
  to_json fuel self = (Ret d, self') ->
  json_has_key "errors" d = false ->
  no_null_items d = true.
Proof.
  intros Hrun Hkey.
  destruct (to_json_clean_tree fuel self d self' Hrun Hkey)
    as (_ & statements & -> & Hclean).
  now apply clean_tree_has_no_null_items.
Qed.

(** ** A chain of additive operators nests to the left *)

Lemma advance_at_pos p e : advance (at_pos p e) = (Ret tt, at_pos (S p) e).
Proof. rewrite advance_eq. reflexivity. Qed.

Lemma Parser_init_at_pos e : Parser_init e = at_pos 0 e.
Proof. unfold Parser_init, at_pos. now destruct tokens. Qed.

Lemma skipn_cons_nth {A} (l : list A) p a rest :
  skipn p l = a :: rest -> nth_error l p = Some a /\ skipn (S p) l = rest.
Proof.
  revert l. induction p as [ | p IH]; intros [ | x l]; simpl; try discriminate.
  - intros H. injection H as -> ->. auto.
  - apply IH.
Qed.

Lemma skipn_nil_nth {A} (l : list A) p : skipn p l = [] -> nth_error l p = None.
Proof.
  revert l. induction p as [ | p IH]; intros [ | x l]; simpl; auto; discriminate.
Qed.

Lemma additive_not_multiplicative ty :
  str_in ty ["PLUS"; "MINUS"] = true ->
  str_in ty ["TIMES"; "DIVIDE"; "MOD"; "INT_DIV"] = false.
Proof.
  unfold str_in. simpl.
  destruct (String.eqb ty "PLUS") eqn:E1;
    [apply String.eqb_eq in E1; subst ty; reflexivity | ].
  destruct (String.eqb ty "MINUS") eqn:E2;
    [apply String.eqb_eq in E2; subst ty; reflexivity | discriminate].
Qed.

Lemma binop_loop_stops ops (sub : M (option node)) k nd self :
  cur_in ops self = false -> binop_loop ops sub k nd self = (Ret nd, self).
Proof. intros H. destruct k; simpl; now rewrite H. Qed.

Lemma binop_layer_passes ops (sub : M (option node)) k self r s1 :
  sub self = (Ret r, s1) -> cur_in ops s1 = false ->
  binop_layer ops sub k self = (Ret r, s1).
Proof.
  intros Hsub Hc. unfold binop_layer, bind. rewrite Hsub.
  now apply binop_loop_stops.
Qed.

Lemma binop_loop_step ops (sub : M (option node)) k nd p e o :
  nth_error tokens p = Some o -> str_in (type o) ops = true ->
  binop_loop ops sub (S k) nd (at_pos p e) =
  bind sub (fun right => binop_loop ops sub k (Some (BinOp (value o) nd right)))
    (at_pos (S p) e).
Proof.
  intros Hn Hin. cbn [binop_loop]. unfold cur_in, bind, cur_attr.
  cbn [at_pos current_token]. rewrite Hn, Hin. rewrite advance_eq.
  reflexivity.
Qed.

(** After the chain comes an additive operator or the end of the input:
    nothing for the multiplicative layer. *)
Lemma chain_head_not_multiplicative rest p e :
  skipn p tokens = chain_tokens rest -> Forall additive_step rest ->
  cur_in ["TIMES"; "DIVIDE"; "MOD"; "INT_DIV"] (at_pos p e) = false.
Proof.
  intros Hs Hall. unfold cur_in. cbn [at_pos current_token].
  destruct rest as [ | x rest].
  - now rewrite (skipn_nil_nth _ _ Hs).
  - cbn [chain_tokens flat_map app] in Hs.
    destruct (skipn_cons_nth _ _ _ _ Hs) as [-> _].
    inversion Hall as [ | ? ? [Hadd _] _]; subst.
    now apply additive_not_multiplicative.
Qed.

Section OperandParsers.

Variable rec : M (option node).
Variable f : nat.

Lemma parse_unary_integer p e t z :
  nth_error tokens p = Some t -> literal_operand t z ->
  parse_unary rec f (at_pos p e) = (Ret (Some (Integer z)), at_pos (S p) e).
Proof.
  intros Hn [Hty Hz]. unfold parse_unary, cur_in, parse_primary.
  cbn [at_pos current_token]. rewrite Hn, Hty. cbn [str_in existsb String.eqb Ascii.eqb Bool.eqb orb andb].
  unfold bind. rewrite advance_eq. cbn [pos errors]. rewrite Hz. reflexivity.
Qed.

Lemma parse_factor_integer p e t z :
  nth_error tokens p = Some t -> literal_operand t z ->
  cur_in ["TIMES"; "DIVIDE"; "MOD"; "INT_DIV"] (at_pos (S p) e) = false ->
  parse_factor rec f (at_pos p e) = (Ret (Some (Integer z)), at_pos (S p) e).
Proof.
  intros Hn Hlit Hc. unfold parse_factor.
  eapply binop_layer_passes; [now apply (parse_unary_integer p e t z) | exact Hc].
Qed.

Lemma additive_loop_chain : forall rest p nd k e,
  skipn p tokens = chain_tokens rest -> Forall additive_step rest ->
  List.length rest <= k ->
  binop_loop ["PLUS"; "MINUS"] (parse_factor rec f) k nd (at_pos p e) =
  (Ret (left_nested nd rest), at_pos (p + 2 * List.length rest) e).
Proof.
  induction rest as [ | x rest IH]; intros p nd k e Hs Hall Hk.
  - rewrite binop_loop_stops.
    + simpl. now rewrite Nat.add_0_r.
    + unfold cur_in. cbn [at_pos current_token].
      now rewrite (skipn_nil_nth _ _ Hs).
  - cbn [chain_tokens flat_map app] in Hs.
    destruct (skipn_cons_nth _ _ _ _ Hs) as [Ho Hs1].
    destruct (skipn_cons_nth _ _ _ _ Hs1) as [Ht Hs2].
    inversion Hall as [ | ? ? [Hadd Hlit] Hall']; subst.
    destruct k as [ | k]; [simpl in Hk; lia | ].
    rewrite (binop_loop_step _ _ k nd p e _ Ho Hadd). unfold bind.
    rewrite (parse_factor_integer (S p) e _ _ Ht Hlit
               (chain_head_not_multiplicative rest (S (S p)) e Hs2 Hall')).
    rewrite (IH (S (S p)) _ k e Hs2 Hall'); [ | simpl in Hk; lia].
    cbn [left_nested fold_left List.length]. f_equal. f_equal. lia.
Qed.

End OperandParsers.

(** On an input made of an integer literal followed by [operator literal]
    pairs with additive operators, [parse_expression] consumes the whole
    input, records nothing and returns the left-nested [BinOp] tree:
    [a - b - c] is [(a - b) - c]. *)
Theorem additive_chain_nests_left (t0 : Token) (z0 : Z)
    (rest : list (Token * (Token * Z))) (fuel : nat)
    (error_handler : list diagnostic) :
  tokens = t0 :: chain_tokens rest ->
  literal_operand t0 z0 ->
  Forall additive_step rest ->
  List.length rest < fuel ->
  parse_expression fuel (Parser_init error_handler) =
  (Ret (left_nested (Some (Integer z0)) rest),
   at_pos (List.length tokens) error_handler).
Proof.
  intros Htok Hlit Hall Hfuel.
  destruct fuel as [ | f]; [lia | ].
  assert (Hs0 : skipn 0 tokens = t0 :: chain_tokens rest) by exact Htok.
  destruct (skipn_cons_nth _ _ _ _ Hs0) as [Hn0 Hs1].
  assert (Hlen : List.length tokens = 1 + 2 * List.length rest).
  { rewrite Htok. cbn [List.length]. f_equal. unfold chain_tokens.
    clear. induction rest as [ | x r IH]; simpl; [reflexivity | ].
    rewrite IH. lia. }
  assert (Hend : forall ops,
             cur_in ops (at_pos (List.length tokens) error_handler) = false).
  { intros ops. unfold cur_in. cbn [at_pos current_token].
    assert (Hnone : nth_error tokens (List.length tokens) = None)
      by (apply nth_error_None; lia).
    now rewrite Hnone. }
  rewrite Parser_init_at_pos. cbn [parse_expression].
  unfold parse_logic_or, parse_logic_and, parse_comparison.
  do 3 (eapply binop_layer_passes; [ | apply Hend]).
  unfold parse_term, binop_layer, bind.
  rewrite (parse_factor_integer _ f 0 error_handler t0 z0 Hn0 Hlit
             (chain_head_not_multiplicative rest 1 error_handler Hs1 Hall)).
  rewrite (additive_loop_chain _ f rest 1 _ f error_handler Hs1 Hall);
    [ | lia].
  now rewrite Hlen.
Qed.

(** ** Failure markers in the statement lists *)

(** The list a block loop returns is the list it was given followed by the
    result of each call of [parse_statement], in order. *)
Lemma parse_block_run (ps : M (option node)) : forall fuel body self l s',
  parse_block ps fuel body self = (Ret l, s') ->
  exists items, l = (body ++ items)%list /\ block_run ps self items s'.
Proof.
  induction fuel as [ | fuel IH]; intros body self l s'; cbn [parse_block];
    destruct (cur_is_not "RBRACE" self) eqn:Hc; try discriminate.
  - intros H. injection H as <- <-. exists []. rewrite app_nil_r.
    split; [reflexivity | now constructor].
  - unfold bind. destruct (ps self) as [[r | e | ] s1] eqn:Hps;
      try discriminate.
    intros H. apply IH in H as (items & -> & Hrun).
    exists (r :: items). rewrite <- app_assoc. split; [reflexivity | ].
    now apply (block_step ps self r s1).
  - intros H. injection H as <- <-. exists []. rewrite app_nil_r.
    split; [reflexivity | now constructor].
Qed.

Lemma parse_while_block (pe ps : M (option node)) fuel self r self' :
  parse_while pe ps fuel self = (Ret r, self') ->
  exists test body s1 s2,
    while_header pe self = (Ret test, s1) /\
    block_run ps s1 body s2 /\
    r = Some (While test body) /\
    self' = snd (expect "RBRACE"
                   (Some "Missing '}' at the end of while block") s2).
Proof.
  unfold parse_while, while_header, bind, ret.
  destruct (expect "WHILE" None self) as [[u1 | e | ] s1]; try discriminate.
  destruct (pe s1) as [[test | e | ] s2]; try discriminate.
  destruct (expect "LBRACE" (Some "Missing '{' after while condition") s2)
    as [[u2 | e | ] s3]; try discriminate.
  destruct (parse_block ps fuel [] s3) as [[body | e | ] s4] eqn:Hb;
    try discriminate.
  apply parse_block_run in Hb as (items & -> & Hrun).
  destruct (expect "RBRACE" (Some "Missing '}' at the end of while block") s4)
    as [[u3 | e | ] s5] eqn:He; try discriminate.
  intros H. injection H as <- <-.
  exists test, items, s3, s4. rewrite He. auto.
Qed.

Lemma parse_if_block (pe ps : M (option node)) fuel self r self' :
  parse_if pe ps fuel self = (Ret r, self') ->
  exists test consequence alternative s1 s2,
    if_header pe self = (Ret test, s1) /\
    block_run ps s1 consequence s2 /\
    r = Some (If test consequence alternative) /\
    let s3 := snd (expect "RBRACE"
                     (Some "Missing '}' at the end of if block") s2) in
    if cur_is "ELSE" s3 then
      exists s4 s5,
        else_header s3 = (Ret tt, s4) /\
        block_run ps s4 alternative s5 /\
        self' = snd (expect "RBRACE"
                       (Some "Missing '}' at the end of else block") s5)
    else alternative = [] /\ self' = s3.
Proof.
  unfold parse_if, if_header, else_header, bind, ret.
  destruct (expect "IF" None self) as [[u1 | e | ] s1]; try discriminate.
  destruct (pe s1) as [[test | e | ] s2]; try discriminate.
  destruct (expect "LBRACE" (Some "Missing '{' after if condition") s2)
    as [[u2 | e | ] s3]; try discriminate.
  destruct (parse_block ps fuel [] s3) as [[consequence | e | ] s4] eqn:Hb;
    try discriminate.
  apply parse_block_run in Hb as (items & -> & Hrun).
  destruct (expect "RBRACE" (Some "Missing '}' at the end of if block") s4)
    as [[u3 | e | ] s5] eqn:He; try discriminate.
  destruct (cur_is "ELSE" s5) eqn:Helse.
  - destruct (advance s5) as [[[] | e | ] s6] eqn:Ha; try discriminate.
    destruct (expect "LBRACE" (Some "Missing '{' after else") s6)
      as [[u4 | e | ] s7] eqn:Hl; try discriminate.
    destruct (parse_block ps fuel [] s7) as [[alternative | e | ] s8] eqn:Hb2;
      try discriminate.
    apply parse_block_run in Hb2 as (items2 & -> & Hrun2).
    destruct (expect "RBRACE" (Some "Missing '}' at the end of else block") s8)
      as [[u5 | e | ] s9] eqn:He2; try discriminate.
    intros H. injection H as <- <-.
    exists test, items, items2, s3, s4. cbv zeta. rewrite He. cbn [snd].
    rewrite Helse. repeat split; auto.
    exists s7, s8. rewrite He2, Ha, Hl. auto.
  - intros H. injection H as <- <-.
    exists test, items, [], s3, s4. cbv zeta. rewrite He. cbn [snd].
    rewrite Helse. auto.
Qed.

Lemma parse_function_block (ps : M (option node)) fuel self r self' :
  parse_function ps fuel self = (Ret r, self') ->
  exists name params body s1 s2,
    function_header fuel self = (Ret (name, params), s1) /\
    block_run ps s1 body s2 /\
    r = Some (FunctionDecl name params None body) /\
    self' = snd (expect "RBRACE" (Some "Expected '}' to end function body") s2).
Proof.
  unfold parse_function, function_header, bind, ret.
  destruct (expect "FUNC" None self) as [[u1 | e | ] s1]; try discriminate.
  destruct (cur_attr value s1) as [[name | e | ] s2]; try discriminate.
  destruct (expect "ID" (Some "Expected function name after FUNC keyword") s2)
    as [[u2 | e | ] s3]; try discriminate.
  destruct (expect "LPAREN"
              (Some "Expected '(' after function name in declaration") s3)
    as [[u3 | e | ] s4]; try discriminate.
  destruct (cur_attr type s4) as [[ty | e | ] s5]; try discriminate.
  match goal with
  | |- context [match ?m s5 with _ => _ end] =>
      destruct (m s5) as [[params | e | ] s6]; try discriminate
  end.
  destruct (expect "RPAREN"
              (Some "Expected ')' after parameters in function declaration") s6)
    as [[u4 | e | ] s7]; try discriminate.
  destruct (expect "LBRACE" (Some "Expected '{' to start function body") s7)
    as [[u5 | e | ] s8]; try discriminate.
  destruct (parse_block ps fuel [] s8) as [[body | e | ] s9] eqn:Hb;
    try discriminate.
  apply parse_block_run in Hb as (items & -> & Hrun).
  destruct (expect "RBRACE" (Some "Expected '}' to end function body") s9)
    as [[u6 | e | ] s10] eqn:He; try discriminate.
  intros H. injection H as <- <-.
  exists name, params, items, s8, s9. rewrite He. auto.
Qed.

(** A tree with a failure marker comes with a grown error sink, and
    [to_json] then returns the diagnostics, not the tree. *)
Lemma marked_tree_is_not_serialized fuel self nd s1 doc self' :
  parse fuel self = (Ret nd, s1) ->
  clean nd = false ->
  to_json fuel self = (Ret doc, self') ->
  doc = JDict [("errors", JList (map json_of_diagnostic (errors self')))] /\
  errors self' <> [].
Proof.
  intros Hp Hmark Hrun. unfold to_json, bind in Hrun. rewrite Hp in Hrun.
  destruct (parse_sound fuel self) as [(_ & _ & l & He) Hok].
  rewrite Hp in He, Hok. simpl in He, Hok.
  destruct (has_errors (errors s1)) eqn:Hh; injection Hrun as <- <-.
  - split; [reflexivity | ]. destruct (errors s1); [discriminate Hh | discriminate].
  - exfalso.
    assert (He' : errors s1 = [])
      by (destruct (errors s1); [reflexivity | discriminate Hh]).
    rewrite He' in He. symmetry in He. apply app_eq_nil in He as [Hs _].
    rewrite (Hok nd eq_refl) in Hmark; [discriminate Hmark | congruence].
Qed.

(** C9 (amended): the statements of the [Program] that [parse] returns
    hold no [None].  The node [parse_if], [parse_while] or
    [parse_function] returns carries, as its consequence, alternative or
    body, the result of every call of [parse_statement] its block loop
    made, in order, so a [None] for every nested statement that failed;
    a token that selects no rule gives such a [None].  [_serialize_ast]
    maps a [None] entry to a null at the same index of the
    ["consequence"], ["alternative"] and ["body"] lists.  But a tree that
    holds a failure marker is never serialized by [to_json]: the sink is
    then not empty and the document is the ["errors"] mapping. *)
Theorem none_entries_of_statement_lists :
  (forall fuel self nd self',
     parse fuel self = (Ret nd, self') ->
     exists statements,
       nd = Program statements /\ Forall (fun o => o <> None) statements) /\
  (forall (pe ps : M (option node)) fuel self r self',
     parse_if pe ps fuel self = (Ret r, self') ->
     exists test consequence alternative s1 s2,
       if_header pe self = (Ret test, s1) /\
       block_run ps s1 consequence s2 /\
       r = Some (If test consequence alternative) /\
       let s3 := snd (expect "RBRACE"
                        (Some "Missing '}' at the end of if block") s2) in
       if cur_is "ELSE" s3 then
         exists s4 s5,
           else_header s3 = (Ret tt, s4) /\
           block_run ps s4 alternative s5 /\
           self' = snd (expect "RBRACE"
                          (Some "Missing '}' at the end of else block") s5)
       else alternative = [] /\ self' = s3) /\
  (forall (pe ps : M (option node)) fuel self r self',
     parse_while pe ps fuel self = (Ret r, self') ->
     exists test body s1 s2,
       while_header pe self = (Ret test, s1) /\
       block_run ps s1 body s2 /\
       r = Some (While test body) /\
       self' = snd (expect "RBRACE"
                      (Some "Missing '}' at the end of while block") s2)) /\
  (forall (ps : M (option node)) fuel self r self',
     parse_function ps fuel self = (Ret r, self') ->
     exists name params body s1 s2,
       function_header fuel self = (Ret (name, params), s1) /\
       block_run ps s1 body s2 /\
       r = Some (FunctionDecl name params None body) /\
       self' = snd (expect "RBRACE"
                      (Some "Expected '}' to end function body") s2)) /\
  (forall fuel self t,
     current_token self = Some t -> starts_statement (type t) = false ->
     exists s1, parse_statement (S fuel) self = (Ret None, s1)) /\
  (forall l i,
     nth_error l i = Some None ->
     exists items,
       serialize_list l = JList items /\
       List.length items = List.length l /\
       nth_error items i = Some JNull) /\
  (forall test consequence alternative,
     exists fields,
       _serialize_ast (If test consequence alternative) = JDict fields /\
       dict_get fields "consequence" = Some (serialize_list consequence) /\
       dict_get fields "alternative" = Some (serialize_list alternative)) /\
  (forall test body,
     exists fields,
       _serialize_ast (While test body) = JDict fields /\
       dict_get fields "body" = Some (serialize_list body)) /\
  (forall name params return_type body,
     exists fields,
       _serialize_ast (FunctionDecl name params return_type body) = JDict fields /\
       dict_get fields "body" = Some (serialize_list body)) /\
  (forall fuel self nd s1 doc self',
     parse fuel self = (Ret nd, s1) ->
     clean nd = false ->
     to_json fuel self = (Ret doc, self') ->
     doc = JDict [("errors", JList (map json_of_diagnostic (errors self')))] /\
     errors self' <> []).
Proof.
  split; [ | split; [ | split; [ | split; [ | split; [ | split;
    [ | split; [ | split; [ | split]]]]]]]].
  - intros fuel self nd self' Hp.
    destruct (parse_returns_program _ _ _ _ Hp) as (statements & -> & Hl).
    exists statements. split; [reflexivity | ].
    eapply parse_loop_no_none; [ | exact Hl]. constructor.
  - apply parse_if_block.
  - apply parse_while_block.
  - apply parse_function_block.
  - intros fuel self t Hc Hs. eexists.
    apply parse_statement_unexpected; eassumption.
  - intros l i Hn. exists (map serialize l). repeat split.
    + apply length_map.
    + rewrite nth_error_map, Hn. reflexivity.
  - intros. eexists. repeat split; reflexivity.
  - intros. eexists. repeat split; reflexivity.
  - intros. eexists. repeat split; reflexivity.
  - apply marked_tree_is_not_serialized.
Qed.

End GoxLang.

(** ** The parser on the sample inputs *)

(** The parser at the host instance, with any fuel above the input length
    (the fuel of the termination theorem). *)
Abbreviation run_parse tokens error_handler extra :=
  (parse Host.py_int Host.py_float tokens (S (List.length tokens) + extra)
     (Parser_init tokens error_handler)).

(** C1 (the code departs from the claim): the valid program [var x = 1;]
    yields its one statement and one diagnostic; [parse_declaration]
    consumes the [;] and [parse_statement] then expects it again. *)
Theorem valid_declaration_records_diagnostic (extra : nat) :
  run_parse tokens_declaration [] extra =
  (Ret (Program [Some (VariableDecl "x" None (Some (Integer 1)))]),
   {| pos := 5;
      current_token := None;
      errors := [("Missing ';' after declaration", LineText "End of file")] |}).
Proof. vm_compute. reflexivity. Qed.

(** C2 (the code departs from the claim): on [; print 1;] the first turn
    of the loop of [parse] reports the stray [;] and moves the cursor from 0
    to 2, so that [print] is skipped unreported; the run ends with no
    statement and two diagnostics. *)
Theorem stray_token_skips_two (extra : nat) :
  parse_loop Host.py_int Host.py_float tokens_stray_semi (5 + extra)
    (5 + extra) [] (Parser_init tokens_stray_semi []) =
  parse_loop Host.py_int Host.py_float tokens_stray_semi (5 + extra)
    (4 + extra) []
    {| pos := 2;
       current_token := Some (tok "INTEGER" "1" 1);
       errors := [("Unexpected token type: SEMI", LineNo 1)] |} /\
  run_parse tokens_stray_semi [] extra =
  (Ret (Program []),
   {| pos := 4;
      current_token := None;
      errors := [("Unexpected token type: SEMI", LineNo 1);
                 ("Unexpected token type: INTEGER", LineNo 1)] |}).
Proof.
  split.
  - exact (parse_loop_unexpected Host.py_int Host.py_float
             tokens_stray_semi (4 + extra) (4 + extra) []
             (Parser_init tokens_stray_semi []) (tok "SEMI" ";" 1)
             eq_refl eq_refl).
  - vm_compute. reflexivity.
Qed.

(** C3 (the code departs from the claim): [print], [var] and [f(] at the
    end of the input make [parse] raise [AttributeError], whatever the host
    conversions and the fuel above the input length are, and nothing is
    appended to the error sink. *)
Theorem parse_raises_at_end_of_input (PyFloat : Type)
    (py_int : string -> option Z) (py_float : string -> option PyFloat)
    (extra : nat) :
  parse py_int py_float tokens_print_eof (2 + extra)
    (Parser_init tokens_print_eof []) =
    (Raise AttributeError, {| pos := 1; current_token := None; errors := [] |}) /\
  parse py_int py_float tokens_var_eof (2 + extra)
    (Parser_init tokens_var_eof []) =
    (Raise AttributeError, {| pos := 1; current_token := None; errors := [] |}) /\
  parse py_int py_float tokens_call_eof (3 + extra)
    (Parser_init tokens_call_eof []) =
    (Raise AttributeError, {| pos := 2; current_token := None; errors := [] |}).
Proof. repeat split; vm_compute; reflexivity. Qed.

(** Runs the parser up to the next call of a host conversion, without
    looking into the code that follows it. *)
Ltac run_to_conversion :=
  match goal with
  | |- fst ?x = _ =>
      let y := eval lazy head in x in
      change x with y; cbn [value tok]
  end.

(** C8: the tokens of [1 + 2 * 3] parse to
    [BinOp "+" (Integer 1) (BinOp "*" (Integer 2) (Integer 3))], for every host
    [int()] that reads the three literals as 1, 2 and 3 and every fuel above
    the input length. *)
Theorem precedence_times_over_plus (PyFloat : Type)
    (py_int : string -> option Z) (py_float : string -> option PyFloat)
    (extra : nat) :
  py_int "1" = Some 1%Z -> py_int "2" = Some 2%Z -> py_int "3" = Some 3%Z ->
  fst (parse_expression py_int py_float tokens_precedence (6 + extra)
         (Parser_init tokens_precedence [])) =
  Ret (Some (BinOp "+" (Some (Integer 1))
               (Some (BinOp "*" (Some (Integer 2)) (Some (Integer 3)))))).
Proof.
  intros H1 H2 H3.
  run_to_conversion. rewrite H1.
  run_to_conversion. rewrite H2.
  run_to_conversion. rewrite H3.
  reflexivity.
Qed.

Lemma precedence_times_over_plus_witness :
  fst (parse_expression Host.py_int Host.py_float tokens_precedence 6
         (Parser_init tokens_precedence [])) =
  Ret (Some (BinOp "+" (Some (Integer 1))
               (Some (BinOp "*" (Some (Integer 2)) (Some (Integer 3)))))).
Proof.
  apply (precedence_times_over_plus Host.PyFloat Host.py_int Host.py_float 0);
    reflexivity.
Defined.

(** C10: on an empty token sequence [parse] returns a [Program] without
    statements, records nothing and does not raise, whatever the fuel. *)
Theorem parse_empty (PyFloat : Type)
    (py_int : string -> option Z) (py_float : string -> option PyFloat)
    (fuel : nat) :
  parse py_int py_float [] fuel (Parser_init [] []) =
  (Ret (Program []), {| pos := 0; current_token := None; errors := [] |}).
Proof. destruct fuel; reflexivity. Qed.

(** ** Instances of the general theorems on the sample inputs *)

Lemma literals_ok_stray_semi :
  literals_ok Host.py_int Host.py_float tokens_stray_semi.
Proof.
  repeat constructor; intro H; try discriminate H; vm_compute; discriminate.
Defined.

Lemma parse_terminates_cursor_at_end_witness :
  (current_token (snd (run_parse tokens_stray_semi [] 0)) = None /\
   List.length tokens_stray_semi <=
   pos (snd (run_parse tokens_stray_semi [] 0))) /\
  pos (Parser_init tokens_stray_semi []) <
  pos (snd (parse_statement Host.py_int Host.py_float tokens_stray_semi 5
              (Parser_init tokens_stray_semi []))).
Proof.
  assert (Hfuel : List.length tokens_stray_semi < 5) by (simpl; lia).
  pose proof (parse_terminates_cursor_at_end Host.py_int
                Host.py_float tokens_stray_semi [] 5 Hfuel) as (_ & H2 & H3).
  split.
  - apply H2. exact literals_ok_stray_semi.
  - apply (H3 5 (Parser_init tokens_stray_semi []) None).
    + reflexivity.
    + vm_compute. lia.
    + discriminate.
    + reflexivity.
Defined.

Lemma to_json_two_shapes_witness :
  json_has_key "errors"
    (JDict [("type", JStr "Program");
            ("statements",
             JList [JDict [("type", JStr "Print");
                           ("expression",
                            JDict [("type", JStr "Integer");
                                   ("value", @JInt Host.PyFloat 1)])]])]) =
  has_errors [] /\
  json_has_key "errors"
    (JDict [("errors",
             JList (map (@json_of_diagnostic Host.PyFloat)
                      [("Unexpected token type: SEMI", LineNo 1);
                       ("Unexpected token type: INTEGER", LineNo 1)]))]) =
  has_errors [("Unexpected token type: SEMI", LineNo 1);
              ("Unexpected token type: INTEGER", LineNo 1)].
Proof.
  split.
  - apply (proj1 (to_json_two_shapes Host.py_int Host.py_float
                    tokens_print 4 (Parser_init tokens_print []))
             _ {| pos := 3; current_token := None; errors := [] |}).
    reflexivity.
  - apply (proj1 (to_json_two_shapes Host.py_int Host.py_float
                    tokens_stray_semi 5 (Parser_init tokens_stray_semi []))
             _ {| pos := 4; current_token := None;
                  errors := [("Unexpected token type: SEMI", LineNo 1);
                             ("Unexpected token type: INTEGER", LineNo 1)] |}).
    reflexivity.
Defined.

Lemma expect_contract_witness :
  expect tokens_print "PRINT" None (Parser_init tokens_print []) =
  (Ret (Some (tok "PRINT" "print" 1)),
   {| pos := 1; current_token := Some (tok "INTEGER" "1" 1); errors := [] |}) /\
  expect tokens_print "SEMI" (Some "Missing ';'") (Parser_init tokens_print []) =
  (Ret None,
   {| pos := 0; current_token := Some (tok "PRINT" "print" 1);
      errors := [("Missing ';'", LineNo 1)] |}) /\
  expect tokens_print "SEMI" None
    {| pos := 3; current_token := None; errors := [] |} =
  (Ret None,
   {| pos := 3; current_token := None;
      errors := [("Expected SEMI", LineText "End of file")] |}) /\
  expect_message "SEMI" (Some "Missing ';'") = "Missing ';'".
Proof.
  split; [ | split; [ | split]].
  - apply (proj1 (expect_contract tokens_print "PRINT" None
                    (Parser_init tokens_print []))); reflexivity.
  - apply (proj1 (proj2 (expect_contract tokens_print "SEMI"
                           (Some "Missing ';'") (Parser_init tokens_print [])))
             (tok "PRINT" "print" 1)); [reflexivity | discriminate].
  - apply (proj1 (proj2 (proj2 (expect_contract tokens_print "SEMI" None
             {| pos := 3; current_token := None; errors := [] |})))).
    reflexivity.
  - apply (proj2 (proj2 (proj2 (proj2 (expect_contract tokens_print "SEMI" None
             (Parser_init tokens_print [])))))).
    discriminate.
Defined.

(** C7 (as stated, refuted): the mapping of [Print(Integer(1))] has the keys
    ["type"] and ["expression"], not ["type"] and the attribute name
    ["expr"] of section 3. *)
Lemma print_does_not_mirror_section3 :
  ~ mirrors_section3 (@Print Host.PyFloat (Some (Integer 1))).
Proof.
  intros (fields & Hser & _ & Hkeys).
  simpl in Hser. injection Hser as <-.
  simpl in Hkeys. discriminate Hkeys.
Qed.

Lemma serialize_type_and_keys_witness :
  exists fields,
    _serialize_ast (@Print Host.PyFloat (Some (Integer 1))) = JDict fields /\
    dict_get fields "type" = Some (JStr "Print") /\
    dict_keys fields = ["type"; "expression"] /\
    dict_get fields "expression" = Some (serialize (Some (Integer 1))).
Proof.
  apply (serialize_type_and_keys (@Print Host.PyFloat (Some (Integer 1)))).
  reflexivity.
Defined.

(** C9 (as stated, refuted): on [if x { ; }] the stray [;] leaves a [None]
    in the consequence of the [If], and [_serialize_ast] applied to that
    node gives a null there; but the output document, the one [to_json]
    returns, is the ["errors"] mapping and holds no null element. *)
Lemma nested_none_is_not_in_document :
  fst (run_parse tokens_if_stray [] 0) =
    Ret (Program [Some (If (Some (Location "x")) [None] [])]) /\
  @_serialize_ast Host.PyFloat (If (Some (Location "x")) [None] []) =
    JDict [("type", JStr "If");
           ("condition", JDict [("type", JStr "Location"); ("name", JStr "x")]);
           ("consequence", JList [JNull]);
           ("alternative", JList [])] /\
  fst (to_json Host.py_int Host.py_float tokens_if_stray 6
         (Parser_init tokens_if_stray [])) =
    Ret (JDict [("errors",
                 JList [JDict [("message", JStr "Unexpected token type: SEMI");
                               ("line", JInt 2)]])]) /\
  @no_null_items Host.PyFloat
    (JDict [("errors",
             JList [JDict [("message", JStr "Unexpected token type: SEMI");
                           ("line", JInt 2)]])]) = true.
Proof. repeat split; vm_compute; reflexivity. Qed.

Lemma none_entries_of_statement_lists_witness :
  (exists statements,
     Program [Some (If (Some (@Location Host.PyFloat "x")) [None] [])] =
       Program statements /\
     Forall (fun o => o <> None) statements) /\
  (exists test consequence alternative s1 s2,
     if_header tokens_if_stray
       (parse_expression Host.py_int Host.py_float tokens_if_stray 4)
       (Parser_init tokens_if_stray []) = (Ret test, s1) /\
     block_run (parse_statement Host.py_int Host.py_float tokens_if_stray 3)
       s1 consequence s2 /\
     Some (If (Some (@Location Host.PyFloat "x")) [None] []) =
       Some (If test consequence alternative) /\
     let s3 := snd (expect tokens_if_stray "RBRACE"
                      (Some "Missing '}' at the end of if block") s2) in
     if cur_is "ELSE" s3 then
       exists s4 s5,
         else_header tokens_if_stray s3 = (Ret tt, s4) /\
         block_run (parse_statement Host.py_int Host.py_float tokens_if_stray 3)
           s4 alternative s5 /\
         {| pos := 5; current_token := None;
            errors := [("Unexpected token type: SEMI", LineNo 2)] |} =
         snd (expect tokens_if_stray "RBRACE"
                (Some "Missing '}' at the end of else block") s5)
     else alternative = [] /\
          {| pos := 5; current_token := None;
             errors := [("Unexpected token type: SEMI", LineNo 2)] |} = s3) /\
  (exists test body s1 s2,
     while_header tokens_while_stray
       (parse_expression Host.py_int Host.py_float tokens_while_stray 4)
       (Parser_init tokens_while_stray []) = (Ret test, s1) /\
     block_run (parse_statement Host.py_int Host.py_float tokens_while_stray 3)
       s1 body s2 /\
     Some (While (Some (@Location Host.PyFloat "x")) [None]) =
       Some (While test body) /\
     {| pos := 5; current_token := None;
        errors := [("Unexpected token type: SEMI", LineNo 2)] |} =
     snd (expect tokens_while_stray "RBRACE"
            (Some "Missing '}' at the end of while block") s2)) /\
  (exists name params body s1 s2,
     function_header tokens_func_stray 3 (Parser_init tokens_func_stray []) =
       (Ret (name, params), s1) /\
     block_run (parse_statement Host.py_int Host.py_float tokens_func_stray 3)
       s1 body s2 /\
     Some (@FunctionDecl Host.PyFloat "f" [] None [None]) =
       Some (FunctionDecl name params None body) /\
     {| pos := 7; current_token := None;
        errors := [("Unexpected token type: SEMI", LineNo 2)] |} =
     snd (expect tokens_func_stray "RBRACE"
            (Some "Expected '}' to end function body") s2)) /\
  (exists s1,
     parse_statement Host.py_int Host.py_float tokens_if_stray 3
       {| pos := 3; current_token := Some (tok "SEMI" ";" 2); errors := [] |} =
     (Ret None, s1)) /\
  (exists items,
     @serialize_list Host.PyFloat [None] = JList items /\
     List.length items = 1 /\
     nth_error items 0 = Some JNull) /\
  (@JDict Host.PyFloat
     [("errors",
       JList [JDict [("message", JStr "Unexpected token type: SEMI");
                     ("line", JInt 2)]])] =
   JDict [("errors",
           JList (map json_of_diagnostic
                    [("Unexpected token type: SEMI", LineNo 2)]))] /\
   [("Unexpected token type: SEMI", LineNo 2)] <> []).
Proof.
  pose proof (none_entries_of_statement_lists Host.py_int
                Host.py_float tokens_if_stray)
    as (H1 & H2 & _ & _ & H5 & H6 & _ & _ & _ & H10).
  pose proof (none_entries_of_statement_lists Host.py_int
                Host.py_float tokens_while_stray) as (_ & _ & H3 & _).
  pose proof (none_entries_of_statement_lists Host.py_int
                Host.py_float tokens_func_stray) as (_ & _ & _ & H4 & _).
  split; [ | split; [ | split; [ | split; [ | split; [ | split]]]]].
  - apply (H1 6 (Parser_init tokens_if_stray []) _
             {| pos := 5; current_token := None;
                errors := [("Unexpected token type: SEMI", LineNo 2)] |}).
    reflexivity.
  - apply (H2 (parse_expression Host.py_int Host.py_float tokens_if_stray 4)
             (parse_statement Host.py_int Host.py_float tokens_if_stray 3) 3
             (Parser_init tokens_if_stray [])).
    reflexivity.
  - apply (H3 (parse_expression Host.py_int Host.py_float tokens_while_stray 4)
             (parse_statement Host.py_int Host.py_float tokens_while_stray 3) 3
             (Parser_init tokens_while_stray [])).
    reflexivity.
  - apply (H4 (parse_statement Host.py_int Host.py_float tokens_func_stray 3) 3
             (Parser_init tokens_func_stray [])).
    reflexivity.
  - apply (H5 2 _ (tok "SEMI" ";" 2)); reflexivity.
  - apply (H6 [None] 0). reflexivity.
  - apply (H10 6 (Parser_init tokens_if_stray [])
             (Program [Some (If (Some (Location "x")) [None] [])])
             {| pos := 5; current_token := None;
                errors := [("Unexpected token type: SEMI", LineNo 2)] |}
             _
             {| pos := 5; current_token := None;
                errors := [("Unexpected token type: SEMI", LineNo 2)] |});
      reflexivity.
Defined.

(** ** Further instances on the sample inputs *)

Lemma failure_marker_records_diagnostic_witness :
  (exists d l,
     [("Unexpected token type: SEMI", LineNo 2)] = ([] ++ d :: l)%list) /\
  (exists d l,
     [("Invalid expression", LineNo 2)] = ([] ++ d :: l)%list).
Proof.
  split.
  - apply (proj1 (failure_marker_records_diagnostic Host.py_int Host.py_float
                    tokens_if_stray 3
                    {| pos := 3; current_token := Some (tok "SEMI" ";" 2);
                       errors := [] |}
                    {| pos := 4; current_token := Some (tok "RBRACE" "}" 3);
                       errors := [("Unexpected token type: SEMI", LineNo 2)] |})).
    + reflexivity.
    + discriminate.
  - apply (proj2 (failure_marker_records_diagnostic Host.py_int Host.py_float
                    tokens_if_stray 3
                    {| pos := 3; current_token := Some (tok "SEMI" ";" 2);
                       errors := [] |}
                    {| pos := 4; current_token := Some (tok "RBRACE" "}" 3);
                       errors := [("Invalid expression", LineNo 2)] |})).
    reflexivity.
Defined.

Lemma silent_parse_is_clean_witness :
  clean (@Program Host.PyFloat [Some (Print (Some (Integer 1)))]) = true.
Proof.
  apply (silent_parse_is_clean Host.py_int Host.py_float tokens_print 4
           (Parser_init tokens_print []) _
           {| pos := 3; current_token := None; errors := [] |});
    reflexivity.
Defined.

Lemma to_json_document_is_clean_witness :
  errors (Parser_init tokens_print []) = [] /\
  exists statements,
    JDict [("type", JStr "Program");
           ("statements",
            JList [JDict [("type", JStr "Print");
                          ("expression",
                           JDict [("type", JStr "Integer");
                                  ("value", @JInt Host.PyFloat 1)])]])] =
    _serialize_ast (Program statements) /\
    clean (Program statements) = true.
Proof.
  apply (to_json_document_is_clean Host.py_int Host.py_float tokens_print 4
           (Parser_init tokens_print []) _
           {| pos := 3; current_token := None; errors := [] |});
    reflexivity.
Defined.

Lemma earlier_diagnostics_suppress_tree_witness :
  exists l,
    JDict [("errors",
            JList [JDict [("message", JStr "Illegal character");
                          ("line", @JInt Host.PyFloat 1)]])] =
    JDict [("errors",
            JList (map json_of_diagnostic
                     ([("Illegal character", LineNo 1)] ++ l)%list))].
Proof.
  apply (earlier_diagnostics_suppress_tree Host.py_int Host.py_float
           tokens_print 4
           (Parser_init tokens_print [("Illegal character", LineNo 1)]) _
           {| pos := 3; current_token := None;
              errors := [("Illegal character", LineNo 1)] |}).
  - discriminate.
  - reflexivity.
Defined.

Lemma statement_dispatch_witness :
  statement_class "PRINT" (peek_is_lparen tokens_print (Parser_init tokens_print [])) =
    Some (class_name (@Print Host.PyFloat (Some (Integer 1)))) /\
  (forall name args,
     @Print Host.PyFloat (Some (Integer 1)) = FunctionCall name args ->
     name = "print") /\
  (forall loc e,
     @Print Host.PyFloat (Some (Integer 1)) = Assignment loc e ->
     loc = Some (Location "print")) /\
  (forall name params return_type body,
     @Print Host.PyFloat (Some (Integer 1)) =
       FunctionDecl name params return_type body ->
     return_type = None).
Proof.
  apply (statement_dispatch Host.py_int Host.py_float tokens_print 4
           (Parser_init tokens_print []) (tok "PRINT" "print" 1) _
           {| pos := 3; current_token := None; errors := [] |});
    reflexivity.
Defined.

Lemma to_json_lists_have_no_null_witness :
  no_null_items
    (JDict [("type", JStr "Program");
            ("statements",
             JList [JDict [("type", JStr "Print");
                           ("expression",
                            JDict [("type", JStr "Integer");
                                   ("value", @JInt Host.PyFloat 1)])]])]) =
  true.
Proof.
  apply (to_json_lists_have_no_null Host.py_int Host.py_float tokens_print 4
           (Parser_init tokens_print []) _
           {| pos := 3; current_token := None; errors := [] |});
    reflexivity.
Defined.

(** [8 - 3 - 2] *)
Lemma additive_chain_nests_left_witness :
  parse_expression Host.py_int Host.py_float
    [tok "INTEGER" "8" 1; tok "MINUS" "-" 1; tok "INTEGER" "3" 1;
     tok "MINUS" "-" 1; tok "INTEGER" "2" 1] 3
    (Parser_init
       [tok "INTEGER" "8" 1; tok "MINUS" "-" 1; tok "INTEGER" "3" 1;
        tok "MINUS" "-" 1; tok "INTEGER" "2" 1] []) =
  (Ret (Some (BinOp "-"
                (Some (BinOp "-" (Some (Integer 8)) (Some (Integer 3))))
                (Some (Integer 2)))),
   {| pos := 5; current_token := None; errors := [] |}).
Proof.
  apply (additive_chain_nests_left Host.py_int Host.py_float
           [tok "INTEGER" "8" 1; tok "MINUS" "-" 1; tok "INTEGER" "3" 1;
            tok "MINUS" "-" 1; tok "INTEGER" "2" 1]
           (tok "INTEGER" "8" 1) 8
           [(tok "MINUS" "-" 1, (tok "INTEGER" "3" 1, 3%Z));
            (tok "MINUS" "-" 1, (tok "INTEGER" "2" 1, 2%Z))] 3 []).
  - reflexivity.
  - split; reflexivity.
  - repeat constructor.
  - simpl. lia.
Defined.

(** * The calculator (prueba_calc_cientifica.py)

    A lexer over a text and a parser that evaluates while it parses.  A
    text is a list of code points.  The host's character classes
    ([str.isspace], [isdigit], [isalpha], [isalnum]), its conversions
    ([int], [float]) and its arithmetic on Python objects are parameters:
    nothing below depends on what they compute.  [calculator] and [main],
    the interactive loop around [Parser.statement], are not modelled. *)
Module Calc.

(** The code point of an ASCII character. *)
Definition chr (a : ascii) : N := N_of_ascii a.

(** The exceptions of the file, each an [Exception] with a message, and
    those of the host. *)
Inductive exn : Type :=
| UnexpectedChar (c : N)
    (* "Caracter inesperado: <c>" *)
| SyntaxError (expected found : string)
    (* "Error de sintaxis: Se esperaba <expected>, se encontro <found>" *)
| UnexpectedFactor
    (* "Error de sintaxis: Factor inesperado" *)
| DivisionByZero
    (* "Error: Division por cero" *)
| UndefinedVariable (name : list N)
    (* "Variable '<name>' no definida" *)
| HostError.
    (* ValueError, TypeError, OverflowError, ZeroDivisionError of the host's
       conversions and arithmetic *)

Inductive outcome (A : Type) : Type :=
| Ret (a : A)
| Raise (e : exn)
| OutOfFuel.
Arguments Ret {A} a.
Arguments Raise {A} e.
Arguments OutOfFuel {A}.

Section Calculator.

Context {num : Type}.

(** A Python object a token or a result can hold: [None], a number, a
    text. *)
Inductive value : Type :=
| VNone
| VNum (n : num)
| VText (s : list N).

Variable isspace isdigit isalpha isalnum : N -> bool.
Variable py_int py_float : list N -> option num.

(** [a op b] on Python objects ([None]: the host raises), [-a], [a == 0]
    and the equality of dictionary keys. *)
Variable arith : string -> value -> value -> option value.
Variable neg : value -> option value.
Variable is_zero : value -> bool.
Variable key_eqb : value -> value -> bool.

Record Token : Type := mkToken {
  type : string;
  value_of : value
}.

(** ** Lexer *)

Variable text : list N.

Record Lexer : Type := mkLexer {
  pos : nat;
  current_char : option N
}.

(** [Lexer.__init__] *)
Definition Lexer_init : Lexer :=
  {| pos := 0;
     current_char := match text with [] => None | c :: _ => Some c end |}.

Definition LM (A : Type) : Type := Lexer -> outcome A * Lexer.

Definition lbind {A B} (m : LM A) (f : A -> LM B) : LM B :=
  fun self =>
    match m self with
    | (Ret a, self') => f a self'
    | (Raise e, self') => (Raise e, self')
    | (OutOfFuel, self') => (OutOfFuel, self')
    end.

Notation "x <- m ;; k" := (lbind m (fun x => k))
  (at level 100, m at next level, right associativity).
Notation "m ;;; k" := (lbind m (fun _ => k))
  (at level 100, right associativity).

Definition advance : LM unit :=
  fun self =>
    let pos' := S (pos self) in
    (Ret tt, {| pos := pos';
                current_char :=
                  if Nat.ltb pos' (List.length text) then nth_error text pos'
                  else None |}).

Definition peek (self : Lexer) : option N :=
  let peek_pos := pos self + 1 in
  if Nat.ltb peek_pos (List.length text) then nth_error text peek_pos
  else None.

(** [self.current_char is not None and p(self.current_char)] *)
Definition char_is (p : N -> bool) (self : Lexer) : bool :=
  match current_char self with
  | Some c => p c
  | None => false
  end.

Fixpoint skip_whitespace (fuel : nat) : LM unit :=
  fun self =>
    if char_is isspace self then
      match fuel with
      | O => (OutOfFuel, self)
      | S fuel' => (advance ;;; skip_whitespace fuel') self
      end
    else (Ret tt, self).

(** The loop of [number]: the text read so far and the count of dots.  At
    a second dot the count is raised and the loop left. *)
Fixpoint number_loop (fuel : nat) (result : list N) (dot_count : nat)
    : LM (list N * nat) :=
  fun self =>
    match current_char self with
    | Some c =>
        if (isdigit c || N.eqb c (chr "."))%bool then
          match fuel with
          | O => (OutOfFuel, self)
          | S fuel' =>
              if N.eqb c (chr ".") then
                if Nat.ltb 1 (dot_count + 1) then
                  (Ret (result, dot_count + 1), self)
                else
                  (advance ;;;
                   number_loop fuel' (result ++ [c]) (dot_count + 1)) self
              else
                (advance ;;; number_loop fuel' (result ++ [c]) dot_count) self
          end
        else (Ret (result, dot_count), self)
    | None => (Ret (result, dot_count), self)
    end.

Definition number (fuel : nat) : LM Token :=
  r <- number_loop fuel [] 0 ;;
  fun self =>
    let (result, dot_count) := r in
    match (if Nat.eqb dot_count 0 then py_int result else py_float result) with
    | Some n => (Ret (mkToken "NUMBER" (VNum n)), self)
    | None => (Raise HostError, self)
    end.

Fixpoint identifier_loop (fuel : nat) (result : list N) : LM (list N) :=
  fun self =>
    match current_char self with
    | Some c =>
        if (isalnum c || N.eqb c (chr "_"))%bool then
          match fuel with
          | O => (OutOfFuel, self)
          | S fuel' => (advance ;;; identifier_loop fuel' (result ++ [c])) self
          end
        else (Ret result, self)
    | None => (Ret result, self)
    end.

Definition identifier (fuel : nat) : LM Token :=
  result <- identifier_loop fuel [] ;;
  fun self => (Ret (mkToken "ID" (VText result)), self).

(** [self.peek() == c] *)
Definition peek_is (c : N) (self : Lexer) : bool :=
  match peek self with
  | Some c' => N.eqb c' c
  | None => false
  end.

(** The branches of [get_next_token] on a character that is not a space.
    The statement [return Token(ASSIGN, '=')] stands after the [return] of
    the [')'] branch and is never run. *)
Definition token_at (fuel : nat) (c : N) : LM Token :=
  fun self =>
    if isdigit c then number fuel self
    else if (isalpha c || N.eqb c (chr "_"))%bool then identifier fuel self
    else if N.eqb c (chr "+") then
      (advance ;;; fun s => (Ret (mkToken "PLUS" (VText [chr "+"])), s)) self
    else if N.eqb c (chr "-") then
      (advance ;;; fun s => (Ret (mkToken "MINUS" (VText [chr "-"])), s)) self
    else if N.eqb c (chr "*") then
      (advance ;;;
       fun s =>
         if peek_is (chr "*") s then
           (advance ;;;
            fun s' =>
              (Ret (mkToken "POWER" (VText [chr "*"; chr "*"])), s')) s
         else (Ret (mkToken "TIMES" (VText [chr "*"])), s)) self
    else if N.eqb c (chr "/") then
      (advance ;;;
       fun s =>
         if peek_is (chr "/") s then
           (advance ;;;
            fun s' =>
              (Ret (mkToken "INT_DIVIDE" (VText [chr "/"; chr "/"])), s')) s
         else (Ret (mkToken "DIVIDE" (VText [chr "/"])), s)) self
    else if N.eqb c (chr "(") then
      (advance ;;; fun s => (Ret (mkToken "LPAREN" (VText [chr "("])), s)) self
    else if N.eqb c (chr ")") then
      (advance ;;; fun s => (Ret (mkToken "RPAREN" (VText [chr ")"])), s)) self
    else (Raise (UnexpectedChar c), self).

(** [get_next_token]: the [while] loop takes another turn only after
    [skip_whitespace]. *)
Fixpoint get_next_token (fuel : nat) : LM Token :=
  fun self =>
    match current_char self with
    | Some c =>
        if isspace c then
          match fuel with
          | O => (OutOfFuel, self)
          | S fuel' => (skip_whitespace fuel ;;; get_next_token fuel') self
          end
        else token_at fuel c self
    | None => (Ret (mkToken "EOF" VNone), self)
    end.

(** ** Parser and evaluator *)

Record Parser : Type := mkParser {
  lexer : Lexer;
  current_token : Token;
  env : list (value * value)
}.

Definition PM (A : Type) : Type := Parser -> outcome A * Parser.

Definition pbind {A B} (m : PM A) (f : A -> PM B) : PM B :=
  fun self =>
    match m self with
    | (Ret a, self') => f a self'
    | (Raise e, self') => (Raise e, self')
    | (OutOfFuel, self') => (OutOfFuel, self')
    end.

Notation "x <~ m ;; k" := (pbind m (fun x => k))
  (at level 100, m at next level, right associativity).
Notation "m ;;;; k" := (pbind m (fun _ => k))
  (at level 100, right associativity).

Definition pret {A} (a : A) : PM A := fun self => (Ret a, self).
Definition praise {A} (e : exn) : PM A := fun self => (Raise e, self).

(** [self.lexer.get_next_token()] *)
Definition next_token (fuel : nat) : PM Token :=
  fun self =>
    let (r, lx) := get_next_token fuel (lexer self) in
    let self' := {| lexer := lx; current_token := current_token self;
                    env := env self |} in
    match r with
    | Ret t => (Ret t, self')
    | Raise e => (Raise e, self')
    | OutOfFuel => (OutOfFuel, self')
    end.

(** [Parser.__init__]: the first token is read at construction. *)
Definition Parser_init (fuel : nat) (lx : Lexer) (e : list (value * value))
    : outcome Parser :=
  match get_next_token fuel lx with
  | (Ret t, lx') => Ret {| lexer := lx'; current_token := t; env := e |}
  | (Raise ex, _) => Raise ex
  | (OutOfFuel, _) => OutOfFuel
  end.

Definition set_current_token (t : Token) : PM unit :=
  fun self =>
    (Ret tt, {| lexer := lexer self; current_token := t; env := env self |}).

Definition eat (fuel : nat) (token_type : string) : PM unit :=
  fun self =>
    if String.eqb (type (current_token self)) token_type then
      (t <~ next_token fuel ;; set_current_token t) self
    else
      (Raise (SyntaxError token_type (type (current_token self))), self).

(** [key in self.env] and [self.env[key]] *)
Fixpoint env_get (e : list (value * value)) (key : value) : option value :=
  match e with
  | [] => None
  | (k, v) :: e' => if key_eqb k key then Some v else env_get e' key
  end.

(** [self.env[key] = v] *)
Fixpoint env_set (e : list (value * value)) (key v : value)
    : list (value * value) :=
  match e with
  | [] => [(key, v)]
  | (k, v') :: e' =>
      if key_eqb k key then (k, v) :: e' else (k, v') :: env_set e' key v
  end.

(** The host's [a op b]. *)
Definition apply_op (op : string) (a b : value) : PM value :=
  fun self =>
    match arith op a b with
    | Some r => (Ret r, self)
    | None => (Raise HostError, self)
    end.

Definition factor_body (expression factor : PM value) (fuel : nat) : PM value :=
  fun self =>
    let token := current_token self in
    if String.eqb (type token) "NUMBER" then
      (eat fuel "NUMBER" ;;;; pret (value_of token)) self
    else if String.eqb (type token) "ID" then
      (eat fuel "ID" ;;;;
       fun s =>
         match env_get (env s) (value_of token) with
         | Some v => (Ret v, s)
         | None =>
             (Raise (UndefinedVariable
                       match value_of token with
                       | VText name => name
                       | _ => []
                       end), s)
         end) self
    else if String.eqb (type token) "LPAREN" then
      (eat fuel "LPAREN" ;;;;
       result <~ expression ;;
       eat fuel "RPAREN" ;;;;
       pret result) self
    else if String.eqb (type token) "MINUS" then
      (eat fuel "MINUS" ;;;;
       v <~ factor ;;
       fun s =>
         match neg v with
         | Some r => (Ret r, s)
         | None => (Raise HostError, s)
         end) self
    else (Raise UnexpectedFactor, self).

(** [factor], with [fuel] levels of [-factor] left. *)
Fixpoint factor (expression : PM value) (fuel : nat) : PM value :=
  match fuel with
  | O => fun self => (OutOfFuel, self)
  | S fuel' => factor_body expression (factor expression fuel') fuel
  end.

(** The loop of [term]. *)
Fixpoint term_loop (factor : PM value) (lex_fuel fuel : nat) (result : value)
    : PM value :=
  fun self =>
    let ty := type (current_token self) in
    if str_in ty ["TIMES"; "DIVIDE"; "INT_DIVIDE"; "POWER"] then
      match fuel with
      | O => (OutOfFuel, self)
      | S fuel' =>
          if String.eqb ty "TIMES" then
            (eat lex_fuel "TIMES" ;;;;
             v <~ factor ;;
             r <~ apply_op "*" result v ;;
             term_loop factor lex_fuel fuel' r) self
          else if String.eqb ty "DIVIDE" then
            (eat lex_fuel "DIVIDE" ;;;;
             divisor <~ factor ;;
             if is_zero divisor then praise DivisionByZero
             else (r <~ apply_op "/" result divisor ;;
                   term_loop factor lex_fuel fuel' r)) self
          else if String.eqb ty "INT_DIVIDE" then
            (eat lex_fuel "INT_DIVIDE" ;;;;
             divisor <~ factor ;;
             if is_zero divisor then praise DivisionByZero
             else (r <~ apply_op "//" result divisor ;;
                   term_loop factor lex_fuel fuel' r)) self
          else if String.eqb ty "POWER" then
            (eat lex_fuel "POWER" ;;;;
             v <~ factor ;;
             r <~ apply_op "**" result v ;;
             term_loop factor lex_fuel fuel' r) self
          else term_loop factor lex_fuel fuel' result self
      end
    else (Ret result, self).

Definition term (factor : PM value) (fuel : nat) : PM value :=
  result <~ factor ;; term_loop factor fuel fuel result.

(** The loop of [expression]. *)
Fixpoint expression_loop (term : PM value) (lex_fuel fuel : nat)
    (result : value) : PM value :=
  fun self =>
    let ty := type (current_token self) in
    if str_in ty ["PLUS"; "MINUS"] then
      match fuel with
      | O => (OutOfFuel, self)
      | S fuel' =>
          if String.eqb ty "PLUS" then
            (eat lex_fuel "PLUS" ;;;;
             v <~ term ;;
             r <~ apply_op "+" result v ;;
             expression_loop term lex_fuel fuel' r) self
          else if String.eqb ty "MINUS" then
            (eat lex_fuel "MINUS" ;;;;
             v <~ term ;;
             r <~ apply_op "-" result v ;;
             expression_loop term lex_fuel fuel' r) self
          else expression_loop term lex_fuel fuel' result self
      end
    else (Ret result, self).

(** [expression], with [fuel] levels of parentheses left. *)
Fixpoint expression (fuel : nat) : PM value :=
  match fuel with
  | O => fun self => (OutOfFuel, self)
  | S fuel' =>
      let t := term (factor (expression fuel') fuel) fuel in
      result <~ t ;; expression_loop t fuel fuel result
  end.

Definition assignment (fuel : nat) : PM value :=
  fun self =>
    let var_name := value_of (current_token self) in
    (eat fuel "ID" ;;;;
     eat fuel "ASSIGN" ;;;;
     v <~ expression fuel ;;
     fun s =>
       (Ret v, {| lexer := lexer s; current_token := current_token s;
                  env := env_set (env s) var_name v |})) self.

Definition statement (fuel : nat) : PM value :=
  fun self =>
    if String.eqb (type (current_token self)) "ID" then
      (next <~ next_token fuel ;;
       if String.eqb (type next) "ASSIGN" then assignment fuel
       else expression fuel) self
    else expression fuel self.

(** The loop of [parse]. *)
Fixpoint parse_loop (stmt_fuel fuel : nat) (results : list value)
    : PM (list value) :=
  fun self =>
    if negb (String.eqb (type (current_token self)) "EOF") then
      match fuel with
      | O => (OutOfFuel, self)
      | S fuel' =>
          (r <~ statement stmt_fuel ;;
           parse_loop stmt_fuel fuel' (results ++ [r])) self
      end
    else (Ret results, self).

Definition parse (fuel : nat) : PM (list value) := parse_loop fuel fuel [].

(** The body of the [try] in [calculator] for one line of input: a lexer
    and a parser are made for the text and one statement is evaluated.  The
    tests on the blank line and on [exit], and the printing, are left
    out. *)
Definition calculator_line (fuel : nat) (e : list (value * value))
    : outcome value :=
  match Parser_init fuel Lexer_init e with
  | Ret parser => fst (statement fuel parser)
  | Raise ex => Raise ex
  | OutOfFuel => OutOfFuel
  end.

(** ** Predicates for the properties *)

(** The token types [get_next_token] can return. *)
Definition lexer_types : list string :=
  ["NUMBER"; "ID"; "PLUS"; "MINUS"; "TIMES"; "POWER"; "DIVIDE"; "INT_DIVIDE";
   "LPAREN"; "RPAREN"; "EOF"].

(** The cursor is not past the end of the text and [current_char] is the
    character under it. *)
Definition wf (self : Lexer) : Prop :=
  pos self <= List.length text /\
  current_char self = nth_error text (pos self).

(** In the host, a letter is alphanumeric. *)
Definition host_alnum : Prop :=
  forall c, isalpha c = true -> isalnum c = true.

(** In the host, [c] is no space, no digit and no letter. *)
Definition operator_char (c : N) : Prop :=
  isspace c = false /\ isdigit c = false /\ isalpha c = false.

Definition remaining (self : Lexer) : nat := List.length text - pos self.

(** The lexer with its cursor on position [p]. *)
Definition at_pos (p : nat) : Lexer :=
  {| pos := p; current_char := nth_error text p |}.

(** The longest prefix whose characters satisfy [p]. *)
Fixpoint take_while (p : N -> bool) (l : list N) : list N :=
  match l with
  | c :: l' => if p c then c :: take_while p l' else []
  | [] => []
  end.

(** What a run of the lexer returns, when it returns, satisfies [P]. *)
Definition lreturns {A} (P : A -> Prop) (run : outcome A * Lexer) : Prop :=
  forall a, fst run = Ret a -> P a.

(** A run of the lexer that does not exhaust its fuel, keeps the cursor
    invariant and does not move back; a returned result satisfies [Q]. *)
Definition lex_ok {A} (self : Lexer) (run : outcome A * Lexer)
    (Q : A -> Lexer -> Prop) : Prop :=
  match run with
  | (Ret a, self') => wf self' /\ pos self <= pos self' /\ Q a self'
  | (Raise _, self') => wf self' /\ pos self <= pos self'
  | (OutOfFuel, _) => False
  end.

(** A returned token and the state it is returned in satisfy [Q]. *)
Definition lpost {A} (Q : A -> Lexer -> Prop) (run : outcome A * Lexer)
    : Prop :=
  match run with
  | (Ret a, self') => Q a self'
  | _ => True
  end.

(** The characters [identifier] collects. *)
Definition identifier_char (c : N) : bool :=
  (isalnum c || N.eqb c (chr "_"))%bool.

(** What [self.peek() == c] sees after one [advance]. *)
Definition two_ahead (c : N) (self : Lexer) : bool :=
  match nth_error text (pos self + 2) with
  | Some c' => N.eqb c' c
  | None => false
  end.

(** What is left to parse: the characters after the cursor and the
    current token, unless it is [EOF]. *)
Definition measure (self : Parser) : nat :=
  remaining (lexer self) +
  (if String.eqb (type (current_token self)) "EOF" then 0 else 1).

(** A run of the parser that does not exhaust its fuel; when it returns,
    the lexer's invariant holds and [Q] does. *)
Definition par_ok {A} (run : outcome A * Parser) (Q : A -> Parser -> Prop)
    : Prop :=
  match run with
  | (Ret a, self') => wf (lexer self') /\ Q a self'
  | (Raise _, _) => True
  | (OutOfFuel, _) => False
  end.

(** After a [POWER] the cursor is on a ['*'], after an [INT_DIVIDE] on a
    ['/']. *)
Definition on_second_operator (t : Token) (self : Lexer) : Prop :=
  (type t = "POWER" -> current_char self = Some (chr "*")) /\
  (type t = "INT_DIVIDE" -> current_char self = Some (chr "/")).

(** A run that consumes: what is left to parse gets less. *)
Definition consumes (self : Parser) (run : outcome value * Parser) : Prop :=
  par_ok run (fun _ s' => measure s' < measure self).

(** A run of the parser leaves the environment as it was. *)
Definition keeps_env {A} (self : Parser) (run : outcome A * Parser) : Prop :=
  env (snd run) = env self.

(** ** The lexer never returns an [ASSIGN] token *)

Lemma lreturns_bind {A B} (P : B -> Prop) (m : LM A) (f : A -> LM B) self :
  (forall a s1, lreturns P (f a s1)) -> lreturns P (lbind m f self).
Proof.
  unfold lreturns, lbind. intros H b.
  destruct (m self) as [[a | e | ] s1]; simpl; try discriminate.
  apply H.
Qed.

Lemma lreturns_ret {A} (P : A -> Prop) (a : A) self :
  P a -> lreturns P (Ret a, self).
Proof. intros H a' Ha. simpl in Ha. now injection Ha as <-. Qed.

Lemma number_type fuel self :
  lreturns (fun t => type t = "NUMBER") (number fuel self).
Proof.
  unfold number. apply lreturns_bind. intros [result dot_count] s1.
  destruct (if Nat.eqb dot_count 0 then py_int result else py_float result);
    [now apply lreturns_ret | intros a Ha; discriminate Ha].
Qed.

Lemma identifier_type fuel self :
  lreturns (fun t => type t = "ID") (identifier fuel self).
Proof.
  unfold identifier. apply lreturns_bind. intros result s1.
  now apply lreturns_ret.
Qed.

Lemma lreturns_weaken {A} (P Q : A -> Prop) (run : outcome A * Lexer) :
  lreturns P run -> (forall a, P a -> Q a) -> lreturns Q run.
Proof. unfold lreturns. auto. Qed.

Lemma token_at_types fuel c self :
  lreturns (fun t => str_in (type t) lexer_types = true) (token_at fuel c self).
Proof.
  unfold token_at.
  destruct (isdigit c).
  { eapply lreturns_weaken; [apply number_type | ].
    intros t ->. reflexivity. }
  destruct (isalpha c || N.eqb c (chr "_"))%bool.
  { eapply lreturns_weaken; [apply identifier_type | ].
    intros t ->. reflexivity. }
  destruct (N.eqb c (chr "+")).
  { apply lreturns_bind. intros [] s1. now apply lreturns_ret. }
  destruct (N.eqb c (chr "-")).
  { apply lreturns_bind. intros [] s1. now apply lreturns_ret. }
  destruct (N.eqb c (chr "*")).
  { apply lreturns_bind. intros [] s1. destruct (peek_is (chr "*") s1).
    - apply lreturns_bind. intros [] s2. now apply lreturns_ret.
    - now apply lreturns_ret. }
  destruct (N.eqb c (chr "/")).
  { apply lreturns_bind. intros [] s1. destruct (peek_is (chr "/") s1).
    - apply lreturns_bind. intros [] s2. now apply lreturns_ret.
    - now apply lreturns_ret. }
  destruct (N.eqb c (chr "(")).
  { apply lreturns_bind. intros [] s1. now apply lreturns_ret. }
  destruct (N.eqb c (chr ")")).
  { apply lreturns_bind. intros [] s1. now apply lreturns_ret. }
  intros a Ha. discriminate Ha.
Qed.

Lemma get_next_token_types : forall fuel self,
  lreturns (fun t => str_in (type t) lexer_types = true)
    (get_next_token fuel self).
Proof.
  induction fuel as [ | fuel IH]; intros self; simpl;
    destruct (current_char self) as [c | ];
    try (now apply lreturns_ret);
    destruct (isspace c);
    try apply token_at_types.
  - intros a Ha. discriminate Ha.
  - apply lreturns_bind. intros [] s1. apply IH.
Qed.

(** Whatever the text and the host's character classes, a token returned
    by [get_next_token] has one of eleven types, and [ASSIGN] is not among
    them: ['='] is never turned into a token. *)
Theorem get_next_token_never_assign (fuel : nat) (self : Lexer) (t : Token)
    (self' : Lexer) :
  get_next_token fuel self = (Ret t, self') ->
  In (type t) lexer_types /\ type t <> "ASSIGN".
Proof.
  intros Hrun.
  pose proof (get_next_token_types fuel self t (f_equal fst Hrun)) as H.
  unfold str_in in H. apply existsb_exists in H as (ty & Hin & Heq).
  apply String.eqb_eq in Heq. subst ty. split; [exact Hin | ].
  intros Hty. rewrite Hty in Hin. simpl in Hin.
  repeat (destruct Hin as [Hin | Hin]; [discriminate Hin | ]). exact Hin.
Qed.

(** ** The environment is never written *)

Lemma keeps_env_bind {A B} (m : PM A) (f : A -> PM B) self :
  keeps_env self (m self) ->
  (forall a s1, keeps_env s1 (f a s1)) ->
  keeps_env self (pbind m f self).
Proof.
  unfold keeps_env, pbind. intros Hm Hf.
  destruct (m self) as [[a | e | ] s1]; simpl in *; auto.
  now rewrite Hf.
Qed.

Lemma keeps_env_refl {A} (r : outcome A) self : keeps_env self (r, self).
Proof. reflexivity. Qed.

Lemma next_token_keeps fuel self : keeps_env self (next_token fuel self).
Proof.
  unfold keeps_env, next_token.
  destruct (get_next_token fuel (lexer self)) as [[t | e | ] lx]; reflexivity.
Qed.

Lemma eat_keeps fuel ty self : keeps_env self (eat fuel ty self).
Proof.
  unfold eat. destruct (String.eqb (type (current_token self)) ty).
  - apply keeps_env_bind; [apply next_token_keeps | ].
    intros t s1. reflexivity.
  - reflexivity.
Qed.

Lemma apply_op_keeps op a b self : keeps_env self (apply_op op a b self).
Proof. unfold keeps_env, apply_op. now destruct (arith op a b). Qed.

Ltac env_step lem :=
  apply keeps_env_bind; [ apply lem | intros ? ? ].

Lemma factor_keeps (expression : PM value) :
  (forall s, keeps_env s (expression s)) ->
  forall fuel self, keeps_env self (factor expression fuel self).
Proof.
  intros Hexp. induction fuel as [ | fuel IH]; intros self; [reflexivity | ].
  cbn [factor]. unfold factor_body. cbv zeta.
  destruct (String.eqb (type (current_token self)) "NUMBER").
  { env_step eat_keeps. reflexivity. }
  destruct (String.eqb (type (current_token self)) "ID").
  { env_step eat_keeps.
    unfold keeps_env. now destruct (env_get (env s1) _). }
  destruct (String.eqb (type (current_token self)) "LPAREN").
  { env_step eat_keeps. env_step Hexp. env_step eat_keeps. reflexivity. }
  destruct (String.eqb (type (current_token self)) "MINUS").
  { env_step eat_keeps. env_step IH.
    unfold keeps_env. now destruct (neg a0). }
  reflexivity.
Qed.

Lemma term_loop_keeps (fac : PM value) lex_fuel :
  (forall s, keeps_env s (fac s)) ->
  forall fuel result self,
    keeps_env self (term_loop fac lex_fuel fuel result self).
Proof.
  intros Hfac. induction fuel as [ | fuel IH]; intros result self;
    cbn [term_loop]; cbv zeta;
    destruct (str_in (type (current_token self))
                ["TIMES"; "DIVIDE"; "INT_DIVIDE"; "POWER"]);
    try reflexivity.
  destruct (String.eqb (type (current_token self)) "TIMES").
  { env_step eat_keeps. env_step Hfac. env_step apply_op_keeps. apply IH. }
  destruct (String.eqb (type (current_token self)) "DIVIDE").
  { env_step eat_keeps. env_step Hfac.
    destruct (is_zero a0); [reflexivity | ].
    env_step apply_op_keeps. apply IH. }
  destruct (String.eqb (type (current_token self)) "INT_DIVIDE").
  { env_step eat_keeps. env_step Hfac.
    destruct (is_zero a0); [reflexivity | ].
    env_step apply_op_keeps. apply IH. }
  destruct (String.eqb (type (current_token self)) "POWER").
  { env_step eat_keeps. env_step Hfac. env_step apply_op_keeps. apply IH. }
  apply IH.
Qed.

Lemma term_keeps (fac : PM value) fuel :
  (forall s, keeps_env s (fac s)) ->
  forall self, keeps_env self (term fac fuel self).
Proof.
  intros Hfac self. unfold term. env_step Hfac.
  now apply term_loop_keeps.
Qed.

Lemma expression_loop_keeps (trm : PM value) lex_fuel :
  (forall s, keeps_env s (trm s)) ->
  forall fuel result self,
    keeps_env self (expression_loop trm lex_fuel fuel result self).
Proof.
  intros Htrm. induction fuel as [ | fuel IH]; intros result self;
    cbn [expression_loop]; cbv zeta;
    destruct (str_in (type (current_token self)) ["PLUS"; "MINUS"]);
    try reflexivity.
  destruct (String.eqb (type (current_token self)) "PLUS").
  { env_step eat_keeps. env_step Htrm. env_step apply_op_keeps. apply IH. }
  destruct (String.eqb (type (current_token self)) "MINUS").
  { env_step eat_keeps. env_step Htrm. env_step apply_op_keeps. apply IH. }
  apply IH.
Qed.

Lemma expression_keeps : forall fuel self,
  keeps_env self (expression fuel self).
Proof.
  induction fuel as [ | fuel IH]; intros self; [reflexivity | ].
  cbn [expression]. cbv zeta.
  assert (Htrm : forall s,
             keeps_env s (term (factor (expression fuel) (S fuel)) (S fuel) s)).
  { intros s. apply term_keeps. intros s'. now apply factor_keeps. }
  env_step Htrm. now apply expression_loop_keeps.
Qed.

(** With a lexer that never returns [ASSIGN], [statement] never reaches
    [assignment]: after an identifier it reads one token, drops it and
    evaluates an expression from the identifier. *)
Lemma statement_after_identifier fuel self t s1 :
  type (current_token self) = "ID" ->
  next_token fuel self = (Ret t, s1) ->
  statement fuel self = expression fuel s1 /\
  current_token s1 = current_token self /\ env s1 = env self.
Proof.
  intros Hty Hnext. unfold statement, pbind. rewrite Hty, Hnext. simpl.
  assert (Ht : type t <> "ASSIGN").
  { revert Hnext. unfold next_token.
    destruct (get_next_token fuel (lexer self)) as [[t' | e | ] lx] eqn:Hg;
      try discriminate.
    intros H. injection H as <- _.
    now apply (get_next_token_never_assign _ _ _ _ Hg). }
  apply String.eqb_neq in Ht. rewrite Ht. split; [reflexivity | ].
  revert Hnext. unfold next_token.
  destruct (get_next_token fuel (lexer self)) as [[t' | e | ] lx];
    try discriminate.
  intros H. injection H as _ <-. auto.
Qed.

Lemma statement_keeps fuel self : keeps_env self (statement fuel self).
Proof.
  unfold statement.
  destruct (String.eqb (type (current_token self)) "ID") eqn:Hty;
    [ | apply expression_keeps].
  apply String.eqb_eq in Hty. unfold pbind.
  destruct (next_token fuel self) as [[t | e | ] s1] eqn:Hnext;
    try (pose proof (next_token_keeps fuel self) as H; rewrite Hnext in H;
         exact H).
  destruct (statement_after_identifier fuel self t s1 Hty Hnext)
    as (Hst & _ & He).
  unfold statement, pbind in Hst. rewrite Hnext in Hst.
  apply String.eqb_eq in Hty. rewrite Hty in Hst. rewrite Hst.
  unfold keeps_env. rewrite <- He. apply expression_keeps.
Qed.

Lemma parse_loop_keeps sf : forall fuel results self,
  keeps_env self (parse_loop sf fuel results self).
Proof.
  induction fuel as [ | fuel IH]; intros results self;
    cbn [parse_loop];
    destruct (negb (String.eqb (type (current_token self)) "EOF"));
    try reflexivity.
  env_step statement_keeps. apply IH.
Qed.

(** No run of [statement] or [parse] writes the environment: whatever the
    text, the fuel and the outcome, [env] is afterwards what it was, so the
    calculator never defines a variable. *)
Theorem environment_is_never_written (fuel : nat) (self : Parser) :
  env (snd (statement fuel self)) = env self /\
  env (snd (parse fuel self)) = env self.
Proof.
  split; [apply statement_keeps | apply parse_loop_keeps].
Qed.

(** After a leading identifier [statement] reads one more token from the
    lexer and drops it: the statement is evaluated as the expression that
    starts at the identifier and goes on after the dropped token. *)
Theorem statement_drops_token_after_identifier (fuel : nat) (self : Parser)
    (t : Token) (s1 : Parser) :
  type (current_token self) = "ID" ->
  next_token fuel self = (Ret t, s1) ->
  statement fuel self = expression fuel s1 /\
  current_token s1 = current_token self /\ env s1 = env self.
Proof. apply statement_after_identifier. Qed.

Lemma pbind_not_ret {A B} (m : PM A) (f : A -> PM B) self :
  (forall a, fst (m self) <> Ret a) ->
  forall b, fst (pbind m f self) <> Ret b.
Proof.
  unfold pbind. intros H b.
  destruct (m self) as [[a | e | ] s1]; simpl in *; try discriminate.
  now destruct (H a).
Qed.

Lemma factor_undefined (exp : PM value) fuel self :
  type (current_token self) = "ID" ->
  env self = [] ->
  forall v, fst (factor exp fuel self) <> Ret v.
Proof.
  intros Hty Henv v. destruct fuel as [ | fuel]; [discriminate | ].
  cbn [factor]. unfold factor_body. cbv zeta. rewrite Hty.
  change (String.eqb "ID" "NUMBER") with false.
  change (String.eqb "ID" "ID") with true. cbv iota.
  pose proof (eat_keeps (S fuel) "ID" self) as Hk.
  unfold keeps_env in Hk. unfold pbind.
  destruct (eat (S fuel) "ID" self) as [[[] | e | ] s1]; simpl in Hk |- *;
    try discriminate.
  rewrite Hk, Henv. simpl. discriminate.
Qed.

Lemma expression_undefined fuel self :
  type (current_token self) = "ID" ->
  env self = [] ->
  forall v, fst (expression fuel self) <> Ret v.
Proof.
  intros Hty Henv. destruct fuel as [ | fuel]; [discriminate | ].
  cbn [expression]. cbv zeta. apply pbind_not_ret.
  unfold term. apply pbind_not_ret. now apply factor_undefined.
Qed.

Lemma statement_undefined (fuel : nat) (self : Parser) (v : value) :
  type (current_token self) = "ID" ->
  env self = [] ->
  fst (statement fuel self) <> Ret v.
Proof.
  intros Hty Henv Hret.
  destruct (next_token fuel self) as [[t | e | ] s1] eqn:Hnext.
  - destruct (statement_after_identifier fuel self t s1 Hty Hnext)
      as (Hst & Hc & He).
    rewrite Hst in Hret.
    apply (expression_undefined fuel s1) in Hret; congruence.
  - unfold statement, pbind in Hret.
    apply String.eqb_eq in Hty. rewrite Hty, Hnext in Hret. discriminate.
  - unfold statement, pbind in Hret.
    apply String.eqb_eq in Hty. rewrite Hty, Hnext in Hret. discriminate.
Qed.

(** ** The lexer moves forward and stops *)

Lemma lexer_advance_eq self : advance self = (Ret tt, at_pos (S (pos self))).
Proof.
  unfold advance, at_pos. cbv zeta. f_equal. f_equal.
  destruct (Nat.ltb_spec (S (pos self)) (List.length text)) as [H | H];
    [reflexivity | ].
  symmetry. now apply nth_error_None.
Qed.

Lemma cursor_inside self c :
  wf self -> current_char self = Some c -> pos self < List.length text.
Proof.
  intros [_ Hw] Hc. rewrite Hc in Hw. apply nth_error_Some. congruence.
Qed.

Lemma wf_advanced self c :
  wf self -> current_char self = Some c -> wf (at_pos (S (pos self))).
Proof.
  intros Hw Hc. pose proof (cursor_inside _ _ Hw Hc). split; simpl; [lia | reflexivity].
Qed.

Lemma lex_ok_bind {A B} (m : LM A) (f : A -> LM B) self Q1
    (Q : B -> Lexer -> Prop) :
  lex_ok self (m self) Q1 ->
  (forall a s1, wf s1 -> pos self <= pos s1 -> Q1 a s1 ->
                lex_ok self (f a s1) Q) ->
  lex_ok self (lbind m f self) Q.
Proof.
  unfold lbind. destruct (m self) as [[a | e | ] s1]; simpl; intros H Hf; auto.
  destruct H as (Hw & Hp & HQ). now apply Hf.
Qed.

Lemma lex_ok_from {A} self s1 (run : outcome A * Lexer)
    (Q' Q : A -> Lexer -> Prop) :
  lex_ok s1 run Q' -> pos self <= pos s1 ->
  (forall a s', wf s' -> pos s1 <= pos s' -> Q' a s' -> Q a s') ->
  lex_ok self run Q.
Proof.
  destruct run as [[a | e | ] s']; simpl; intros H Hp HQ; auto.
  - destruct H as (Hw & Hp' & Hq). repeat split; auto; try apply Hw. lia.
  - destruct H as (Hw & Hp'). split; auto. lia.
Qed.

(** One [advance] from a character, then [k] from the next position. *)
Lemma lex_ok_step {A} (k : LM A) self c (Q : A -> Lexer -> Prop) :
  wf self -> current_char self = Some c ->
  lex_ok (at_pos (S (pos self))) (k (at_pos (S (pos self))))
    (fun a s' => S (pos self) <= pos s' -> Q a s') ->
  lex_ok self (lbind advance (fun _ => k) self) Q.
Proof.
  intros Hw Hc Hk. unfold lbind. rewrite lexer_advance_eq.
  eapply lex_ok_from; [exact Hk | simpl; lia | ].
  intros a s' _ Hp Hq. now apply Hq.
Qed.

Lemma remaining_advanced self c fuel :
  wf self -> current_char self = Some c -> remaining self <= S fuel ->
  remaining (at_pos (S (pos self))) <= fuel.
Proof. unfold remaining. simpl. lia. Qed.

Lemma fuel_left self c fuel :
  wf self -> current_char self = Some c -> remaining self <= fuel ->
  exists fuel', fuel = S fuel'.
Proof.
  intros Hw Hc Hr. pose proof (cursor_inside _ _ Hw Hc). unfold remaining in Hr.
  destruct fuel as [ | fuel']; [lia | now exists fuel'].
Qed.

Lemma char_is_some p self :
  char_is p self = true -> exists c, current_char self = Some c /\ p c = true.
Proof.
  unfold char_is. destruct (current_char self) as [c | ]; [ | discriminate].
  intros H. now exists c.
Qed.

Lemma skip_whitespace_ok : forall fuel self,
  wf self -> remaining self <= fuel ->
  lex_ok self (skip_whitespace fuel self)
    (fun _ s' => char_is isspace s' = false /\
                 (char_is isspace self = true -> pos self < pos s')).
Proof.
  induction fuel as [ | fuel IH]; intros self Hw Hr; cbn [skip_whitespace];
    destruct (char_is isspace self) eqn:Hc;
    try (simpl; repeat split; auto; try apply Hw; discriminate).
  - destruct (char_is_some _ _ Hc) as (c & Hcc & _).
    destruct (fuel_left _ _ _ Hw Hcc Hr) as (f & Hf). discriminate Hf.
  - destruct (char_is_some _ _ Hc) as (c & Hcc & _).
    apply (lex_ok_step _ _ c); auto.
    eapply lex_ok_from;
      [apply IH; [now apply (wf_advanced self c)
                 | now apply (remaining_advanced self c)]
      | lia | ].
    intros [] s' _ Hp (Hq & _) Hp'. split; [exact Hq | intros _; lia].
Qed.

Lemma number_loop_ok : forall fuel result dot_count self,
  wf self -> remaining self <= fuel ->
  lex_ok self (number_loop fuel result dot_count self)
    (fun _ s' =>
       dot_count = 0 -> current_char self <> None -> char_is isdigit self = true ->
       pos self < pos s').
Proof.
  induction fuel as [ | fuel IH]; intros result dot_count self Hw Hr;
    cbn [number_loop]; destruct (current_char self) as [c | ] eqn:Hcc;
    try (simpl; repeat split; auto; try apply Hw; congruence).
  - destruct (fuel_left _ _ _ Hw Hcc Hr) as (f & Hf). discriminate Hf.
  - assert (Hnext : forall r d,
               lex_ok self
                 (lbind advance (fun _ => number_loop fuel r d) self)
                 (fun _ s' => pos self < pos s')).
    { intros r d. apply (lex_ok_step _ _ c); auto.
      eapply lex_ok_from;
        [apply IH; [now apply (wf_advanced self c)
                   | now apply (remaining_advanced self c)]
        | lia | ].
      intros a s' _ Hp _ Hp'. lia. }
    destruct (isdigit c || N.eqb c (chr "."))%bool eqn:Hd.
    + destruct (N.eqb c (chr ".")).
      * destruct (Nat.ltb_spec 1 (dot_count + 1)) as [Hlt | Hge].
        -- simpl. repeat split; auto; try apply Hw. intros ->. simpl in Hlt. lia.
        -- eapply lex_ok_from; [apply Hnext | lia | ].
           intros a s' _ _ Hp. simpl in Hp. auto.
      * eapply lex_ok_from; [apply Hnext | lia | ].
        intros a s' _ _ Hp. simpl in Hp. auto.
    + simpl. repeat split; auto; try apply Hw. intros _ _.
      unfold char_is. rewrite Hcc. intros Hdig. rewrite Hdig in Hd.
      discriminate Hd.
Qed.

Lemma number_ok fuel self c :
  wf self -> remaining self <= fuel ->
  current_char self = Some c -> isdigit c = true ->
  lex_ok self (number fuel self)
    (fun t s' => pos self < pos s' /\ type t = "NUMBER").
Proof.
  intros Hw Hr Hcc Hd. unfold number.
  eapply lex_ok_bind; [now apply number_loop_ok | ].
  intros [result dot_count] s1 Hw1 Hp1 Hq. cbv beta in Hq.
  assert (Hlt : pos self < pos s1).
  { apply Hq; [reflexivity | congruence | ].
    unfold char_is. now rewrite Hcc. }
  destruct (if Nat.eqb dot_count 0 then py_int result else py_float result);
    simpl; repeat split; auto; try apply Hw1.
Qed.

Lemma identifier_loop_ok : forall fuel result self,
  wf self -> remaining self <= fuel ->
  lex_ok self (identifier_loop fuel result self)
    (fun _ s' =>
       char_is (fun c => isalnum c || N.eqb c (chr "_"))%bool self = true ->
       pos self < pos s').
Proof.
  induction fuel as [ | fuel IH]; intros result self Hw Hr;
    cbn [identifier_loop]; unfold char_is;
    destruct (current_char self) as [c | ] eqn:Hcc;
    try (simpl; repeat split; auto; try apply Hw; congruence).
  - destruct (fuel_left _ _ _ Hw Hcc Hr) as (f & Hf). discriminate Hf.
  - destruct (isalnum c || N.eqb c (chr "_"))%bool eqn:Hd.
    + apply (lex_ok_step _ _ c); auto.
      eapply lex_ok_from;
        [apply IH; [now apply (wf_advanced self c)
                   | now apply (remaining_advanced self c)]
        | lia | ].
      intros a s' _ Hp _ Hp' _. lia.
    + simpl. repeat split; auto; try apply Hw. discriminate.
Qed.

Lemma identifier_ok fuel self c :
  host_alnum ->
  wf self -> remaining self <= fuel ->
  current_char self = Some c -> (isalpha c || N.eqb c (chr "_"))%bool = true ->
  lex_ok self (identifier fuel self)
    (fun t s' => pos self < pos s' /\ type t = "ID").
Proof.
  intros Hhost Hw Hr Hcc Hd. unfold identifier.
  eapply lex_ok_bind; [now apply identifier_loop_ok | ].
  intros result s1 Hw1 Hp1 Hq. cbv beta in Hq.
  simpl. repeat split; auto; try apply Hw1. apply Hq.
  unfold char_is. rewrite Hcc.
  apply Bool.orb_true_iff in Hd as [Hd | Hd];
    apply Bool.orb_true_iff; [left; now apply Hhost | now right].
Qed.

Lemma peek_advanced p c :
  peek_is c (at_pos (S p)) = true -> S (S p) < List.length text.
Proof.
  unfold peek_is, peek. simpl.
  destruct (Nat.ltb_spec (S (p + 1)) (List.length text)) as [H | H];
    [lia | discriminate].
Qed.

(** A single-character token, after its [advance]. *)
Lemma token_at_single self c ty v :
  wf self -> current_char self = Some c -> ty <> "EOF" ->
  lex_ok self
    (lbind advance (fun _ s => (Ret (mkToken ty v), s)) self)
    (fun t s' => pos self < pos s' /\ type t <> "EOF").
Proof.
  intros Hw Hcc Hty. unfold lbind. rewrite lexer_advance_eq. simpl.
  pose proof (wf_advanced _ _ Hw Hcc) as Hw'.
  repeat split; auto; try apply Hw'; lia.
Qed.

(** A token of one or two characters, after its first [advance]. *)
Lemma token_at_double self c c2 ty v ty2 v2 :
  wf self -> current_char self = Some c -> ty <> "EOF" -> ty2 <> "EOF" ->
  lex_ok self
    (lbind advance
       (fun _ s =>
          if peek_is c2 s then
            lbind advance (fun _ s' => (Ret (mkToken ty2 v2), s')) s
          else (Ret (mkToken ty v), s)) self)
    (fun t s' => pos self < pos s' /\ type t <> "EOF").
Proof.
  intros Hw Hcc Hty Hty2. unfold lbind at 1. rewrite lexer_advance_eq.
  pose proof (wf_advanced _ _ Hw Hcc) as Hw'.
  destruct (peek_is c2 (at_pos (S (pos self)))) eqn:Hpk.
  - unfold lbind. rewrite lexer_advance_eq. simpl.
    apply peek_advanced in Hpk. repeat split; auto; simpl; lia.
  - simpl. repeat split; auto; try apply Hw'; lia.
Qed.

Lemma token_at_ok fuel c self :
  host_alnum ->
  wf self -> remaining self <= fuel -> current_char self = Some c ->
  lex_ok self (token_at fuel c self)
    (fun t s' => pos self < pos s' /\ type t <> "EOF").
Proof.
  intros Hhost Hw Hr Hcc. unfold token_at.
  destruct (isdigit c) eqn:Hdig.
  { eapply lex_ok_from; [now apply (number_ok fuel self c) | lia | ].
    intros t s' _ _ (Hp & Hty). split; [exact Hp | ].
    rewrite Hty. discriminate. }
  destruct (isalpha c || N.eqb c (chr "_"))%bool eqn:Hal.
  { eapply lex_ok_from; [now apply (identifier_ok fuel self c) | lia | ].
    intros t s' _ _ (Hp & Hty). split; [exact Hp | ].
    rewrite Hty. discriminate. }
  destruct (N.eqb c (chr "+")).
  { apply (token_at_single self c); auto. discriminate. }
  destruct (N.eqb c (chr "-")).
  { apply (token_at_single self c); auto. discriminate. }
  destruct (N.eqb c (chr "*")).
  { apply (token_at_double self c); auto; discriminate. }
  destruct (N.eqb c (chr "/")).
  { apply (token_at_double self c); auto; discriminate. }
  destruct (N.eqb c (chr "(")).
  { apply (token_at_single self c); auto. discriminate. }
  destruct (N.eqb c (chr ")")).
  { apply (token_at_single self c); auto. discriminate. }
  simpl. split; [exact Hw | lia].
Qed.

Lemma get_next_token_ok :
  host_alnum ->
  forall fuel self,
    wf self -> remaining self <= fuel ->
    lex_ok self (get_next_token fuel self)
      (fun t s' =>
         if String.eqb (type t) "EOF" then current_char s' = None
         else pos self < pos s').
Proof.
  intros Hhost.
  induction fuel as [ | fuel IH]; intros self Hw Hr; cbn [get_next_token];
    destruct (current_char self) as [c | ] eqn:Hcc;
    try (simpl; repeat split; auto; apply Hw).
  - destruct (fuel_left _ _ _ Hw Hcc Hr) as (f & Hf). discriminate Hf.
  - destruct (isspace c) eqn:Hsp.
    + eapply lex_ok_bind; [now apply skip_whitespace_ok | ].
      intros [] s1 Hw1 Hp1 (_ & Hq).
      assert (Hlt : pos self < pos s1).
      { apply Hq. unfold char_is. now rewrite Hcc. }
      eapply lex_ok_from;
        [apply IH; [exact Hw1 | ] | lia | ].
      * destruct Hw1 as (Hb & _). unfold remaining in *. lia.
      * intros t s' _ Hp. cbv beta.
        destruct (String.eqb (type t) "EOF"); auto. lia.
    + eapply lex_ok_from; [now apply token_at_ok | lia | ].
      intros t s' _ _ (Hp & Hty). apply String.eqb_neq in Hty.
      now rewrite Hty.
Qed.

(** With fuel for the characters that are left, [get_next_token] does not
    exhaust it; the cursor stays inside the text; an [EOF] token is
    returned at the end of the text only, and any other token moves the
    cursor forward.  The host's letters are taken to be alphanumeric. *)
Theorem get_next_token_progress (fuel : nat) (self : Lexer) :
  host_alnum ->
  wf self -> remaining self <= fuel ->
  match get_next_token fuel self with
  | (Ret t, self') =>
      wf self' /\
      (if String.eqb (type t) "EOF" then current_char self' = None
       else pos self < pos self')
  | (Raise _, self') => wf self' /\ pos self <= pos self'
  | (OutOfFuel, _) => False
  end.
Proof.
  intros Hhost Hw Hr.
  pose proof (get_next_token_ok Hhost fuel self Hw Hr) as H.
  unfold lex_ok in H.
  destruct (get_next_token fuel self) as [[t | e | ] s']; auto.
  destruct H as (Hw' & _ & Hq). now split.
Qed.

(** ** Two-character operators *)

Lemma peek_eq self : peek self = nth_error text (pos self + 1).
Proof.
  unfold peek. cbv zeta.
  destruct (Nat.ltb_spec (pos self + 1) (List.length text)) as [H | H];
    [reflexivity | ].
  symmetry. now apply nth_error_None.
Qed.

Lemma get_next_token_at fuel self c :
  current_char self = Some c -> isspace c = false ->
  get_next_token fuel self = token_at fuel c self.
Proof. intros Hcc Hsp. destruct fuel; simpl; now rewrite Hcc, Hsp. Qed.

Lemma peek_is_advanced c self :
  peek_is c (at_pos (S (pos self))) = two_ahead c self.
Proof.
  unfold peek_is, two_ahead. rewrite peek_eq. cbn [pos at_pos].
  now replace (S (pos self) + 1) with (pos self + 2) by lia.
Qed.

Lemma star_token fuel self :
  operator_char (chr "*") ->
  current_char self = Some (chr "*") ->
  get_next_token fuel self =
    if two_ahead (chr "*") self then
      (Ret (mkToken "POWER" (VText [chr "*"; chr "*"])), at_pos (pos self + 2))
    else (Ret (mkToken "TIMES" (VText [chr "*"])), at_pos (pos self + 1)).
Proof.
  intros (Hsp & Hdig & Hal) Hcc.
  rewrite (get_next_token_at fuel self _ Hcc Hsp).
  unfold token_at. rewrite Hdig, Hal.
  change (N.eqb (chr "*") (chr "_")) with false.
  change (N.eqb (chr "*") (chr "+")) with false.
  change (N.eqb (chr "*") (chr "-")) with false.
  change (N.eqb (chr "*") (chr "*")) with true. cbn [orb].
  unfold lbind at 1. rewrite lexer_advance_eq, peek_is_advanced.
  destruct (two_ahead (chr "*") self).
  - unfold lbind. rewrite lexer_advance_eq. simpl.
    now replace (pos self + 2) with (S (S (pos self))) by lia.
  - now replace (pos self + 1) with (S (pos self)) by lia.
Qed.

Lemma slash_token fuel self :
  operator_char (chr "/") ->
  current_char self = Some (chr "/") ->
  get_next_token fuel self =
    if two_ahead (chr "/") self then
      (Ret (mkToken "INT_DIVIDE" (VText [chr "/"; chr "/"])),
       at_pos (pos self + 2))
    else (Ret (mkToken "DIVIDE" (VText [chr "/"])), at_pos (pos self + 1)).
Proof.
  intros (Hsp & Hdig & Hal) Hcc.
  rewrite (get_next_token_at fuel self _ Hcc Hsp).
  unfold token_at. rewrite Hdig, Hal.
  change (N.eqb (chr "/") (chr "_")) with false.
  change (N.eqb (chr "/") (chr "+")) with false.
  change (N.eqb (chr "/") (chr "-")) with false.
  change (N.eqb (chr "/") (chr "*")) with false.
  change (N.eqb (chr "/") (chr "/")) with true. cbn [orb].
  unfold lbind at 1. rewrite lexer_advance_eq, peek_is_advanced.
  destruct (two_ahead (chr "/") self).
  - unfold lbind. rewrite lexer_advance_eq. simpl.
    now replace (pos self + 2) with (S (S (pos self))) by lia.
  - now replace (pos self + 1) with (S (pos self)) by lia.
Qed.

(** On ['*'] and on ['/'] the lexer advances and then peeks, so it compares
    the character two positions after the operator, not the next one.
    When that character is the operator again the token is [POWER] or
    [INT_DIVIDE], the character in between is passed over unread and the
    cursor stops on the second operator; otherwise the token is [TIMES] or
    [DIVIDE].  The operators are taken to be no space, digit or letter. *)
Theorem double_operator_looks_two_ahead (fuel : nat) (self : Lexer) :
  operator_char (chr "*") -> operator_char (chr "/") ->
  (current_char self = Some (chr "*") ->
   get_next_token fuel self =
     if two_ahead (chr "*") self then
       (Ret (mkToken "POWER" (VText [chr "*"; chr "*"])),
        at_pos (pos self + 2))
     else (Ret (mkToken "TIMES" (VText [chr "*"])), at_pos (pos self + 1))) /\
  (current_char self = Some (chr "/") ->
   get_next_token fuel self =
     if two_ahead (chr "/") self then
       (Ret (mkToken "INT_DIVIDE" (VText [chr "/"; chr "/"])),
        at_pos (pos self + 2))
     else (Ret (mkToken "DIVIDE" (VText [chr "/"])), at_pos (pos self + 1))).
Proof.
  intros Hstar Hslash. split; intros Hcc.
  - now apply star_token.
  - now apply slash_token.
Qed.

(** *** The cursor after a two-character operator *)

Lemma lpost_bind {A B} (Q : B -> Lexer -> Prop) (m : LM A) (f : A -> LM B)
    self :
  (forall a s1, lpost Q (f a s1)) -> lpost Q (lbind m f self).
Proof.
  unfold lbind. intros H.
  destruct (m self) as [[a | e | ] s1]; simpl; auto.
Qed.

Lemma lpost_of_type {A} (P : A -> Prop) (Q : A -> Lexer -> Prop)
    (run : outcome A * Lexer) :
  lreturns P run -> (forall a s, P a -> Q a s) -> lpost Q run.
Proof.
  unfold lreturns, lpost. destruct run as [[a | e | ] s]; simpl; auto.
Qed.

Lemma peek_is_char c p :
  peek_is c (at_pos (S p)) = true ->
  current_char (at_pos (S (S p))) = Some c.
Proof.
  unfold peek_is. rewrite peek_eq. cbn [pos at_pos current_char].
  replace (S p + 1) with (S (S p)) by lia.
  destruct (nth_error text (S (S p))) as [c' | ]; [ | discriminate].
  intros H. apply N.eqb_eq in H. now subst.
Qed.

Lemma single_on_second ty v self :
  ty <> "POWER" -> ty <> "INT_DIVIDE" ->
  lpost on_second_operator
    (lbind advance (fun _ s => (Ret (mkToken ty v), s)) self).
Proof.
  intros H1 H2. apply lpost_bind. intros [] s1. simpl.
  split; intros H; simpl in H; congruence.
Qed.

Lemma token_at_on_second fuel c self :
  lpost on_second_operator (token_at fuel c self).
Proof.
  unfold token_at.
  destruct (isdigit c).
  { eapply lpost_of_type; [apply number_type | ].
    intros t s Hty. split; intros H; congruence. }
  destruct (isalpha c || N.eqb c (chr "_"))%bool.
  { eapply lpost_of_type; [apply identifier_type | ].
    intros t s Hty. split; intros H; congruence. }
  destruct (N.eqb c (chr "+")).
  { apply single_on_second; discriminate. }
  destruct (N.eqb c (chr "-")).
  { apply single_on_second; discriminate. }
  destruct (N.eqb c (chr "*")).
  { unfold lbind at 1. rewrite lexer_advance_eq.
    destruct (peek_is (chr "*") (at_pos (S (pos self)))) eqn:Hpk.
    - unfold lbind. rewrite lexer_advance_eq. simpl.
      split; intros H; [now apply peek_is_char | discriminate H].
    - simpl. split; intros H; discriminate H. }
  destruct (N.eqb c (chr "/")).
  { unfold lbind at 1. rewrite lexer_advance_eq.
    destruct (peek_is (chr "/") (at_pos (S (pos self)))) eqn:Hpk.
    - unfold lbind. rewrite lexer_advance_eq. simpl.
      split; intros H; [discriminate H | now apply peek_is_char].
    - simpl. split; intros H; discriminate H. }
  destruct (N.eqb c (chr "(")).
  { apply single_on_second; discriminate. }
  destruct (N.eqb c (chr ")")).
  { apply single_on_second; discriminate. }
  exact I.
Qed.

Lemma get_next_token_on_second : forall fuel self,
  lpost on_second_operator (get_next_token fuel self).
Proof.
  induction fuel as [ | fuel IH]; intros self; cbn [get_next_token];
    destruct (current_char self) as [c | ];
    try (simpl; split; intros H; discriminate H);
    destruct (isspace c);
    try apply token_at_on_second.
  - exact I.
  - apply lpost_bind. intros [] s1. apply IH.
Qed.

Lemma str_in_In x l : str_in x l = true -> In x l.
Proof.
  unfold str_in. intros H. apply existsb_exists in H as (y & Hin & Heq).
  apply String.eqb_eq in Heq. now subst.
Qed.

Lemma factor_on_operator (exp : PM value) fuel self :
  In (type (current_token self)) ["TIMES"; "POWER"; "DIVIDE"; "INT_DIVIDE"] ->
  factor exp (S fuel) self = (Raise UnexpectedFactor, self).
Proof.
  intros Hin. cbn [factor]. unfold factor_body. cbv zeta. simpl in Hin.
  repeat (destruct Hin as [Hin | Hin]; [rewrite <- Hin; reflexivity | ]).
  destruct Hin.
Qed.

(** *** The operators [**] and [//] cannot be applied *)

(** When the current token is a [POWER] or an [INT_DIVIDE] that the lexer
    has just returned, the loop of [term] fails with "Factor inesperado":
    the token read for the right operand is the second character of the
    operator.  So no run evaluates [**] or [//]. *)
Theorem double_operator_is_rejected (exp : PM value)
    (fuel0 lex_fuel fuel factor_fuel : nat) (lx0 : Lexer) (self : Parser)
    (result : value) :
  operator_char (chr "*") -> operator_char (chr "/") ->
  get_next_token fuel0 lx0 = (Ret (current_token self), lexer self) ->
  type (current_token self) = "POWER" \/
  type (current_token self) = "INT_DIVIDE" ->
  fst (term_loop (factor exp (S factor_fuel)) lex_fuel (S fuel) result self)
  = Raise UnexpectedFactor.
Proof.
  intros Hstar Hslash Hlex Hty.
  pose proof (get_next_token_on_second fuel0 lx0) as Hon.
  rewrite Hlex in Hon. destruct Hon as (Hpow & Hdiv).
  cbn [term_loop]. cbv zeta.
  destruct Hty as [Hty | Hty]; rewrite Hty; simpl str_in; cbv iota;
    change (String.eqb "POWER" "TIMES") with false;
    change (String.eqb "POWER" "DIVIDE") with false;
    change (String.eqb "POWER" "INT_DIVIDE") with false;
    change (String.eqb "POWER" "POWER") with true;
    change (String.eqb "INT_DIVIDE" "TIMES") with false;
    change (String.eqb "INT_DIVIDE" "DIVIDE") with false;
    change (String.eqb "INT_DIVIDE" "INT_DIVIDE") with true;
    cbv iota; unfold pbind at 1, eat; rewrite Hty;
    [ change (String.eqb "POWER" "POWER") with true
    | change (String.eqb "INT_DIVIDE" "INT_DIVIDE") with true ];
    cbv iota; unfold pbind at 1, next_token.
  - rewrite (star_token lex_fuel (lexer self) Hstar (Hpow Hty)).
    destruct (two_ahead (chr "*") (lexer self)); unfold set_current_token;
      cbv iota beta; unfold pbind; rewrite factor_on_operator;
      try reflexivity; simpl; auto.
  - rewrite (slash_token lex_fuel (lexer self) Hslash (Hdiv Hty)).
    destruct (two_ahead (chr "/") (lexer self)); unfold set_current_token;
      cbv iota beta; unfold pbind; rewrite factor_on_operator;
      try reflexivity; simpl; auto.
Qed.

(** ** What [identifier] reads *)

Lemma skipn_nth_error {A} : forall (l : list A) p c,
  nth_error l p = Some c -> skipn p l = c :: skipn (S p) l.
Proof.
  induction l as [ | x l IH]; intros [ | p] c H; simpl in *;
    try discriminate.
  - now injection H as ->.
  - now apply IH.
Qed.

Lemma skipn_past {A} : forall (l : list A) p,
  nth_error l p = None -> skipn p l = [].
Proof.
  intros l p H. apply nth_error_None in H. now apply skipn_all2.
Qed.

Lemma identifier_loop_run : forall fuel p result,
  p <= List.length text -> List.length text - p <= fuel ->
  identifier_loop fuel result (at_pos p) =
    (Ret (result ++ take_while identifier_char (skipn p text))%list,
     at_pos (p + List.length (take_while identifier_char (skipn p text)))).
Proof.
  induction fuel as [ | fuel IH]; intros p result Hp Hf;
    cbn [identifier_loop current_char at_pos];
    destruct (nth_error text p) as [c | ] eqn:Hn.
  - assert (p < List.length text) by (apply nth_error_Some; congruence).
    lia.
  - rewrite (skipn_past _ _ Hn). simpl.
    now rewrite app_nil_r, Nat.add_0_r.
  - rewrite (skipn_nth_error _ _ _ Hn). cbn [take_while].
    fold (identifier_char c). destruct (identifier_char c).
    + unfold lbind. rewrite lexer_advance_eq. cbn [pos at_pos].
      assert (Hlt : p < List.length text)
        by (apply nth_error_Some; congruence).
      rewrite IH by lia. rewrite <- app_assoc. cbn [List.length app].
      now rewrite Nat.add_succ_r.
    + simpl. now rewrite app_nil_r, Nat.add_0_r.
  - rewrite (skipn_past _ _ Hn). simpl.
    now rewrite app_nil_r, Nat.add_0_r.
Qed.

(** With fuel for the characters that are left, [identifier] returns an
    [ID] token whose value is the longest run of alphanumeric characters
    and underscores from the cursor, and leaves the cursor after it. *)
Theorem identifier_reads_longest_run (fuel : nat) (self : Lexer) :
  wf self -> remaining self <= fuel ->
  identifier fuel self =
    (Ret (mkToken "ID"
            (VText (take_while identifier_char (skipn (pos self) text)))),
     at_pos (pos self +
             List.length (take_while identifier_char (skipn (pos self) text)))).
Proof.
  intros (Hp & Hc) Hr. destruct self as [p cc]. simpl in *. subst cc.
  unfold identifier, lbind. fold (at_pos p).
  now rewrite identifier_loop_run.
Qed.

(** ** The parser stops *)

Lemma par_ok_bind {A B} (m : PM A) (f : A -> PM B) self Q1
    (Q : B -> Parser -> Prop) :
  par_ok (m self) Q1 ->
  (forall a s1, wf (lexer s1) -> Q1 a s1 -> par_ok (f a s1) Q) ->
  par_ok (pbind m f self) Q.
Proof.
  unfold pbind. destruct (m self) as [[a | e | ] s1]; simpl; intros H Hf; auto.
  destruct H as (Hw & HQ). now apply Hf.
Qed.

Lemma par_ok_weaken {A} (run : outcome A * Parser) (Q' Q : A -> Parser -> Prop) :
  par_ok run Q' -> (forall a s, wf (lexer s) -> Q' a s -> Q a s) ->
  par_ok run Q.
Proof.
  destruct run as [[a | e | ] s]; simpl; auto.
  intros (Hw & Hq) H. auto.
Qed.

Lemma remaining_le_measure self : remaining (lexer self) <= measure self.
Proof. unfold measure. lia. Qed.

Lemma measure_not_eof self :
  type (current_token self) <> "EOF" ->
  measure self = remaining (lexer self) + 1.
Proof.
  intros H. apply String.eqb_neq in H. unfold measure. now rewrite H.
Qed.

Lemma next_token_ok fuel self :
  host_alnum ->
  wf (lexer self) -> remaining (lexer self) <= fuel ->
  par_ok (next_token fuel self)
    (fun t s' =>
       current_token s' = current_token self /\
       remaining (lexer s') <= remaining (lexer self) /\
       (type t <> "EOF" -> remaining (lexer s') < remaining (lexer self))).
Proof.
  intros Hhost Hw Hr. unfold next_token.
  pose proof (get_next_token_ok Hhost fuel (lexer self) Hw Hr) as H.
  destruct (get_next_token fuel (lexer self)) as [[t | e | ] lx]; simpl in *;
    auto.
  destruct H as (Hw' & Hp & Hq). destruct Hw' as (Hb & Hc).
  repeat split; auto; unfold remaining; try lia.
  intros Hty. apply String.eqb_neq in Hty. rewrite Hty in Hq. lia.
Qed.

Lemma eat_ok fuel ty self :
  host_alnum ->
  wf (lexer self) -> remaining (lexer self) <= fuel -> ty <> "EOF" ->
  par_ok (eat fuel ty self) (fun _ s' => measure s' < measure self).
Proof.
  intros Hhost Hw Hr Hty. unfold eat.
  destruct (String.eqb (type (current_token self)) ty) eqn:Heq; [ | exact I].
  apply String.eqb_eq in Heq.
  eapply par_ok_bind; [now apply next_token_ok | ].
  intros t s1 Hw1 (Hc & Hle & Hlt). unfold set_current_token. simpl.
  split; [exact Hw1 | ].
  rewrite (measure_not_eof self) by congruence.
  unfold measure. cbn [lexer current_token].
  destruct (String.eqb (type t) "EOF") eqn:Ht; [lia | ].
  apply String.eqb_neq in Ht. specialize (Hlt Ht). lia.
Qed.

Ltac eat_step :=
  eapply par_ok_bind;
  [ apply eat_ok;
    [ assumption | assumption
    | match goal with
      | |- remaining (lexer ?s) <= _ =>
          pose proof (remaining_le_measure s); lia
      end
    | discriminate ]
  | intros [] ? ? ? ].

Lemma factor_ok (exp : PM value) (bound : nat) :
  host_alnum ->
  (forall s, wf (lexer s) -> measure s < bound -> consumes s (exp s)) ->
  forall fuel self,
    wf (lexer self) -> measure self < fuel -> fuel <= S bound ->
    consumes self (factor exp fuel self).
Proof.
  intros Hhost Hexp. unfold consumes in *.
  induction fuel as [ | fuel IH]; intros self Hw Hm Hb; [lia | ].
  cbn [factor]. unfold factor_body. cbv zeta.
  destruct (String.eqb (type (current_token self)) "NUMBER").
  { eat_step. simpl. auto. }
  destruct (String.eqb (type (current_token self)) "ID").
  { eat_step. destruct (env_get (env s1) _); simpl; auto. }
  destruct (String.eqb (type (current_token self)) "LPAREN").
  { eat_step.
    eapply par_ok_bind; [apply Hexp; [assumption | lia] | ].
    intros v s2 Hw2 Hm2. cbv beta in Hm2.
    eat_step. simpl. split; [assumption | lia]. }
  destruct (String.eqb (type (current_token self)) "MINUS").
  { eat_step.
    eapply par_ok_bind; [apply IH; [assumption | lia | lia] | ].
    intros v s2 Hw2 Hm2. cbv beta in Hm2.
    destruct (neg v); simpl; auto. split; [assumption | lia]. }
  exact I.
Qed.

Lemma not_eof_in ty l :
  str_in ty l = true -> ~ In "EOF" l -> ty <> "EOF".
Proof. intros H Hn Heq. apply str_in_In in H. now subst. Qed.

Lemma loop_has_fuel self l fuel :
  str_in (type (current_token self)) l = true -> ~ In "EOF" l ->
  measure self <= fuel -> exists fuel', fuel = S fuel'.
Proof.
  intros H Hn Hm. rewrite (measure_not_eof self) in Hm
    by now apply (not_eof_in _ l).
  destruct fuel as [ | fuel']; [lia | now exists fuel'].
Qed.

Lemma apply_op_ok op a b self (Q : value -> Parser -> Prop) :
  wf (lexer self) -> (forall r, Q r self) ->
  par_ok (apply_op op a b self) Q.
Proof.
  intros Hw HQ. unfold apply_op. destruct (arith op a b); simpl; auto.
Qed.

Lemma term_loop_ok (fac : PM value) (lex_fuel bound : nat) :
  host_alnum ->
  (forall s, wf (lexer s) -> measure s < bound -> consumes s (fac s)) ->
  forall fuel result self,
    wf (lexer self) -> measure self <= fuel -> measure self <= lex_fuel ->
    measure self <= bound ->
    par_ok (term_loop fac lex_fuel fuel result self)
      (fun _ s' => measure s' <= measure self).
Proof.
  intros Hhost Hfac. unfold consumes in *.
  induction fuel as [ | fuel IH]; intros result self Hw Hm Hl Hb;
    cbn [term_loop]; cbv zeta;
    destruct (str_in (type (current_token self))
                ["TIMES"; "DIVIDE"; "INT_DIVIDE"; "POWER"]) eqn:Hg;
    try (simpl; split; [assumption | lia]).
  { destruct (loop_has_fuel self _ 0 Hg) as (f & Hf); try assumption;
      [ | discriminate Hf].
    simpl. intuition discriminate. }
  assert (Htail : forall op v s2,
             wf (lexer s2) -> measure s2 < measure self ->
             par_ok ((r <~ apply_op op result v ;;
                      term_loop fac lex_fuel fuel r) s2)
               (fun _ s' => measure s' <= measure self)).
  { intros op v s2 Hw2 Hm2.
    eapply par_ok_bind;
      [apply apply_op_ok with (Q := fun _ s => s = s2); auto | ].
    intros r s3 Hw3 ->.
    eapply par_ok_weaken; [apply IH; auto; lia | ].
    intros a s _ Hq. cbv beta in Hq. lia. }
  destruct (String.eqb (type (current_token self)) "TIMES") eqn:He1.
  { eat_step.
    eapply par_ok_bind; [apply Hfac; [assumption | lia] | ].
    intros v s2 Hw2 Hm2. cbv beta in Hm2. apply Htail; [assumption | lia]. }
  destruct (String.eqb (type (current_token self)) "DIVIDE") eqn:He2.
  { eat_step.
    eapply par_ok_bind; [apply Hfac; [assumption | lia] | ].
    intros v s2 Hw2 Hm2. cbv beta in Hm2.
    destruct (is_zero v); [exact I | ]. apply Htail; [assumption | lia]. }
  destruct (String.eqb (type (current_token self)) "INT_DIVIDE") eqn:He3.
  { eat_step.
    eapply par_ok_bind; [apply Hfac; [assumption | lia] | ].
    intros v s2 Hw2 Hm2. cbv beta in Hm2.
    destruct (is_zero v); [exact I | ]. apply Htail; [assumption | lia]. }
  destruct (String.eqb (type (current_token self)) "POWER") eqn:He4.
  { eat_step.
    eapply par_ok_bind; [apply Hfac; [assumption | lia] | ].
    intros v s2 Hw2 Hm2. cbv beta in Hm2. apply Htail; [assumption | lia]. }
  exfalso. unfold str_in in Hg. simpl in Hg.
  rewrite He1, He2, He3, He4 in Hg. discriminate Hg.
Qed.

Lemma term_ok (fac : PM value) (fuel bound : nat) :
  host_alnum ->
  (forall s, wf (lexer s) -> measure s < bound -> consumes s (fac s)) ->
  forall self,
    wf (lexer self) -> measure self <= fuel -> measure self < bound ->
    consumes self (term fac fuel self).
Proof.
  intros Hhost Hfac self Hw Hm Hb. unfold consumes, term.
  eapply par_ok_bind; [now apply Hfac | ].
  intros v s1 Hw1 Hm1. cbv beta in Hm1.
  eapply par_ok_weaken;
    [apply (term_loop_ok fac fuel bound Hhost Hfac); auto; lia | ].
  intros a s _ Hq. cbv beta in Hq. lia.
Qed.

Lemma expression_loop_ok (trm : PM value) (lex_fuel bound : nat) :
  host_alnum ->
  (forall s, wf (lexer s) -> measure s < bound -> consumes s (trm s)) ->
  forall fuel result self,
    wf (lexer self) -> measure self <= fuel -> measure self <= lex_fuel ->
    measure self <= bound ->
    par_ok (expression_loop trm lex_fuel fuel result self)
      (fun _ s' => measure s' <= measure self).
Proof.
  intros Hhost Htrm. unfold consumes in *.
  induction fuel as [ | fuel IH]; intros result self Hw Hm Hl Hb;
    cbn [expression_loop]; cbv zeta;
    destruct (str_in (type (current_token self)) ["PLUS"; "MINUS"]) eqn:Hg;
    try (simpl; split; [assumption | lia]).
  { destruct (loop_has_fuel self _ 0 Hg) as (f & Hf); try assumption;
      [ | discriminate Hf].
    simpl. intuition discriminate. }
  assert (Htail : forall op v s2,
             wf (lexer s2) -> measure s2 < measure self ->
             par_ok ((r <~ apply_op op result v ;;
                      expression_loop trm lex_fuel fuel r) s2)
               (fun _ s' => measure s' <= measure self)).
  { intros op v s2 Hw2 Hm2.
    eapply par_ok_bind;
      [apply apply_op_ok with (Q := fun _ s => s = s2); auto | ].
    intros r s3 Hw3 ->.
    eapply par_ok_weaken; [apply IH; auto; lia | ].
    intros a s _ Hq. cbv beta in Hq. lia. }
  destruct (String.eqb (type (current_token self)) "PLUS") eqn:He1.
  { eat_step.
    eapply par_ok_bind; [apply Htrm; [assumption | lia] | ].
    intros v s2 Hw2 Hm2. cbv beta in Hm2. apply Htail; [assumption | lia]. }
  destruct (String.eqb (type (current_token self)) "MINUS") eqn:He2.
  { eat_step.
    eapply par_ok_bind; [apply Htrm; [assumption | lia] | ].
    intros v s2 Hw2 Hm2. cbv beta in Hm2. apply Htail; [assumption | lia]. }
  exfalso. unfold str_in in Hg. simpl in Hg.
  rewrite He1, He2 in Hg. discriminate Hg.
Qed.

Lemma expression_ok :
  host_alnum ->
  forall fuel self,
    wf (lexer self) -> measure self < fuel ->
    consumes self (expression fuel self).
Proof.
  intros Hhost. induction fuel as [ | fuel IH]; intros self Hw Hm; [lia | ].
  cbn [expression]. cbv zeta.
  assert (Hfac : forall s, wf (lexer s) -> measure s < S fuel ->
                           consumes s (factor (expression fuel) (S fuel) s)).
  { intros s Hws Hms. apply (factor_ok (expression fuel) fuel); auto. }
  assert (Htrm : forall s, wf (lexer s) -> measure s < S fuel ->
                           consumes s
                             (term (factor (expression fuel) (S fuel))
                                   (S fuel) s)).
  { intros s Hws Hms. apply (term_ok _ (S fuel) (S fuel)); auto. lia. }
  unfold consumes.
  eapply par_ok_bind; [now apply Htrm | ].
  intros v s1 Hw1 Hm1. cbv beta in Hm1.
  eapply par_ok_weaken;
    [apply (expression_loop_ok _ (S fuel) (S fuel) Hhost Htrm); auto; lia | ].
  intros a s _ Hq. cbv beta in Hq. lia.
Qed.

Lemma statement_ok fuel self :
  host_alnum ->
  wf (lexer self) -> measure self < fuel ->
  consumes self (statement fuel self).
Proof.
  intros Hhost Hw Hm.
  destruct (String.eqb (type (current_token self)) "ID") eqn:Hty.
  - apply String.eqb_eq in Hty.
    pose proof (next_token_ok fuel self Hhost Hw) as Hn.
    pose proof (remaining_le_measure self) as Hrm.
    specialize (Hn ltac:(lia)).
    destruct (next_token fuel self) as [[t | e | ] s1] eqn:Hnext.
    + destruct (statement_after_identifier fuel self t s1 Hty Hnext)
        as (Hst & Hc & _).
      rewrite Hst. destruct Hn as (Hw1 & _ & Hle & _).
      assert (Hms : measure s1 <= measure self).
      { unfold measure. rewrite Hc. lia. }
      unfold consumes. eapply par_ok_weaken;
        [apply (expression_ok Hhost fuel s1); [assumption | lia] | ].
      intros a s _ Hq. cbv beta in Hq. lia.
    + unfold consumes, statement, pbind.
      apply String.eqb_eq in Hty. now rewrite Hty, Hnext.
    + destruct Hn.
  - unfold statement. rewrite Hty. now apply expression_ok.
Qed.

Lemma parse_loop_stops (stmt_fuel : nat) :
  host_alnum ->
  forall fuel results self,
    wf (lexer self) -> measure self < stmt_fuel -> measure self <= fuel ->
    par_ok (parse_loop stmt_fuel fuel results self)
      (fun _ s' => type (current_token s') = "EOF").
Proof.
  intros Hhost.
  induction fuel as [ | fuel IH]; intros results self Hw Hs Hm;
    cbn [parse_loop];
    destruct (String.eqb (type (current_token self)) "EOF") eqn:Hty;
    cbn [negb];
    try (simpl; split; [assumption | now apply String.eqb_eq]).
  - apply String.eqb_neq in Hty. rewrite (measure_not_eof _ Hty) in Hm. lia.
  - eapply par_ok_bind; [now apply statement_ok | ].
    intros r s1 Hw1 Hm1. cbv beta in Hm1. apply IH; auto; lia.
Qed.

(** With an empty environment, as [calculator] creates it, a statement
    that starts with an identifier raises: with more fuel than is left to
    parse, its outcome is an exception, never a value. *)
Theorem identifier_statement_raises (fuel : nat) (self : Parser) :
  host_alnum ->
  wf (lexer self) -> measure self < fuel ->
  type (current_token self) = "ID" ->
  env self = [] ->
  exists ex, fst (statement fuel self) = Raise ex.
Proof.
  intros Hhost Hw Hm Hty Henv.
  pose proof (statement_ok fuel self Hhost Hw Hm) as Hok.
  pose proof (fun v => statement_undefined fuel self v Hty Henv) as Hno.
  unfold consumes, par_ok in Hok.
  destruct (statement fuel self) as [[v | ex | ] s']; simpl in *.
  - now destruct (Hno v).
  - now exists ex.
  - destruct Hok.
Qed.

Lemma Lexer_init_wf : wf Lexer_init.
Proof. unfold wf, Lexer_init. simpl. split; [lia | ]. now destruct text. Qed.

(** With more fuel than the line has characters, plus two, the evaluation
    of a line does not exhaust it: every line gives a value or raises.
    The host's letters are taken to be alphanumeric. *)
Theorem calculator_line_terminates (fuel : nat) (e : list (value * value)) :
  host_alnum ->
  List.length text + 1 < fuel ->
  calculator_line fuel e <> OutOfFuel.
Proof.
  intros Hhost Hf. unfold calculator_line, Parser_init.
  assert (Hr : remaining Lexer_init <= fuel).
  { unfold remaining, Lexer_init. simpl. lia. }
  pose proof (get_next_token_ok Hhost fuel Lexer_init Lexer_init_wf Hr) as H.
  destruct (get_next_token fuel Lexer_init) as [[t | ex | ] lx]; simpl in H;
    try discriminate; [ | destruct H].
  destruct H as (Hw & Hp & _).
  set (parser := {| lexer := lx; current_token := t; env := e |}).
  assert (Hm : measure parser < fuel).
  { unfold measure, remaining. simpl.
    destruct (String.eqb (type t) "EOF"); lia. }
  pose proof (statement_ok fuel parser Hhost Hw Hm) as Hs.
  unfold consumes, par_ok in Hs.
  destruct (statement fuel parser) as [[v | ex | ] s']; simpl;
    try discriminate. destruct Hs.
Qed.

(** From a parser whose lexer is in order, with more fuel than is left to
    parse, [statement] does not exhaust the fuel and a statement that
    returns has consumed input; [parse] does not exhaust it either and,
    when it returns, the current token is [EOF]. *)
Theorem parser_terminates (fuel : nat) (self : Parser) :
  host_alnum ->
  wf (lexer self) -> measure self < fuel ->
  match statement fuel self with
  | (Ret _, self') => measure self' < measure self
  | (Raise _, _) => True
  | (OutOfFuel, _) => False
  end /\
  match parse fuel self with
  | (Ret _, self') => type (current_token self') = "EOF"
  | (Raise _, _) => True
  | (OutOfFuel, _) => False
  end.
Proof.
  intros Hhost Hw Hm. split.
  - pose proof (statement_ok fuel self Hhost Hw Hm) as H.
    unfold consumes, par_ok in H.
    destruct (statement fuel self) as [[v | ex | ] s']; auto. apply H.
  - pose proof (parse_loop_stops fuel Hhost fuel [] self Hw Hm) as H.
    specialize (H ltac:(lia)). unfold par_ok in H. unfold parse.
    destruct (parse_loop fuel fuel [] self) as [[v | ex | ] s']; auto.
    apply H.
Qed.

End Calculator.

(** ** A host for ASCII texts of integers

    The character classes of the host on ASCII, [int] on a text of digits
    and the arithmetic of integers.  A text with a dot, [/] and [**] are
    outside this host and refused. *)
Module Sample.

Definition between (lo hi c : N) : bool := (N.leb lo c && N.leb c hi)%bool.

Definition isspace (c : N) : bool := (between 9 13 c || between 28 32 c)%bool.
Definition isdigit (c : N) : bool := between 48 57 c.
Definition isalpha (c : N) : bool := (between 65 90 c || between 97 122 c)%bool.
Definition isalnum (c : N) : bool := (isalpha c || isdigit c)%bool.

Fixpoint digits (acc : Z) (s : list N) : option Z :=
  match s with
  | [] => Some acc
  | c :: s' =>
      if isdigit c then digits (10 * acc + Z.of_N (c - 48)) s' else None
  end.

Definition py_int (s : list N) : option Z :=
  match s with
  | [] => None
  | _ => digits 0 s
  end.

Definition py_float (s : list N) : option Z := None.

Definition arith (op : string) (a b : @value Z) : option (@value Z) :=
  match a, b with
  | VNum x, VNum y =>
      if String.eqb op "+" then Some (VNum (x + y))
      else if String.eqb op "-" then Some (VNum (x - y))
      else if String.eqb op "*" then Some (VNum (x * y))
      else if String.eqb op "//" then Some (VNum (x / y))
      else None
  | _, _ => None
  end%Z.

Definition neg (a : @value Z) : option (@value Z) :=
  match a with
  | VNum x => Some (VNum (- x)%Z)
  | _ => None
  end.

Definition is_zero (a : @value Z) : bool :=
  match a with
  | VNum x => Z.eqb x 0
  | _ => false
  end.

Fixpoint text_eqb (s s' : list N) : bool :=
  match s, s' with
  | [], [] => true
  | c :: r, c' :: r' => (N.eqb c c' && text_eqb r r')%bool
  | _, _ => false
  end.

Definition key_eqb (a b : @value Z) : bool :=
  match a, b with
  | VNone, VNone => true
  | VNum x, VNum y => Z.eqb x y
  | VText s, VText s' => text_eqb s s'
  | _, _ => false
  end.

(** The code points of a text. *)
Definition text_of (s : string) : list N :=
  map N_of_ascii (list_ascii_of_string s).

Definition get_next_token := get_next_token isspace isdigit isalpha isalnum py_int py_float.
Definition next_token := next_token isspace isdigit isalpha isalnum py_int py_float.
Definition expression :=
  expression isspace isdigit isalpha isalnum py_int py_float arith neg
    is_zero key_eqb.
Definition statement :=
  statement isspace isdigit isalpha isalnum py_int py_float arith neg
    is_zero key_eqb.
Definition parse :=
  parse isspace isdigit isalpha isalnum py_int py_float arith neg
    is_zero key_eqb.
Definition calculator_line :=
  calculator_line isspace isdigit isalpha isalnum py_int py_float arith neg
    is_zero key_eqb.

(** The parser on the first token of [x+1], of [2*3] and of [2*3*4]; the
    parser on the [POWER] token of [2*3*4]. *)
Definition parser_x_plus_1 (e : list (@value Z * @value Z)) : Parser :=
  {| lexer := at_pos (text_of "x+1") 1;
     current_token := mkToken "ID" (VText (text_of "x"));
     env := e |}.

Definition parser_2_times_3 : @Parser Z :=
  {| lexer := at_pos (text_of "2*3") 1;
     current_token := mkToken "NUMBER" (VNum 2%Z);
     env := [] |}.

Definition parser_at_power : @Parser Z :=
  {| lexer := at_pos (text_of "2*3*4") 3;
     current_token := mkToken "POWER" (VText (text_of "**"));
     env := [] |}.

Lemma letters_are_alnum : host_alnum isalpha isalnum.
Proof. intros c H. unfold isalnum. now rewrite H. Qed.

Lemma star_is_operator : operator_char isspace isdigit isalpha (chr "*").
Proof. repeat split. Qed.

Lemma slash_is_operator : operator_char isspace isdigit isalpha (chr "/").
Proof. repeat split. Qed.

End Sample.

(** [x=1]: the first token is the identifier. *)
Lemma get_next_token_never_assign_witness :
  In "ID" lexer_types /\ "ID" <> "ASSIGN".
Proof.
  apply (get_next_token_never_assign Sample.isspace Sample.isdigit
           Sample.isalpha Sample.isalnum Sample.py_int Sample.py_float
           (Sample.text_of "x=1") 3 (Lexer_init (Sample.text_of "x=1"))
           (mkToken "ID" (VText (Sample.text_of "x")))
           (at_pos (Sample.text_of "x=1") 1)).
  reflexivity.
Defined.

(** [x+1] with [x] bound to 5: the [+] is dropped. *)
Lemma statement_drops_token_after_identifier_witness :
  Sample.statement (Sample.text_of "x+1") 4
    (Sample.parser_x_plus_1 [(VText (Sample.text_of "x"), VNum 5%Z)]) =
  Sample.expression (Sample.text_of "x+1") 4
    {| lexer := at_pos (Sample.text_of "x+1") 2;
       current_token := mkToken "ID" (VText (Sample.text_of "x"));
       env := [(VText (Sample.text_of "x"), VNum 5%Z)] |} /\
  mkToken "ID" (VText (Sample.text_of "x")) =
    current_token
      (Sample.parser_x_plus_1 [(VText (Sample.text_of "x"), VNum 5%Z)]) /\
  [(VText (Sample.text_of "x"), VNum 5%Z)] =
    env (Sample.parser_x_plus_1 [(VText (Sample.text_of "x"), VNum 5%Z)]).
Proof.
  apply (statement_drops_token_after_identifier Sample.isspace Sample.isdigit
           Sample.isalpha Sample.isalnum Sample.py_int Sample.py_float
           Sample.arith Sample.neg Sample.is_zero Sample.key_eqb
           (Sample.text_of "x+1") 4
           (Sample.parser_x_plus_1 [(VText (Sample.text_of "x"), VNum 5%Z)])
           (mkToken "PLUS" (VText (Sample.text_of "+")))
           {| lexer := at_pos (Sample.text_of "x+1") 2;
              current_token := mkToken "ID" (VText (Sample.text_of "x"));
              env := [(VText (Sample.text_of "x"), VNum 5%Z)] |});
    reflexivity.
Defined.

(** [x+1] in a fresh calculator: "Variable 'x' no definida". *)
Lemma identifier_statement_raises_witness :
  exists ex,
    fst (Sample.statement (Sample.text_of "x+1") 4 (Sample.parser_x_plus_1 []))
    = Raise ex.
Proof.
  apply (identifier_statement_raises Sample.isspace Sample.isdigit
           Sample.isalpha Sample.isalnum Sample.py_int Sample.py_float
           Sample.arith Sample.neg Sample.is_zero Sample.key_eqb
           (Sample.text_of "x+1") 4 (Sample.parser_x_plus_1 [])).
  - exact Sample.letters_are_alnum.
  - split; [simpl; lia | reflexivity].
  - unfold measure, remaining. simpl. lia.
  - reflexivity.
  - reflexivity.
Defined.

(** [12 + 3] from its start: the number moves the cursor to position 2. *)
Lemma get_next_token_progress_witness :
  wf (Sample.text_of "12 + 3") (at_pos (Sample.text_of "12 + 3") 2) /\
  pos (Lexer_init (Sample.text_of "12 + 3")) <
  pos (at_pos (Sample.text_of "12 + 3") 2).
Proof.
  apply (get_next_token_progress Sample.isspace Sample.isdigit Sample.isalpha
           Sample.isalnum Sample.py_int Sample.py_float
           (Sample.text_of "12 + 3") 6 (Lexer_init (Sample.text_of "12 + 3"))).
  - exact Sample.letters_are_alnum.
  - split; [simpl; lia | reflexivity].
  - unfold remaining. simpl. lia.
Defined.

(** [2*3*4] at the first [*]: the [3] is passed over. *)
Lemma double_operator_looks_two_ahead_witness :
  Sample.get_next_token (Sample.text_of "2*3*4") 5
    (at_pos (Sample.text_of "2*3*4") 1) =
  (Ret (mkToken "POWER" (VText (Sample.text_of "**"))),
   at_pos (Sample.text_of "2*3*4") 3).
Proof.
  apply (proj1 (double_operator_looks_two_ahead Sample.isspace Sample.isdigit
                  Sample.isalpha Sample.isalnum Sample.py_int Sample.py_float
                  (Sample.text_of "2*3*4") 5
                  (at_pos (Sample.text_of "2*3*4") 1)
                  Sample.star_is_operator Sample.slash_is_operator)).
  reflexivity.
Defined.

Lemma double_operator_is_rejected_witness :
  fst (term_loop Sample.isspace Sample.isdigit Sample.isalpha Sample.isalnum
         Sample.py_int Sample.py_float Sample.arith Sample.is_zero
         (Sample.text_of "2*3*4")
         (factor Sample.isspace Sample.isdigit Sample.isalpha Sample.isalnum
            Sample.py_int Sample.py_float Sample.neg Sample.key_eqb
            (Sample.text_of "2*3*4")
            (Sample.expression (Sample.text_of "2*3*4") 5) 6)
         6 6 (VNum 2%Z) Sample.parser_at_power)
  = Raise UnexpectedFactor.
Proof.
  apply (double_operator_is_rejected Sample.isspace Sample.isdigit
           Sample.isalpha Sample.isalnum Sample.py_int Sample.py_float
           Sample.arith Sample.neg Sample.is_zero Sample.key_eqb
           (Sample.text_of "2*3*4")
           (Sample.expression (Sample.text_of "2*3*4") 5) 5 6 5 5
           (at_pos (Sample.text_of "2*3*4") 1) Sample.parser_at_power
           (VNum 2%Z) Sample.star_is_operator Sample.slash_is_operator).
  - reflexivity.
  - left. reflexivity.
Defined.

Lemma identifier_reads_longest_run_witness :
  @identifier Z Sample.isalnum (Sample.text_of "ab_1+2") 6
    (Lexer_init (Sample.text_of "ab_1+2")) =
  (Ret (mkToken "ID" (VText (Sample.text_of "ab_1"))),
   at_pos (Sample.text_of "ab_1+2") 4).
Proof.
  apply (@identifier_reads_longest_run Z Sample.isalnum
           (Sample.text_of "ab_1+2") 6 (Lexer_init (Sample.text_of "ab_1+2"))).
  - split; [simpl; lia | reflexivity].
  - unfold remaining. simpl. lia.
Defined.

Lemma calculator_line_terminates_witness :
  Sample.calculator_line (Sample.text_of "2*3") 5 [] <> OutOfFuel.
Proof.
  apply (calculator_line_terminates Sample.isspace Sample.isdigit
           Sample.isalpha Sample.isalnum Sample.py_int Sample.py_float
           Sample.arith Sample.neg Sample.is_zero Sample.key_eqb
           (Sample.text_of "2*3") 5 []).
  - exact Sample.letters_are_alnum.
  - simpl. lia.
Defined.

(** [2*3] from its first token: both [statement] and [parse] stop at the
    end of the text. *)
Lemma parser_terminates_witness :
  measure (Sample.text_of "2*3")
    {| lexer := at_pos (Sample.text_of "2*3") 3;
       current_token := @mkToken Z "EOF" VNone;
       env := [] |} <
  measure (Sample.text_of "2*3") Sample.parser_2_times_3 /\
  type (@mkToken Z "EOF" VNone) = "EOF".
Proof.
  apply (parser_terminates Sample.isspace Sample.isdigit Sample.isalpha
           Sample.isalnum Sample.py_int Sample.py_float Sample.arith
           Sample.neg Sample.is_zero Sample.key_eqb
           (Sample.text_of "2*3") 5 Sample.parser_2_times_3).
  - exact Sample.letters_are_alnum.
  - split; [simpl; lia | reflexivity].
  - unfold measure, remaining. simpl. lia.
Defined.

End Calc.
